(** * Flappy Wolf: a shallow embedding of [flappywolf.py]

    The game is a single-threaded pygame loop.  Everything pygame supplies
    from outside the program (the event queue, the mouse, the millisecond
    clock, the random module, the pixel data of the images) is an explicit
    input of the functions below; the classes of the program become records
    and their methods functions that return the updated record. *)

From Stdlib Require Import ZArith QArith Qround Qminmax List Lia Bool.
Import ListNotations.
Open Scope Z_scope.

(** ** Numbers

    Positions are Python ints ([Z]).  The wolf's velocity is a Python float
    that only ever holds multiples of 0.5 of small magnitude, which binary
    floating point represents exactly; it is modelled as a rational kept in
    lowest terms, so that equal values are equal terms. *)

Definition float_add (a b : Q) : Q := Qred (a + b).
Definition float_mul (a b : Q) : Q := Qred (a * b).

(** Python's [int(x)] on a float: truncation towards zero. *)
Definition py_int (v : Q) : Z := Z.quot (Qnum v) (Z.pos (Qden v)).

(** Python's [min(a, b)] and [max(a, b)] return [a] unless [b] is strictly
    better; [Qmin] and [Qmax] choose the same way. *)
Definition py_min (a b : Q) : Q := Qmin a b.
Definition py_max (a b : Q) : Q := Qmax a b.

(** [random.randint(a, b)]: some integer of [a..b], decided by the state of
    the generator, which is an input here. *)
Definition randint (a b entropy : Z) : Z := a + entropy mod (b - a + 1).

Inductive GameState := MENU | PLAYING | GAME_OVER.

Module Config.
Definition SCREEN_WIDTH : Z := 864.
Definition SCREEN_HEIGHT : Z := 936.
Definition FPS : Z := 60.
Definition GRAVITY : Q := 1 # 2.
Definition MAX_FALL_SPEED : Q := 8 # 1.
Definition JUMP_STRENGTH : Q := (-10) # 1.
Definition SCROLL_SPEED : Z := 4.
Definition PIPE_GAP : Z := 150.
Definition PIPE_FREQUENCY : Z := 1500.
Definition GROUND_HEIGHT : Z := 168.
Definition FLAP_COOLDOWN : Z := 5.
End Config.

(** ** pygame.Rect *)

Record Rect := mkRect { rect_x : Z; rect_y : Z; rect_w : Z; rect_h : Z }.

Module Rect.
Definition left (r : Rect) : Z := rect_x r.
Definition top (r : Rect) : Z := rect_y r.
Definition right (r : Rect) : Z := rect_x r + rect_w r.
Definition bottom (r : Rect) : Z := rect_y r + rect_h r.
Definition centerx (r : Rect) : Z := rect_x r + Z.quot (rect_w r) 2.
Definition centery (r : Rect) : Z := rect_y r + Z.quot (rect_h r) 2.
Definition center (r : Rect) : Z * Z := (centerx r, centery r).

Definition set_x (r : Rect) (v : Z) : Rect :=
  mkRect v (rect_y r) (rect_w r) (rect_h r).
Definition set_y (r : Rect) (v : Z) : Rect :=
  mkRect (rect_x r) v (rect_w r) (rect_h r).
Definition set_center (r : Rect) (c : Z * Z) : Rect :=
  mkRect (fst c - Z.quot (rect_w r) 2) (snd c - Z.quot (rect_h r) 2)
         (rect_w r) (rect_h r).

(** [Surface.get_rect()] of a surface of the given size, and its keyword
    forms. *)
Definition of_size (s : Z * Z) : Rect := mkRect 0 0 (fst s) (snd s).
Definition of_size_center (s : Z * Z) (c : Z * Z) : Rect :=
  set_center (of_size s) c.
Definition of_size_topleft (s : Z * Z) (p : Z * Z) : Rect :=
  mkRect (fst p) (snd p) (fst s) (snd s).
Definition of_size_bottomleft (s : Z * Z) (p : Z * Z) : Rect :=
  mkRect (fst p) (snd p - snd s) (fst s) (snd s).

Definition collidepoint (r : Rect) (p : Z * Z) : bool :=
  (rect_x r <=? fst p) && (fst p <? rect_x r + rect_w r) &&
  (rect_y r <=? snd p) && (snd p <? rect_y r + rect_h r).
End Rect.

(** ** Images

    The program never looks inside a surface: it asks for its size, and
    hands it to [pygame.mask] for the pixel test.  A wolf image is therefore
    named by how it was made. *)

Inductive Image :=
| Frame (index : nat)                 (* wolf_frames[index] as loaded *)
| Rotated (index : nat) (angle : Q).  (* transform.rotate(frame, angle) *)

(** What the loaded assets and pygame's pixel operations answer. *)
Record Assets := mkAssets {
  frame_size : nat -> Z * Z;
  rotated_size : nat -> Q -> Z * Z;
  pipe_size : Z * Z;
  restart_size : Z * Z;
  (* pygame.sprite.collide_mask on a wolf image at a rect and a pipe image
     (flipped or not) at a rect: is some opaque pixel shared? *)
  mask_overlap : Image -> Rect -> bool -> Rect -> bool;
  (* whether audio/bg_music.mp3 was loaded; music.play raises otherwise *)
  music_loaded : bool
}.

Definition image_size (A : Assets) (i : Image) : Z * Z :=
  match i with
  | Frame k => frame_size A k
  | Rotated k a => rotated_size A k a
  end.

(** ** Wolf *)

Record Wolf := mkWolf {
  image_index : nat;
  animation_counter : Z;
  image : Image;
  rect : Rect;
  velocity : Q;
  is_clicked : bool
}.

Module Wolf.
(** [len(self.images)]: three frames are loaded, or three placeholders. *)
Definition n_images : nat := 3.

Definition __init__ (A : Assets) (x y : Z) : Wolf :=
  mkWolf 0 0 (Frame 0) (Rect.of_size_center (frame_size A 0%nat) (x, y))
         0 false.

Definition _apply_physics (w : Wolf) : Wolf :=
  let v := float_add (velocity w) Config.GRAVITY in
  let v := py_min v Config.MAX_FALL_SPEED in
  let r :=
    if Rect.bottom (rect w) <? Config.SCREEN_HEIGHT - Config.GROUND_HEIGHT
    then Rect.set_y (rect w) (rect_y (rect w) + py_int v)
    else rect w in
  mkWolf (image_index w) (animation_counter w) (image w) r v (is_clicked w).

(** [mouse_pressed] is [pygame.mouse.get_pressed()[0]]. *)
Definition _handle_input (w : Wolf) (mouse_pressed : bool) : Wolf * bool :=
  if mouse_pressed && negb (is_clicked w) then
    (mkWolf (image_index w) (animation_counter w) (image w) (rect w)
            Config.JUMP_STRENGTH true, true)
  else if negb mouse_pressed then
    (mkWolf (image_index w) (animation_counter w) (image w) (rect w)
            (velocity w) false, false)
  else (w, false).

Definition _animate (w : Wolf) : Wolf :=
  let c := animation_counter w + 1 in
  if c >? Config.FLAP_COOLDOWN then
    mkWolf (Nat.modulo (image_index w + 1) n_images) 0 (image w) (rect w)
           (velocity w) (is_clicked w)
  else
    mkWolf (image_index w) c (image w) (rect w) (velocity w) (is_clicked w).

(** Replace the image and re-centre a rect of the new image's size. *)
Definition set_image (A : Assets) (w : Wolf) (i : Image) : Wolf :=
  let old_center := Rect.center (rect w) in
  mkWolf (image_index w) (animation_counter w) i
         (Rect.set_center (Rect.of_size (image_size A i)) old_center)
         (velocity w) (is_clicked w).

Definition _rotate_sprite (A : Assets) (w : Wolf) : Wolf :=
  let angle :=
    py_max ((-90) # 1) (py_min (45 # 1) (float_mul (velocity w) ((-2) # 1))) in
  set_image A w (Rotated (image_index w) angle).

Definition _point_down (A : Assets) (w : Wolf) : Wolf :=
  set_image A w (Rotated (image_index w) ((-90) # 1)).

Definition update (A : Assets) (w : Wolf) (game_state : GameState)
           (mouse_pressed : bool) : Wolf * bool :=
  match game_state with
  | PLAYING =>
      let w := _apply_physics w in
      let (w, jump_occurred) := _handle_input w mouse_pressed in
      let w := _animate w in
      let w := _rotate_sprite A w in
      (w, jump_occurred)
  | GAME_OVER => (_point_down A w, false)
  | MENU => (w, false)
  end.

Definition reset (w : Wolf) (x y : Z) : Wolf :=
  mkWolf 0 0 (image w) (Rect.set_center (rect w) (x, y)) 0 false.
End Wolf.

(** ** Pipe *)

Record Pipe := mkPipe {
  flipped : bool;       (* the image: pipe.png, flipped for a top pipe *)
  pipe_rect : Rect;
  scored : bool
}.

Module Pipe.
Definition __init__ (A : Assets) (x y position : Z) : Pipe :=
  if position =? 1 then
    mkPipe true
           (Rect.of_size_bottomleft (pipe_size A)
                                    (x, y - Z.div Config.PIPE_GAP 2))
           false
  else
    mkPipe false
           (Rect.of_size_topleft (pipe_size A)
                                 (x, y + Z.div Config.PIPE_GAP 2))
           false.

(** The moved pipe, and whether it called [kill()]. *)
Definition update (p : Pipe) : Pipe * bool :=
  let r := Rect.set_x (pipe_rect p) (rect_x (pipe_rect p) - Config.SCROLL_SPEED) in
  (mkPipe (flipped p) r (scored p), Rect.right r <? 0).

Definition set_scored (p : Pipe) : Pipe :=
  mkPipe (flipped p) (pipe_rect p) true.
End Pipe.

(** [Group.update()]: every sprite is updated, in insertion order, and the
    killed ones leave the group. *)
Fixpoint Group_update (ps : list Pipe) : list Pipe :=
  match ps with
  | [] => []
  | p :: rest =>
      let (p', killed) := Pipe.update p in
      if killed then Group_update rest else p' :: Group_update rest
  end.

Definition collide_mask (A : Assets) (w : Wolf) (p : Pipe) : bool :=
  mask_overlap A (image w) (rect w) (flipped p) (pipe_rect p).

(** ** Button *)

Record Button := mkButton { button_rect : Rect; is_pressed : bool }.

Module Button.
Definition __init__ (x y : Z) (image_size : Z * Z) : Button :=
  mkButton (Rect.of_size_topleft image_size (x, y)) false.

Definition update (b : Button) (mouse_pos : Z * Z) (mouse_pressed : bool)
  : Button * bool :=
  if Rect.collidepoint (button_rect b) mouse_pos then
    if mouse_pressed && negb (is_pressed b) then
      (mkButton (button_rect b) true, true)
    else if negb mouse_pressed then
      (mkButton (button_rect b) false, false)
    else (b, false)
  else (b, false).
End Button.

(** ** AudioManager

    Only the two flags are program state; playing a sound effect changes
    nothing the program can observe. *)

Record AudioManager := mkAudio { music_playing : bool; music_paused : bool }.

Module AudioManager.
Definition __init__ : AudioManager := mkAudio false false.

(** [pygame.mixer.music.play] raises [pygame.error] when no music was
    loaded; the handler passes, leaving the flags as they were. *)
Definition start_music (A : Assets) (a : AudioManager) : AudioManager :=
  if negb (music_playing a) && negb (music_paused a) then
    if music_loaded A then mkAudio true (music_paused a) else a
  else if music_paused a then mkAudio (music_playing a) false
  else a.

Definition stop_music_with_effect (a : AudioManager) : AudioManager :=
  if music_playing a then mkAudio false false else a.

Definition pause_music (a : AudioManager) : AudioManager :=
  if music_playing a then mkAudio (music_playing a) true else a.
End AudioManager.

(** ** Game *)

Inductive Event := QUIT | MOUSEBUTTONDOWN | OTHER_EVENT.

(** What one pass of the main loop reads from outside. *)
Record Input := mkInput {
  events : list Event;       (* pygame.event.get() *)
  event_ticks : Z;           (* get_ticks() as read in handle_events *)
  mouse_pressed : bool;      (* pygame.mouse.get_pressed()[0] *)
  mouse_pos : Z * Z;         (* pygame.mouse.get_pos() *)
  ticks : Z;                 (* get_ticks() as read in _generate_pipes *)
  entropy : Z                (* state of the random generator *)
}.

Record Game := mkGame {
  audio_manager : AudioManager;
  state : GameState;
  score : Z;
  ground_scroll : Z;
  last_pipe_time : Z;
  pipe_group : list Pipe;
  wolf : Wolf;
  restart_button : Button;
  pipe_passed : bool
}.

(** [min(group, key=lambda p: p.rect.centerx)] walks the group in insertion
    order and keeps the first pipe of least key; the position is kept too,
    since the program then writes to that very object. *)
Fixpoint min_from (best : nat * Pipe) (i : nat) (ps : list Pipe) : nat * Pipe :=
  match ps with
  | [] => best
  | p :: rest =>
      if Rect.centerx (pipe_rect p) <? Rect.centerx (pipe_rect (snd best))
      then min_from (i, p) (S i) rest
      else min_from best (S i) rest
  end.

Definition min_centerx (ps : list Pipe) : option (nat * Pipe) :=
  match ps with
  | [] => None
  | p :: rest => Some (min_from (0%nat, p) 1%nat rest)
  end.

Fixpoint set_scored_at (i : nat) (ps : list Pipe) : list Pipe :=
  match ps, i with
  | [], _ => []
  | p :: rest, O => Pipe.set_scored p :: rest
  | p :: rest, S j => p :: set_scored_at j rest
  end.

Definition mark_pair (cx : Z) (ps : list Pipe) : list Pipe :=
  map (fun p => if Z.abs (Rect.centerx (pipe_rect p) - cx) <? 10
                then Pipe.set_scored p else p) ps.

Module Game.
Definition __init__ (A : Assets) : Game :=
  mkGame AudioManager.__init__ MENU 0 0 0 []
         (Wolf.__init__ A 100 (Z.div Config.SCREEN_HEIGHT 2))
         (Button.__init__ (Z.div Config.SCREEN_WIDTH 2 - 50)
                          (Z.div Config.SCREEN_HEIGHT 2 - 100)
                          (restart_size A))
         false.

Definition set_state (g : Game) (s : GameState) : Game :=
  mkGame (audio_manager g) s (score g) (ground_scroll g) (last_pipe_time g)
         (pipe_group g) (wolf g) (restart_button g) (pipe_passed g).

Definition set_audio (g : Game) (a : AudioManager) : Game :=
  mkGame a (state g) (score g) (ground_scroll g) (last_pipe_time g)
         (pipe_group g) (wolf g) (restart_button g) (pipe_passed g).

(** The loop over the event queue; the flag is the method's return value. *)
Fixpoint handle_events (A : Assets) (g : Game) (evs : list Event) (now : Z)
  : Game * bool :=
  match evs with
  | [] => (g, true)
  | QUIT :: _ => (g, false)
  | MOUSEBUTTONDOWN :: rest =>
      match state g with
      | MENU =>
          let g1 :=
            mkGame (AudioManager.start_music A (audio_manager g)) PLAYING
                   (score g) (ground_scroll g) (now - Config.PIPE_FREQUENCY)
                   (pipe_group g) (wolf g) (restart_button g) (pipe_passed g) in
          handle_events A g1 rest now
      | _ => handle_events A g rest now
      end
  | OTHER_EVENT :: rest => handle_events A g rest now
  end.

Definition _generate_pipes (A : Assets) (g : Game) (current_time rnd : Z) : Game :=
  if current_time - last_pipe_time g >? Config.PIPE_FREQUENCY then
    let pipe_height := randint (-100) 100 rnd in
    let pipe_center_y := Z.div Config.SCREEN_HEIGHT 2 + pipe_height in
    let top_pipe := Pipe.__init__ A Config.SCREEN_WIDTH pipe_center_y 1 in
    let bottom_pipe := Pipe.__init__ A Config.SCREEN_WIDTH pipe_center_y (-1) in
    mkGame (audio_manager g) (state g) (score g) (ground_scroll g) current_time
           (pipe_group g ++ [top_pipe; bottom_pipe])
           (wolf g) (restart_button g) (pipe_passed g)
  else g.

Definition _update_ground_scroll (g : Game) : Game :=
  let s := ground_scroll g - Config.SCROLL_SPEED in
  mkGame (audio_manager g) (state g) (score g)
         (if Z.abs s >? 35 then 0 else s)
         (last_pipe_time g) (pipe_group g) (wolf g) (restart_button g)
         (pipe_passed g).

(** The two statements both branches of [_check_collisions] execute. *)
Definition game_over (g : Game) : Game :=
  set_audio (set_state g GAME_OVER)
            (AudioManager.stop_music_with_effect (audio_manager g)).

Definition out_of_bounds (w : Wolf) : bool :=
  (Rect.top (rect w) <? 0) ||
  (Rect.bottom (rect w) >=? Config.SCREEN_HEIGHT - Config.GROUND_HEIGHT).

(** The loop returns at the first pipe that collides; which one it is does
    not matter to the state it leaves. *)
Definition _check_collisions (A : Assets) (g : Game) : Game :=
  if existsb (collide_mask A (wolf g)) (pipe_group g) then game_over g
  else if out_of_bounds (wolf g) then game_over g
  else g.

Definition _update_score (g : Game) : Game :=
  match min_centerx (pipe_group g) with
  | None => g
  | Some (i, first_pipe) =>
      let wolf_x := Rect.centerx (rect (wolf g)) in
      let passed :=
        if (Rect.left (pipe_rect first_pipe) <? wolf_x) &&
           (wolf_x <? Rect.right (pipe_rect first_pipe)) &&
           negb (pipe_passed g)
        then true else pipe_passed g in
      if passed && (wolf_x >? Rect.right (pipe_rect first_pipe)) then
        if negb (scored first_pipe) then
          mkGame (audio_manager g) (state g) (score g + 1) (ground_scroll g)
                 (last_pipe_time g)
                 (mark_pair (Rect.centerx (pipe_rect first_pipe))
                            (set_scored_at i (pipe_group g)))
                 (wolf g) (restart_button g) false
        else
          mkGame (audio_manager g) (state g) (score g) (ground_scroll g)
                 (last_pipe_time g) (pipe_group g) (wolf g) (restart_button g)
                 false
      else
        mkGame (audio_manager g) (state g) (score g) (ground_scroll g)
               (last_pipe_time g) (pipe_group g) (wolf g) (restart_button g)
               passed
  end.

Definition _reset_game (g : Game) : Game :=
  mkGame (mkAudio false false) MENU 0 0 (last_pipe_time g) []
         (Wolf.reset (wolf g) 100 (Z.div Config.SCREEN_HEIGHT 2))
         (restart_button g) false.

Definition set_wolf (g : Game) (w : Wolf) : Game :=
  mkGame (audio_manager g) (state g) (score g) (ground_scroll g)
         (last_pipe_time g) (pipe_group g) w (restart_button g) (pipe_passed g).

Definition set_pipe_group (g : Game) (ps : list Pipe) : Game :=
  mkGame (audio_manager g) (state g) (score g) (ground_scroll g)
         (last_pipe_time g) ps (wolf g) (restart_button g) (pipe_passed g).

Definition set_restart_button (g : Game) (b : Button) : Game :=
  mkGame (audio_manager g) (state g) (score g) (ground_scroll g)
         (last_pipe_time g) (pipe_group g) (wolf g) b (pipe_passed g).

(** The game right after the MENU to PLAYING assignment. *)
Definition started (A : Assets) (g : Game) (now : Z) : Game :=
  mkGame (AudioManager.start_music A (audio_manager g)) PLAYING
         (score g) (ground_scroll g) (now - Config.PIPE_FREQUENCY)
         (pipe_group g) (wolf g) (restart_button g) (pipe_passed g).

(** The state of the game when the collision check of a playing tick is
    reached: the wolf and the pipes have moved, a due pair was added. *)
Definition before_collisions (A : Assets) (g : Game) (i : Input) : Game :=
  let (w, jump_occurred) := Wolf.update A (wolf g) (state g) (mouse_pressed i) in
  let g := set_wolf g w in
  let g := set_pipe_group g (Group_update (pipe_group g)) in
  let g := _generate_pipes A g (ticks i) (entropy i) in
  _update_ground_scroll g.

Definition _update_playing (A : Assets) (g : Game) (i : Input) : Game :=
  let g := before_collisions A g i in
  let g := _check_collisions A g in
  _update_score g.

Definition _update_game_over (A : Assets) (g : Game) (i : Input) : Game :=
  let (w, _) := Wolf.update A (wolf g) (state g) (mouse_pressed i) in
  let g := set_wolf g w in
  let (b, clicked) :=
    Button.update (restart_button g) (mouse_pos i) (mouse_pressed i) in
  let g := set_restart_button g b in
  if clicked then _reset_game g else g.

Definition update (A : Assets) (g : Game) (i : Input) : Game :=
  match state g with
  | PLAYING => _update_playing A g i
  | GAME_OVER => _update_game_over A g i
  | MENU => g
  end.

(** One pass of the loop of [run]: events, then update (drawing reads the
    state and changes none of it).  The flag is [running]. *)
Definition tick (A : Assets) (g : Game) (i : Input) : Game * bool :=
  let (g, running) := handle_events A g (events i) (event_ticks i) in
  (update A g i, running).

(** [run] over a finite supply of inputs: the loop stops after the pass in
    which [handle_events] saw QUIT. *)
Fixpoint run_from (A : Assets) (g : Game) (inputs : list Input) : Game :=
  match inputs with
  | [] => g
  | i :: rest =>
      let (g', running) := tick A g i in
      if running then run_from A g' rest else g'
  end.

Definition run (A : Assets) (inputs : list Input) : Game :=
  run_from A (__init__ A) inputs.
End Game.


(** ** Sequences of playing ticks of the wolf *)

(** [Wolf.update] in the PLAYING state once per sample of the mouse button;
    the list holds what each call returned. *)
Fixpoint wolf_ticks (A : Assets) (w : Wolf) (presses : list bool)
  : Wolf * list bool :=
  match presses with
  | [] => (w, [])
  | p :: rest =>
      let (w1, jumped) := Wolf.update A w PLAYING p in
      let (w2, js) := wolf_ticks A w1 rest in
      (w2, jumped :: js)
  end.

(** The rising edges of a sampled signal, given the sample before it. *)
Fixpoint rising_edges (prev : bool) (samples : list bool) : list bool :=
  match samples with
  | [] => []
  | p :: rest => (p && negb prev) :: rising_edges p rest
  end.

(** The velocities a session can reach lie between the jump impulse and the
    fall limit. *)
Definition velocity_in_range (w : Wolf) : Prop :=
  (Config.JUMP_STRENGTH <= velocity w)%Q /\
  (velocity w <= Config.MAX_FALL_SPEED)%Q.

(** ** A concrete session

    An instance of the assets for closed examples: 20x20 wolf frames whose
    rotations are padded to 29x29, the 80x400 pipe and 100x50 restart
    placeholders, every image fully opaque (masks overlap exactly when the
    rects do), music loaded. *)

Definition rects_overlap (a b : Rect) : bool :=
  (Rect.left a <? Rect.right b) && (Rect.left b <? Rect.right a) &&
  (Rect.top a <? Rect.bottom b) && (Rect.top b <? Rect.bottom a).

Definition demo_assets : Assets :=
  mkAssets (fun _ => (20, 20)) (fun _ _ => (29, 29)) (80, 400) (100, 50)
           (fun _ wr _ pr => rects_overlap wr pr) true.

(** One pass of the loop at clock reading [t], the pointer away from the
    restart button, the generator in a state that yields offset -40. *)
Definition demo_input (evs : list Event) (pressed : bool) (t : Z) : Input :=
  mkInput evs t pressed (0, 0) t 60.

(** [n] passes numbered from [k], one every [dt] ms from [t] on, the button
    down exactly in the passes listed in [presses]. *)
Fixpoint demo_passes (n k : nat) (t dt : Z) (presses : list nat) : list Input :=
  match n with
  | O => []
  | S n' =>
      demo_input [] (existsb (Nat.eqb k) presses) t
        :: demo_passes n' (S k) (t + dt) dt presses
  end.

(** A session: the click that starts the game at clock reading 1000, then
    [n] passes 16 ms apart with the button pressed in the listed ones. *)
Definition demo_session (presses : list nat) (n : nat) : list Input :=
  demo_input [MOUSEBUTTONDOWN] true 1000
    :: demo_passes n 1 1016 16 presses.

Definition demo_playing : Game := Game.run demo_assets (demo_session [] 0).

(** The wolf is left to fall: the run ends on the ground. *)
Definition demo_game_over : Game := Game.run demo_assets (demo_session [] 80).

(** The pointer pressed on the restart button. *)
Definition demo_restart_click : Input := mkInput [] 3000 true (400, 380) 3000 60.

(** The two triggers of [_check_collisions]: a screen bound, or a pipe whose
    mask overlaps the wolf's. *)
Definition collides (A : Assets) (g : Game) : Prop :=
  Rect.top (rect (wolf g)) < 0 \/
  Rect.bottom (rect (wolf g)) >= Config.SCREEN_HEIGHT - Config.GROUND_HEIGHT \/
  exists p, In p (pipe_group g) /\ collide_mask A (wolf g) p = true.

(** Whether [_update_score] adds a point: the shared flag is set, the wolf's
    centre is right of the first pipe's right edge, and that pipe is not
    yet marked.  (The first test of the method cannot set the flag in a
    tick in which the second one passes: the wolf is not both left and
    right of the same edge.) *)
Definition scores_now (g : Game) : bool :=
  match min_centerx (pipe_group g) with
  | None => false
  | Some (_, first_pipe) =>
      pipe_passed g
      && (Rect.centerx (rect (wolf g)) >? Rect.right (pipe_rect first_pipe))
      && negb (scored first_pipe)
  end.

(** Playing on: [update] once per input. *)
Definition play (A : Assets) (g : Game) (inputs : list Input) : Game :=
  fold_left (Game.update A) inputs g.

(** A session that ends in a pipe: as [demo_session] with a jump every 39
    passes, and one more press in pass 212. *)
Definition demo_crash_presses : list nat := [39; 78; 117; 156; 195; 212]%nat.
Definition demo_before_crash : Game :=
  Game.run demo_assets (demo_session demo_crash_presses 212).
Definition demo_crash_input : Input := demo_input [] false 4408.

(** A session with two slow passes: the clock jumps by 1501 ms between the
    second and the third pass, then runs at 16 ms a pass again. *)
Definition demo_lag_session (n : nat) : list Input :=
  demo_input [MOUSEBUTTONDOWN] true 1000
    :: demo_input [] false 1016
    :: demo_input [] false 2517
    :: demo_passes n 2 2533 16 [39; 78; 117; 156; 195; 234; 273]%nat.

(** ** Following one pipe *)

(** The key of [min]: the x of a pipe's centre. *)
Notation "'cx' p" := (Rect.centerx (pipe_rect p)) (at level 10, p at level 9).

(** A pipe after [n] updates that did not kill it. *)
Definition moved (p : Pipe) (n : Z) : Pipe :=
  mkPipe (flipped p)
         (Rect.set_x (pipe_rect p) (rect_x (pipe_rect p) - Config.SCROLL_SPEED * n))
         (scored p).

(** What holds of the pipes and the wolf in every state a session reaches:
    the wolf's centre stays on x = 100, every pipe has the width of the pipe
    image and is not right of the spawn position. *)
Definition rect_ok (A : Assets) (r : Rect) : Prop :=
  rect_w r = fst (pipe_size A) /\ rect_x r <= Config.SCREEN_WIDTH.

Definition well_formed (A : Assets) (g : Game) : Prop :=
  Rect.centerx (rect (wolf g)) = 100 /\
  Forall (rect_ok A) (map pipe_rect (pipe_group g)).

(** A session that passes its first pair: [demo_session] with a jump every
    39 passes. *)
Definition demo_pass_presses : list nat := [39; 78; 117; 156; 195]%nat.
Definition demo_pass_history : list Input :=
  demo_session demo_pass_presses 210.

(** The passes that follow [demo_pass_history], none with the button down. *)
Definition demo_pass_tick (k : Z) : Input :=
  demo_input [] false (4376 + 16 * k).

Definition demo_first_pipe : Pipe :=
  mkPipe true (mkRect 24 (-47) 80 400) false.

(** ** Vocabulary for the rest of the program *)

Definition is_quit (e : Event) : bool :=
  match e with QUIT => true | _ => false end.

(** A pass whose event queue holds a QUIT. *)
Definition quits (i : Input) : bool := existsb is_quit (events i).

Definition is_playing (s : GameState) : bool :=
  match s with PLAYING => true | _ => false end.

(** [Button.update] once per sample of the pointer and the mouse button;
    the list holds what each call returned. *)
Fixpoint button_ticks (b : Button) (samples : list (Z * Z * bool))
  : Button * list bool :=
  match samples with
  | [] => (b, [])
  | (pos, pressed) :: rest =>
      let (b1, clicked) := Button.update b pos pressed in
      let (b2, cs) := button_ticks b1 rest in
      (b2, clicked :: cs)
  end.

(** The calls a client can make on an [AudioManager], and a sequence of
    them on a fresh one. *)
Inductive AudioCall := Start | Stop | Pause.

Definition audio_call (A : Assets) (a : AudioManager) (c : AudioCall)
  : AudioManager :=
  match c with
  | Start => AudioManager.start_music A a
  | Stop => AudioManager.stop_music_with_effect a
  | Pause => AudioManager.pause_music a
  end.

Definition audio_calls (A : Assets) (cs : list AudioCall) : AudioManager :=
  fold_left (audio_call A) cs AudioManager.__init__.

(** A top pipe and the bottom pipe made with it. *)
Definition pair_ok (t b : Pipe) : Prop :=
  flipped t = true /\ flipped b = false /\
  rect_x (pipe_rect t) = rect_x (pipe_rect b) /\
  rect_w (pipe_rect t) = rect_w (pipe_rect b) /\
  Rect.top (pipe_rect b) - Rect.bottom (pipe_rect t) = Config.PIPE_GAP /\
  scored t = scored b.

(** A group made of such pairs, one after the other. *)
Fixpoint paired (ps : list Pipe) : Prop :=
  match ps with
  | [] => True
  | t :: rest =>
      match rest with
      | [] => False
      | b :: rest' => pair_ok t b /\ paired rest'
      end
  end.

Definition on_screen (p : Pipe) : Prop :=
  0 <= Rect.right (pipe_rect p) /\
  Rect.left (pipe_rect p) <= Config.SCREEN_WIDTH.

(** The values the ground scroll takes. *)
Definition scroll_ok (s : Z) : Prop := -32 <= s <= 0 /\ s mod 4 = 0.

(** The animation state [_animate] keeps: the counter and the frame. *)
Definition anim_ok (w : Wolf) : Prop :=
  0 <= animation_counter w <= Config.FLAP_COOLDOWN /\
  (image_index w < Wolf.n_images)%nat.

(** The wolf as [Wolf.reset] and [Wolf.__init__] leave it, up to its image. *)
Definition at_rest (w : Wolf) : Prop :=
  velocity w = 0%Q /\ is_clicked w = false /\
  image_index w = 0%nat /\ animation_counter w = 0 /\
  Rect.center (rect w) = (100, Config.SCREEN_HEIGHT / 2).

(** No screen bound crossed and no pipe touched. *)
Definition safe (A : Assets) (g : Game) : Prop :=
  0 <= Rect.top (rect (wolf g)) /\
  Rect.bottom (rect (wolf g)) < Config.SCREEN_HEIGHT - Config.GROUND_HEIGHT /\
  forall p, In p (pipe_group g) -> collide_mask A (wolf g) p = false.

(** The music flags as the game keeps them: never paused, playing exactly
    while the state is PLAYING when a music file was loaded. *)
Definition music_ok (A : Assets) (g : Game) : Prop :=
  music_paused (audio_manager g) = false /\
  music_playing (audio_manager g) = is_playing (state g) && music_loaded A.

(** What the MENU state comes with. *)
Definition menu_ok (g : Game) : Prop :=
  state g = MENU ->
  score g = 0 /\ pipe_group g = [] /\ pipe_passed g = false /\
  ground_scroll g = 0 /\ at_rest (wolf g).

(** The wolf's rect has the size of its image. *)
Definition fits_image (A : Assets) (w : Wolf) : Prop :=
  (rect_w (rect w), rect_h (rect w)) = image_size A (image w).

(** What [_animate] does to the counter and the frame index. *)
Definition anim_step (s : Z * nat) : Z * nat :=
  if fst s + 1 >? Config.FLAP_COOLDOWN
  then (0, Nat.modulo (snd s + 1) Wolf.n_images)
  else (fst s + 1, snd s).

Definition anim_state (w : Wolf) : Z * nat :=
  (animation_counter w, image_index w).

(** A list of integers that never goes down. *)
Fixpoint ascending (xs : list Z) : Prop :=
  match xs with
  | [] => True
  | x :: rest => Forall (Z.le x) rest /\ ascending rest
  end.

Definition lefts (ps : list Pipe) : list Z :=
  map (fun p => Rect.left (pipe_rect p)) ps.

(** The shared scoring flag, read against the head of the group: set only
    while the wolf's centre (x = 100) is past the head pipe's left edge and
    not yet past its right edge, and always set while it is strictly
    between the two. *)
Definition flag_ok (g : Game) : Prop :=
  (pipe_passed g = true ->
   exists p rest,
     pipe_group g = p :: rest /\
     Rect.left (pipe_rect p) < 100 <= Rect.right (pipe_rect p)) /\
  (forall p rest,
      pipe_group g = p :: rest ->
      Rect.left (pipe_rect p) < 100 < Rect.right (pipe_rect p) ->
      pipe_passed g = true).

(** ** Pairs that keep their distance *)

(** The two pipes of a pair share their left edge.  [_update_score] reads
    one pipe at a time, the leftmost of the group, and a pipe stays in the
    group until its right edge is left of 0; for the pair behind it to be
    read while the wolf's centre (x = 100) is still between its edges, it
    has to follow more than 100 + SCROLL_SPEED px behind.  A group is
    [spaced] when any two of its pipes are level or more than 104 px
    apart. *)
Definition spaced (ps : list Pipe) : Prop :=
  forall p q, In p ps -> In q ps ->
    Rect.left (pipe_rect p) = Rect.left (pipe_rect q) \/
    104 < Z.abs (Rect.left (pipe_rect p) - Rect.left (pipe_rect q)).

Definition spacedb (ps : list Pipe) : bool :=
  forallb
    (fun p =>
       forallb
         (fun q =>
            (Rect.left (pipe_rect p) =? Rect.left (pipe_rect q))
            || (104 <? Z.abs (Rect.left (pipe_rect p)
                              - Rect.left (pipe_rect q))))
         ps)
    ps.

(** No pipe is marked while its right edge is still at or right of the
    wolf's centre. *)
Definition unscored_ahead (g : Game) : Prop :=
  forall p, In p (pipe_group g) -> scored p = true ->
            Rect.right (pipe_rect p) < 100.

(** The readings [pygame.time.get_ticks()] gives [_generate_pipes] in
    consecutive passes are at most 57 ms apart; [t] is the reading of the
    pass before the first of the list. *)
Fixpoint paced_from (t : Z) (inputs : list Input) : Prop :=
  match inputs with
  | [] => True
  | i :: rest => ticks i - t <= 57 /\ paced_from (ticks i) rest
  end.

Definition paced (inputs : list Input) : Prop :=
  match inputs with
  | [] => True
  | i :: rest => paced_from (ticks i) rest
  end.

(** What pacing keeps true of a game whose last pass read [t] on the clock:
    the group is spaced, no pipe is right of the spawn position, there is
    no pipe in MENU, and while PLAYING every pipe has moved 4 px for each
    57 ms, at least, that have passed since the last spawn. *)
Definition spawn_clock_ok (t : Z) (g : Game) : Prop :=
  spaced (pipe_group g) /\
  (forall p, In p (pipe_group g) ->
             Rect.left (pipe_rect p) <= Config.SCREEN_WIDTH) /\
  (state g = MENU -> pipe_group g = []) /\
  (state g = PLAYING ->
   forall p, In p (pipe_group g) ->
             4 * (t - last_pipe_time g)
             <= 57 * (Config.SCREEN_WIDTH - Rect.left (pipe_rect p))).

(** A session that passes two pairs: as [demo_session], the presses timed
    so that the wolf is in the gap of the second pair too. *)
Definition demo_two_presses : list nat :=
  [39; 78; 117; 156; 195; 235; 275; 315]%nat.
Definition demo_two_session : list Input := demo_session demo_two_presses 320.

(** The bottom pipe of the second pair after pass 288 of that session. *)
Definition demo_second_pipe : Pipe :=
  mkPipe false (mkRect 96 503 80 400) false.

(** The same presses with the passes 58 ms apart: a pair is due every 26
    passes, 104 px behind the one before. *)
Definition demo_slow_session (n : nat) : list Input :=
  demo_input [MOUSEBUTTONDOWN] true 1000
    :: demo_passes n 1 1058 58 demo_two_presses.


(** * Properties *)

(** ** Numbers *)

Lemma py_int_nonneg (v : Q) : (0 <= v)%Q -> py_int v = Qfloor v.
Proof.
  destruct v as [n d]. unfold Qle, py_int, Qfloor. simpl. intros H.
  apply Z.quot_div_nonneg; lia.
Qed.

Lemma py_int_nonpos (v : Q) : (v <= 0)%Q -> py_int v = Qceiling v.
Proof.
  destruct v as [n d]. unfold Qle, py_int, Qceiling, Qfloor. simpl. intros H.
  replace n with (- - n) at 1 by lia.
  rewrite Z.quot_opp_l by lia.
  rewrite Z.quot_div_nonneg by lia. reflexivity.
Qed.

(** [int()] rounds towards zero: down for a fall, up for a climb. *)
Lemma py_int_truncates (v : Q) :
  py_int v = if Qle_bool 0 v then Qfloor v else Qceiling v.
Proof.
  destruct (Qle_bool 0 v) eqn:E.
  - apply py_int_nonneg. apply Qle_bool_iff. exact E.
  - apply py_int_nonpos. apply Qlt_le_weak. apply Qnot_le_lt.
    intros H. apply Qle_bool_iff in H. congruence.
Qed.

Lemma float_add_eq (a b : Q) : (float_add a b == a + b)%Q.
Proof. unfold float_add. apply Qred_correct. Qed.

Lemma randint_range (a b e : Z) : a <= b -> a <= randint a b e <= b.
Proof.
  intros H. unfold randint.
  pose proof (Z.mod_pos_bound e (b - a + 1)). lia.
Qed.

(** ** Wolf *)

Lemma apply_physics_velocity (w : Wolf) :
  velocity (Wolf._apply_physics w) =
  py_min (float_add (velocity w) Config.GRAVITY) Config.MAX_FALL_SPEED.
Proof. reflexivity. Qed.

Lemma apply_physics_clamped (w : Wolf) :
  (velocity (Wolf._apply_physics w) <= Config.MAX_FALL_SPEED)%Q.
Proof. rewrite apply_physics_velocity. apply Q.le_min_r. Qed.

Lemma apply_physics_lower (w : Wolf) :
  (Config.JUMP_STRENGTH <= velocity w)%Q ->
  (Config.JUMP_STRENGTH <= velocity (Wolf._apply_physics w))%Q.
Proof.
  intros H. rewrite apply_physics_velocity. apply Q.min_glb.
  - rewrite float_add_eq. unfold Config.GRAVITY.
    apply Qle_trans with (velocity w + 0)%Q.
    + rewrite Qplus_0_r. exact H.
    + apply Qplus_le_compat; [apply Qle_refl | discriminate].
  - discriminate.
Qed.

Lemma handle_input_jumped (w : Wolf) (p : bool) :
  snd (Wolf._handle_input w p) = p && negb (is_clicked w).
Proof.
  unfold Wolf._handle_input. destruct p, (is_clicked w); reflexivity.
Qed.

Lemma handle_input_clicked (w : Wolf) (p : bool) :
  is_clicked (fst (Wolf._handle_input w p)) = p.
Proof.
  unfold Wolf._handle_input. destruct p, (is_clicked w) eqn:E; simpl; auto.
Qed.

Lemma handle_input_velocity (w : Wolf) (p : bool) :
  velocity (fst (Wolf._handle_input w p)) =
  if p && negb (is_clicked w) then Config.JUMP_STRENGTH else velocity w.
Proof.
  unfold Wolf._handle_input. destruct p, (is_clicked w); reflexivity.
Qed.

Lemma handle_input_rect (w : Wolf) (p : bool) :
  rect (fst (Wolf._handle_input w p)) = rect w.
Proof.
  unfold Wolf._handle_input. destruct p, (is_clicked w); reflexivity.
Qed.

Lemma animate_keeps (w : Wolf) :
  velocity (Wolf._animate w) = velocity w /\
  is_clicked (Wolf._animate w) = is_clicked w /\
  rect (Wolf._animate w) = rect w.
Proof.
  unfold Wolf._animate.
  destruct (animation_counter w + 1 >? Config.FLAP_COOLDOWN); auto.
Qed.

Lemma set_image_keeps (A : Assets) (w : Wolf) (i : Image) :
  velocity (Wolf.set_image A w i) = velocity w /\
  is_clicked (Wolf.set_image A w i) = is_clicked w /\
  Rect.center (rect (Wolf.set_image A w i)) = Rect.center (rect w).
Proof.
  unfold Wolf.set_image, Rect.center, Rect.centerx, Rect.centery. simpl.
  repeat split. f_equal; lia.
Qed.

(** What a playing update leaves in the wolf, in terms of its two steps
    that matter for the motion. *)
Lemma update_playing_fields (A : Assets) (w : Wolf) (p : bool) :
  let wp := Wolf._apply_physics w in
  let w' := fst (Wolf.update A w PLAYING p) in
  snd (Wolf.update A w PLAYING p) = p && negb (is_clicked w) /\
  is_clicked w' = p /\
  velocity w' = (if p && negb (is_clicked w) then Config.JUMP_STRENGTH
                 else velocity wp) /\
  Rect.center (rect w') = Rect.center (rect wp).
Proof.
  cbv zeta. unfold Wolf.update.
  pose proof (handle_input_jumped (Wolf._apply_physics w) p) as Hj.
  pose proof (handle_input_clicked (Wolf._apply_physics w) p) as Hc.
  pose proof (handle_input_velocity (Wolf._apply_physics w) p) as Hv.
  pose proof (handle_input_rect (Wolf._apply_physics w) p) as Hr.
  destruct (Wolf._handle_input (Wolf._apply_physics w) p) as [w1 j].
  cbn [fst snd] in *. unfold Wolf._rotate_sprite.
  destruct (set_image_keeps A (Wolf._animate w1)
              (Rotated (image_index (Wolf._animate w1))
                 (py_max (-90 # 1)
                    (py_min (45 # 1)
                       (float_mul (velocity (Wolf._animate w1)) (-2 # 1))))))
    as (Sv & Sc & Sr).
  destruct (animate_keeps w1) as (Av & Ac & Ar).
  repeat split.
  - exact Hj.
  - rewrite Sc, Ac. exact Hc.
  - rewrite Sv, Av. exact Hv.
  - rewrite Sr, Ar, Hr. reflexivity.
Qed.

(** C3, as the code has it: the physics step adds [int(velocity)] to y, the
    post-gravity, clamped velocity rounded TOWARDS ZERO (its floor while
    falling, its ceiling while climbing), provided the bottom edge is
    strictly above the ground line; otherwise y is left as it was.  The
    rect's x and size are never touched. *)
Theorem C3_apply_physics_truncates (w : Wolf) :
  let w' := Wolf._apply_physics w in
  let v' := py_min (float_add (velocity w) Config.GRAVITY)
                   Config.MAX_FALL_SPEED in
  velocity w' = v' /\
  rect_y (rect w') =
    (if Rect.bottom (rect w) <? Config.SCREEN_HEIGHT - Config.GROUND_HEIGHT
     then rect_y (rect w) + (if Qle_bool 0 v' then Qfloor v' else Qceiling v')
     else rect_y (rect w)) /\
  rect_x (rect w') = rect_x (rect w) /\
  rect_w (rect w') = rect_w (rect w) /\
  rect_h (rect w') = rect_h (rect w).
Proof.
  cbv zeta. split; [reflexivity|].
  rewrite <- py_int_truncates. unfold Wolf._apply_physics. cbn [rect].
  destruct (Rect.bottom (rect w) <? Config.SCREEN_HEIGHT - Config.GROUND_HEIGHT);
    repeat split; reflexivity.
Qed.

(** C3 as stated fails: one tick after a jump the velocity is -9.5, the
    wolf is far above the ground, and y changes by -9, not by
    floor(-9.5) = -10. *)
Lemma C3_floor_counterexample :
  let w := fst (Wolf.update demo_assets (Wolf.__init__ demo_assets 100 468)
                            PLAYING true) in
  let w' := Wolf._apply_physics w in
  velocity w = Config.JUMP_STRENGTH /\
  Rect.bottom (rect w) < Config.SCREEN_HEIGHT - Config.GROUND_HEIGHT /\
  velocity w' = (-19 # 2)%Q /\
  Qfloor (velocity w') = -10 /\
  rect_y (rect w') = rect_y (rect w) - 9 /\
  rect_y (rect w') <> rect_y (rect w) + Qfloor (velocity w').
Proof. vm_compute. repeat split; congruence. Qed.

Lemma wolf_ticks_jumps (A : Assets) (presses : list bool) :
  forall w, snd (wolf_ticks A w presses) = rising_edges (is_clicked w) presses.
Proof.
  induction presses as [|p rest IH]; intros w; [reflexivity|].
  cbn [wolf_ticks rising_edges].
  destruct (update_playing_fields A w p) as (Hj & Hc & _).
  destruct (Wolf.update A w PLAYING p) as [w1 j]. cbn [fst snd] in *.
  specialize (IH w1). destruct (wolf_ticks A w1 rest) as [w2 js].
  cbn [snd] in *. rewrite Hj, IH, Hc. reflexivity.
Qed.

Lemma rising_edges_held (n : nat) :
  rising_edges true (repeat true n) = repeat false n.
Proof. induction n; simpl; congruence. Qed.

(** C5: in a playing update the wolf jumps exactly when the button is down
    and was not down at the previous update: the velocity becomes the jump
    impulse and the update returns True; otherwise the velocity is the one
    the physics step left and the update returns False.  The flag the wolf
    keeps is the previous sample, so over any sequence of playing ticks the
    jumps are the rising edges of the button, and a press held for any
    number of ticks after a released tick gives one jump, on its first
    tick. *)
Theorem C5_jump_edge_detection
  (A : Assets) (w : Wolf) (p q : bool) (presses : list bool) (n : nat) :
  let r := Wolf.update A w PLAYING p in
  snd r = p && negb (is_clicked w) /\
  is_clicked (fst r) = p /\
  velocity (fst r) = (if p && negb (is_clicked w) then Config.JUMP_STRENGTH
                      else velocity (Wolf._apply_physics w)) /\
  snd (Wolf.update A (fst r) PLAYING q) = q && negb p /\
  velocity (fst (Wolf.update A (fst r) PLAYING q)) =
    (if q && negb p then Config.JUMP_STRENGTH
     else velocity (Wolf._apply_physics (fst r))) /\
  snd (wolf_ticks A w presses) = rising_edges (is_clicked w) presses /\
  snd (wolf_ticks A (fst (Wolf.update A w PLAYING false)) (repeat true (S n)))
    = true :: repeat false n.
Proof.
  cbv zeta.
  destruct (update_playing_fields A w p) as (Hj & Hc & Hv & _).
  destruct (update_playing_fields A (fst (Wolf.update A w PLAYING p)) q)
    as (Hj2 & _ & Hv2 & _).
  rewrite Hc in Hj2, Hv2.
  repeat split; try assumption.
  - apply wolf_ticks_jumps.
  - rewrite wolf_ticks_jumps.
    destruct (update_playing_fields A w false) as (_ & Hc0 & _).
    rewrite Hc0. cbn [repeat rising_edges]. rewrite rising_edges_held.
    reflexivity.
Qed.

(** ** Game: what each method leaves alone *)

Lemma handle_events_not_menu (A : Assets) (evs : list Event) (now : Z) :
  forall g, state g <> MENU -> fst (Game.handle_events A g evs now) = g.
Proof.
  induction evs as [|e rest IH]; intros g H; [reflexivity|].
  destruct e; cbn [Game.handle_events].
  - reflexivity.
  - destruct (state g) eqn:E; [congruence | |]; apply IH; congruence.
  - apply IH. exact H.
Qed.

Lemma handle_events_menu (A : Assets) (evs : list Event) (now : Z) :
  forall g, state g = MENU ->
    fst (Game.handle_events A g evs now) = g \/
    (In MOUSEBUTTONDOWN evs /\
     fst (Game.handle_events A g evs now) = Game.started A g now).
Proof.
  induction evs as [|e rest IH]; intros g H; [left; reflexivity|].
  destruct e; cbn [Game.handle_events].
  - left; reflexivity.
  - rewrite H. right. split; [left; reflexivity|].
    apply handle_events_not_menu. discriminate.
  - destruct (IH g H) as [E | [I E]]; [left | right]; auto.
    split; [right|]; assumption.
Qed.

Lemma handle_events_wolf (A : Assets) (g : Game) (evs : list Event) (now : Z) :
  wolf (fst (Game.handle_events A g evs now)) = wolf g /\
  pipe_group (fst (Game.handle_events A g evs now)) = pipe_group g /\
  score (fst (Game.handle_events A g evs now)) = score g.
Proof.
  destruct (state g) eqn:E.
  - destruct (handle_events_menu A evs now g E) as [H | [_ H]];
      rewrite H; auto.
  - rewrite handle_events_not_menu by congruence. auto.
  - rewrite handle_events_not_menu by congruence. auto.
Qed.

Lemma update_score_keeps (g : Game) :
  wolf (Game._update_score g) = wolf g /\
  state (Game._update_score g) = state g /\
  last_pipe_time (Game._update_score g) = last_pipe_time g /\
  audio_manager (Game._update_score g) = audio_manager g /\
  ground_scroll (Game._update_score g) = ground_scroll g /\
  restart_button (Game._update_score g) = restart_button g.
Proof.
  unfold Game._update_score.
  destruct (min_centerx (pipe_group g)) as [[i fp]|]; [|auto 10].
  repeat match goal with
         | |- context [if ?c then _ else _] => destruct c
         end; auto 10.
Qed.

Lemma check_collisions_keeps (A : Assets) (g : Game) :
  wolf (Game._check_collisions A g) = wolf g /\
  pipe_group (Game._check_collisions A g) = pipe_group g /\
  score (Game._check_collisions A g) = score g /\
  pipe_passed (Game._check_collisions A g) = pipe_passed g /\
  last_pipe_time (Game._check_collisions A g) = last_pipe_time g.
Proof.
  unfold Game._check_collisions.
  destruct (existsb _ _); [cbn; auto|].
  destruct (Game.out_of_bounds _); cbn; auto.
Qed.

Lemma generate_pipes_keeps (A : Assets) (g : Game) (now e : Z) :
  wolf (Game._generate_pipes A g now e) = wolf g /\
  state (Game._generate_pipes A g now e) = state g /\
  score (Game._generate_pipes A g now e) = score g /\
  pipe_passed (Game._generate_pipes A g now e) = pipe_passed g.
Proof.
  unfold Game._generate_pipes.
  destruct (now - last_pipe_time g >? Config.PIPE_FREQUENCY); cbn; auto.
Qed.

Lemma before_collisions_keeps (A : Assets) (g : Game) (i : Input) :
  wolf (Game.before_collisions A g i) =
    fst (Wolf.update A (wolf g) (state g) (mouse_pressed i)) /\
  state (Game.before_collisions A g i) = state g /\
  score (Game.before_collisions A g i) = score g /\
  pipe_passed (Game.before_collisions A g i) = pipe_passed g.
Proof.
  unfold Game.before_collisions.
  destruct (Wolf.update A (wolf g) (state g) (mouse_pressed i)) as [w j].
  unfold Game._update_ground_scroll. cbn [wolf state score pipe_passed fst].
  match goal with
  | |- context [Game._generate_pipes A ?h ?n ?e] =>
      destruct (generate_pipes_keeps A h n e) as (-> & -> & -> & ->)
  end.
  cbn. auto.
Qed.

Lemma update_playing_wolf (A : Assets) (g : Game) (i : Input) :
  wolf (Game._update_playing A g i) =
  fst (Wolf.update A (wolf g) (state g) (mouse_pressed i)).
Proof.
  unfold Game._update_playing.
  destruct (update_score_keeps
              (Game._check_collisions A (Game.before_collisions A g i)))
    as (-> & _).
  destruct (check_collisions_keeps A (Game.before_collisions A g i))
    as (-> & _).
  apply before_collisions_keeps.
Qed.

(** ** The velocity stays between the jump impulse and the fall limit *)

Lemma wolf_update_in_range (A : Assets) (w : Wolf) (s : GameState) (p : bool) :
  velocity_in_range w -> velocity_in_range (fst (Wolf.update A w s p)).
Proof.
  intros [Hl Hu]. destruct s.
  - split; assumption.
  - destruct (update_playing_fields A w p) as (_ & _ & Hv & _).
    unfold velocity_in_range. rewrite Hv.
    destruct (p && negb (is_clicked w)).
    + split; [apply Qle_refl | discriminate].
    + split; [apply apply_physics_lower; exact Hl | apply apply_physics_clamped].
  - cbn [Wolf.update fst]. unfold Wolf._point_down.
    destruct (set_image_keeps A w (Rotated (image_index w) (-90 # 1)))
      as (Hv & _).
    unfold velocity_in_range. rewrite Hv. split; assumption.
Qed.

Lemma update_in_range (A : Assets) (g : Game) (i : Input) :
  velocity_in_range (wolf g) -> velocity_in_range (wolf (Game.update A g i)).
Proof.
  intros H. unfold Game.update. destruct (state g) eqn:E.
  - exact H.
  - rewrite update_playing_wolf. apply wolf_update_in_range. exact H.
  - unfold Game._update_game_over.
    pose proof (wolf_update_in_range A (wolf g) (state g) (mouse_pressed i) H)
      as Hw.
    destruct (Wolf.update A (wolf g) (state g) (mouse_pressed i)) as [w j].
    cbn [fst] in Hw. cbn [Game.set_wolf restart_button].
    destruct (Button.update (restart_button g) (mouse_pos i) (mouse_pressed i))
      as [b clicked].
    destruct clicked; cbn; [split; discriminate | exact Hw].
Qed.

Lemma run_from_in_range (A : Assets) (inputs : list Input) :
  forall g, velocity_in_range (wolf g) ->
            velocity_in_range (wolf (Game.run_from A g inputs)).
Proof.
  induction inputs as [|i rest IH]; intros g H; [exact H|].
  cbn [Game.run_from]. unfold Game.tick.
  destruct (handle_events_wolf A g (events i) (event_ticks i)) as (Hw & _).
  destruct (Game.handle_events A g (events i) (event_ticks i)) as [g1 running].
  cbn [fst] in Hw.
  assert (velocity_in_range (wolf (Game.update A g1 i))) as H1
      by (apply update_in_range; rewrite Hw; exact H).
  destruct running; [apply IH|]; exact H1.
Qed.

(** C6: the physics step leaves the velocity at most MAX_FALL_SPEED, and
    so does the whole playing update of the wolf; in every state a session
    can reach, the jump impulse is the least velocity there is, so what the
    update leaves is never above what the physics step left. *)
Theorem C6_velocity_clamp
  (A : Assets) (w : Wolf) (p : bool) (inputs : list Input) (i : Input) :
  (velocity (Wolf._apply_physics w) <= Config.MAX_FALL_SPEED)%Q /\
  (velocity (fst (Wolf.update A w PLAYING p)) <= Config.MAX_FALL_SPEED)%Q /\
  let r := wolf (Game.run A inputs) in
  (Config.JUMP_STRENGTH <= velocity r)%Q /\
  (velocity r <= Config.MAX_FALL_SPEED)%Q /\
  (velocity (fst (Wolf.update A r PLAYING p))
   <= velocity (Wolf._apply_physics r))%Q /\
  (velocity (wolf (Game.update A (Game.run A inputs) i))
   <= Config.MAX_FALL_SPEED)%Q.
Proof.
  assert (velocity_in_range (wolf (Game.run A inputs))) as [Hl Hu].
  { apply run_from_in_range. split; discriminate. }
  split; [apply apply_physics_clamped|].
  assert (forall v, (velocity (fst (Wolf.update A v PLAYING p))
                     <= Config.MAX_FALL_SPEED)%Q) as Hup.
  { intros v. destruct (update_playing_fields A v p) as (_ & _ & Hv & _).
    rewrite Hv. destruct (p && negb (is_clicked v));
      [discriminate | apply apply_physics_clamped]. }
  split; [apply Hup|]. cbv zeta.
  repeat split; try assumption.
  - destruct (update_playing_fields A (wolf (Game.run A inputs)) p)
      as (_ & _ & Hv & _).
    rewrite Hv. destruct (p && negb (is_clicked (wolf (Game.run A inputs)))).
    + apply apply_physics_lower. exact Hl.
    + apply Qle_refl.
  - apply update_in_range. split; assumption.
Qed.

(** ** Spawning *)

Lemma generate_pipes_spec (A : Assets) (g : Game) (now e : Z) :
  let center := Config.SCREEN_HEIGHT / 2 + randint (-100) 100 e in
  Game._generate_pipes A g now e =
  if now - last_pipe_time g >? Config.PIPE_FREQUENCY then
    mkGame (audio_manager g) (state g) (score g) (ground_scroll g) now
           (pipe_group g ++ [Pipe.__init__ A Config.SCREEN_WIDTH center 1;
                             Pipe.__init__ A Config.SCREEN_WIDTH center (-1)])
           (wolf g) (restart_button g) (pipe_passed g)
  else g.
Proof. reflexivity. Qed.

Lemma pipe_init_top (A : Assets) (x y : Z) :
  Pipe.__init__ A x y 1 =
  mkPipe true (Rect.of_size_bottomleft (pipe_size A)
                 (x, y - Config.PIPE_GAP / 2)) false.
Proof. reflexivity. Qed.

Lemma pipe_init_bottom (A : Assets) (x y : Z) :
  Pipe.__init__ A x y (-1) =
  mkPipe false (Rect.of_size_topleft (pipe_size A)
                  (x, y + Config.PIPE_GAP / 2)) false.
Proof. reflexivity. Qed.

(** C7: a spawn appends exactly two pipes, a flipped one and a plain one,
    both with their left edge at the right edge of the screen; the centre
    of the pair is the middle of the screen plus an offset of -100..100
    (the value [random.randint] returns, any value of that range being
    possible); the top pipe's bottom edge is at
    centre - gap/2 and the bottom pipe's top edge at centre + gap/2, so the
    opening is PIPE_GAP high. *)
Theorem C7_pair_geometry (A : Assets) (g : Game) (now e : Z) :
  now - last_pipe_time g > Config.PIPE_FREQUENCY ->
  let offset := randint (-100) 100 e in
  let center := Config.SCREEN_HEIGHT / 2 + offset in
  exists top_pipe bottom_pipe,
    pipe_group (Game._generate_pipes A g now e)
      = pipe_group g ++ [top_pipe; bottom_pipe] /\
    -100 <= offset <= 100 /\
    Rect.left (pipe_rect top_pipe) = Config.SCREEN_WIDTH /\
    Rect.left (pipe_rect bottom_pipe) = Config.SCREEN_WIDTH /\
    Rect.bottom (pipe_rect top_pipe) = center - Config.PIPE_GAP / 2 /\
    Rect.top (pipe_rect bottom_pipe) = center + Config.PIPE_GAP / 2 /\
    Rect.top (pipe_rect bottom_pipe) - Rect.bottom (pipe_rect top_pipe)
      = Config.PIPE_GAP /\
    flipped top_pipe = true /\ flipped bottom_pipe = false /\
    scored top_pipe = false /\ scored bottom_pipe = false /\
    (forall o, -100 <= o <= 100 -> exists e', randint (-100) 100 e' = o).
Proof.
  intros H offset center.
  assert (-100 <= offset <= 100) as Hr by (apply randint_range; lia).
  assert (forall o, -100 <= o <= 100 -> exists e', randint (-100) 100 e' = o)
    as Hall.
  { intros o Ho. exists (o + 100). unfold randint.
    rewrite Z.mod_small by lia. lia. }
  exists (Pipe.__init__ A Config.SCREEN_WIDTH center 1),
         (Pipe.__init__ A Config.SCREEN_WIDTH center (-1)).
  split.
  - rewrite generate_pipes_spec. cbv zeta.
    destruct (Z.gtb_spec (now - last_pipe_time g) Config.PIPE_FREQUENCY);
      [reflexivity | lia].
  - rewrite pipe_init_top, pipe_init_bottom.
    clearbody center. clearbody offset.
    unfold Rect.left, Rect.bottom, Rect.top, Rect.of_size_bottomleft,
      Rect.of_size_topleft.
    cbn [pipe_rect flipped scored rect_x rect_y rect_w rect_h fst snd].
    change (Config.PIPE_GAP / 2) with 75. change Config.PIPE_GAP with 150.
    repeat split; try reflexivity; try lia. exact Hall.
Qed.

Lemma C7_pair_geometry_witness :
  1501 - last_pipe_time (Game.__init__ demo_assets) > Config.PIPE_FREQUENCY /\
  exists top_pipe bottom_pipe,
    pipe_group (Game._generate_pipes demo_assets (Game.__init__ demo_assets)
                                     1501 60)
      = pipe_group (Game.__init__ demo_assets) ++ [top_pipe; bottom_pipe].
Proof.
  split; [reflexivity|].
  destruct (C7_pair_geometry demo_assets (Game.__init__ demo_assets) 1501 60
              eq_refl) as (t & b & H & _).
  exists t, b. exact H.
Defined.

(** ** Restart *)

Lemma center_set_center (r : Rect) (c : Z * Z) :
  Rect.center (Rect.set_center r c) = c.
Proof.
  destruct c as [x0 y0].
  unfold Rect.center, Rect.centerx, Rect.centery, Rect.set_center.
  cbn [rect_x rect_y rect_w rect_h fst snd]. f_equal; lia.
Qed.

Lemma initial_wolf_center (A : Assets) :
  Rect.center (rect (wolf (Game.__init__ A)))
  = (100, Config.SCREEN_HEIGHT / 2).
Proof. apply center_set_center. Qed.

Lemma reset_game_spec (g : Game) :
  let g' := Game._reset_game g in
  state g' = MENU /\ score g' = 0 /\ pipe_group g' = [] /\
  Rect.center (rect (wolf g')) = (100, Config.SCREEN_HEIGHT / 2) /\
  velocity (wolf g') = 0%Q /\ is_clicked (wolf g') = false /\
  image_index (wolf g') = 0%nat /\ animation_counter (wolf g') = 0 /\
  ground_scroll g' = 0 /\
  music_playing (audio_manager g') = false /\
  music_paused (audio_manager g') = false /\
  pipe_passed g' = false.
Proof.
  cbv zeta. unfold Game._reset_game, Wolf.reset.
  cbn [state score pipe_group wolf rect velocity is_clicked image_index
       animation_counter ground_scroll audio_manager music_playing
       music_paused pipe_passed].
  rewrite center_set_center. repeat split.
Qed.

(** C8: a press on the restart button in the GAME_OVER state (the pointer
    inside the button, the button held now and not before) leaves the score
    0, no pipe, the wolf centred on its spawn point with velocity 0 and its
    animation and input flag cleared, the ground scroll 0, both music flags
    off, and the state MENU. *)
Theorem C8_restart_postcondition (A : Assets) (g : Game) (i : Input) :
  state g = GAME_OVER ->
  Rect.collidepoint (button_rect (restart_button g)) (mouse_pos i) = true ->
  mouse_pressed i = true ->
  is_pressed (restart_button g) = false ->
  let g' := Game.update A g i in
  state g' = MENU /\ score g' = 0 /\ pipe_group g' = [] /\
  Rect.center (rect (wolf g')) = (100, Config.SCREEN_HEIGHT / 2) /\
  Rect.center (rect (wolf g'))
    = Rect.center (rect (wolf (Game.__init__ A))) /\
  velocity (wolf g') = 0%Q /\
  velocity (wolf g') = velocity (wolf (Game.__init__ A)) /\
  is_clicked (wolf g') = false /\
  image_index (wolf g') = 0%nat /\ animation_counter (wolf g') = 0 /\
  ground_scroll g' = 0 /\
  music_playing (audio_manager g') = false /\
  music_paused (audio_manager g') = false /\
  pipe_passed g' = false.
Proof.
  intros Hs Hin Hp Hb. cbv zeta.
  unfold Game.update. rewrite Hs. unfold Game._update_game_over.
  destruct (Wolf.update A (wolf g) (state g) (mouse_pressed i)) as [w j].
  cbn [Game.set_wolf restart_button].
  unfold Button.update. rewrite Hin, Hp, Hb. cbn [andb negb].
  cbv beta iota. rewrite initial_wolf_center.
  match goal with
  | |- context [Game._reset_game ?h] =>
      destruct (reset_game_spec h)
        as (H1 & H2 & H3 & H4 & H5 & H6 & H7 & H8 & H9 & H10 & H11 & H12)
  end.
  repeat split; assumption.
Qed.

Lemma C8_restart_postcondition_witness :
  state demo_game_over = GAME_OVER /\
  length (pipe_group demo_game_over) = 2%nat /\
  state (Game.update demo_assets demo_game_over demo_restart_click) = MENU /\
  pipe_group (Game.update demo_assets demo_game_over demo_restart_click) = [].
Proof.
  split; [reflexivity|]. split; [reflexivity|].
  destruct (C8_restart_postcondition demo_assets demo_game_over
              demo_restart_click eq_refl eq_refl eq_refl eq_refl)
    as (H1 & _ & H3 & _).
  split; assumption.
Defined.

(** ** Collisions *)

Lemma out_of_bounds_iff (w : Wolf) :
  Game.out_of_bounds w = true <->
  Rect.top (rect w) < 0 \/
  Rect.bottom (rect w) >= Config.SCREEN_HEIGHT - Config.GROUND_HEIGHT.
Proof.
  unfold Game.out_of_bounds. rewrite orb_true_iff, Z.ltb_lt, Z.geb_le. lia.
Qed.

Lemma check_collisions_state (A : Assets) (g : Game) :
  state (Game._check_collisions A g) =
  if existsb (collide_mask A (wolf g)) (pipe_group g)
     || Game.out_of_bounds (wolf g)
  then GAME_OVER else state g.
Proof.
  unfold Game._check_collisions.
  destruct (existsb _ _); [reflexivity|].
  destruct (Game.out_of_bounds _); reflexivity.
Qed.

Lemma collides_iff (A : Assets) (g : Game) :
  collides A g <->
  existsb (collide_mask A (wolf g)) (pipe_group g)
  || Game.out_of_bounds (wolf g) = true.
Proof.
  unfold collides.
  rewrite orb_true_iff, existsb_exists, out_of_bounds_iff. tauto.
Qed.

Lemma update_playing_state (A : Assets) (g : Game) (i : Input) :
  state (Game._update_playing A g i) =
  if existsb (collide_mask A (wolf (Game.before_collisions A g i)))
             (pipe_group (Game.before_collisions A g i))
     || Game.out_of_bounds (wolf (Game.before_collisions A g i))
  then GAME_OVER else state g.
Proof.
  unfold Game._update_playing.
  destruct (update_score_keeps
              (Game._check_collisions A (Game.before_collisions A g i)))
    as (_ & -> & _).
  rewrite check_collisions_state.
  destruct (before_collisions_keeps A g i) as (_ & -> & _). reflexivity.
Qed.

(** C4: a playing tick ends in GAME_OVER exactly when, at its collision
    check (wolf and pipes moved, a due pair added), the wolf's top edge is
    above 0, or its bottom edge is at or below the ground line, or its mask
    overlaps some pipe's; otherwise the state stays PLAYING.  A bottom edge
    exactly on the ground line ends the run; one pixel above it, with the
    top on screen and no pipe touched, does not. *)
Theorem C4_boundary_collision (A : Assets) (g : Game) (i : Input) :
  state g = PLAYING ->
  let b := Game.before_collisions A g i in
  let g' := Game.update A g i in
  let ground := Config.SCREEN_HEIGHT - Config.GROUND_HEIGHT in
  wolf g' = wolf b /\
  (state g' = GAME_OVER <->
   Rect.top (rect (wolf b)) < 0 \/
   Rect.bottom (rect (wolf b)) >= ground \/
   exists p, In p (pipe_group b) /\ collide_mask A (wolf b) p = true) /\
  (state g' = GAME_OVER \/ state g' = PLAYING) /\
  (Rect.bottom (rect (wolf b)) = ground -> state g' = GAME_OVER) /\
  (Rect.bottom (rect (wolf b)) = ground - 1 ->
   0 <= Rect.top (rect (wolf b)) ->
   (forall p, In p (pipe_group b) -> collide_mask A (wolf b) p = false) ->
   state g' = PLAYING).
Proof.
  intros Hs b g' ground.
  assert (g' = Game._update_playing A g i) as Eg
      by (unfold g', Game.update; rewrite Hs; reflexivity).
  assert (wolf g' = wolf b) as Hw.
  { rewrite Eg, update_playing_wolf.
    symmetry. apply before_collisions_keeps. }
  assert (state g' = if existsb (collide_mask A (wolf b)) (pipe_group b)
                        || Game.out_of_bounds (wolf b)
                     then GAME_OVER else PLAYING) as Hst
      by (rewrite Eg, update_playing_state, Hs; reflexivity).
  pose proof (collides_iff A b) as Hc. unfold collides in Hc.
  fold ground in Hc.
  split; [exact Hw|]. split; [|split; [|split]].
  - rewrite Hc, Hst.
    destruct (existsb _ _ || _); split; congruence.
  - rewrite Hst. destruct (existsb _ _ || _); auto.
  - intros Hb. rewrite Hst.
    assert (existsb (collide_mask A (wolf b)) (pipe_group b)
            || Game.out_of_bounds (wolf b) = true) as ->
        by (apply Hc; right; left; lia).
    reflexivity.
  - intros Hb Ht Hp. rewrite Hst.
    assert (existsb (collide_mask A (wolf b)) (pipe_group b)
            || Game.out_of_bounds (wolf b) = false) as ->; [|reflexivity].
    apply not_true_is_false. intros E.
    apply Hc in E. destruct E as [E | [E | (p & Hin & E)]]; try lia.
    rewrite (Hp p Hin) in E. discriminate.
Qed.

Lemma C4_boundary_collision_witness :
  state demo_playing = PLAYING /\
  wolf (Game.update demo_assets demo_playing (demo_input [] false 1016))
  = wolf (Game.before_collisions demo_assets demo_playing
            (demo_input [] false 1016)).
Proof.
  split; [reflexivity|].
  exact (proj1 (C4_boundary_collision demo_assets demo_playing
                  (demo_input [] false 1016) eq_refl)).
Defined.

(** ** The spawner's clock *)

Lemma generate_pipes_time (A : Assets) (g : Game) (now e : Z) :
  last_pipe_time (Game._generate_pipes A g now e) =
  if now - last_pipe_time g >? Config.PIPE_FREQUENCY then now
  else last_pipe_time g.
Proof.
  rewrite generate_pipes_spec. cbv zeta.
  destruct (now - last_pipe_time g >? Config.PIPE_FREQUENCY); reflexivity.
Qed.

Lemma generate_pipes_count (A : Assets) (g : Game) (now e : Z) :
  length (pipe_group (Game._generate_pipes A g now e)) =
  if now - last_pipe_time g >? Config.PIPE_FREQUENCY
  then (length (pipe_group g) + 2)%nat else length (pipe_group g).
Proof.
  rewrite generate_pipes_spec. cbv zeta.
  destruct (now - last_pipe_time g >? Config.PIPE_FREQUENCY);
    [|reflexivity].
  cbn [pipe_group]. rewrite length_app. reflexivity.
Qed.

Lemma before_collisions_time (A : Assets) (g : Game) (i : Input) :
  last_pipe_time (Game.before_collisions A g i) =
  if ticks i - last_pipe_time g >? Config.PIPE_FREQUENCY then ticks i
  else last_pipe_time g.
Proof.
  unfold Game.before_collisions.
  destruct (Wolf.update A (wolf g) (state g) (mouse_pressed i)) as [w j].
  unfold Game._update_ground_scroll. cbn [last_pipe_time].
  rewrite generate_pipes_time. reflexivity.
Qed.

Lemma update_time (A : Assets) (g : Game) (i : Input) :
  last_pipe_time (Game.update A g i) =
  match state g with
  | PLAYING =>
      if ticks i - last_pipe_time g >? Config.PIPE_FREQUENCY then ticks i
      else last_pipe_time g
  | _ => last_pipe_time g
  end.
Proof.
  unfold Game.update. destruct (state g) eqn:E.
  - reflexivity.
  - unfold Game._update_playing.
    destruct (update_score_keeps
                (Game._check_collisions A (Game.before_collisions A g i)))
      as (_ & _ & -> & _).
    destruct (check_collisions_keeps A (Game.before_collisions A g i))
      as (_ & _ & _ & _ & ->).
    apply before_collisions_time.
  - unfold Game._update_game_over.
    destruct (Wolf.update A (wolf g) (state g) (mouse_pressed i)) as [w j].
    destruct (Button.update _ _ _) as [b clicked].
    destruct clicked; reflexivity.
Qed.

Lemma handle_events_first_click (A : Assets) (post : list Event) (now : Z) :
  forall (pre : list Event) (g : Game),
    state g = MENU ->
    forallb (fun e => match e with OTHER_EVENT => true | _ => false end) pre
      = true ->
    fst (Game.handle_events A g (pre ++ MOUSEBUTTONDOWN :: post) now)
    = Game.started A g now.
Proof.
  induction pre as [|e pre IH]; intros g Hs Hp.
  - cbn [app Game.handle_events]. rewrite Hs.
    apply handle_events_not_menu. discriminate.
  - cbn [forallb] in Hp. apply andb_true_iff in Hp. destruct Hp as [He Hp].
    destruct e; try discriminate. cbn [app Game.handle_events].
    apply IH; assumption.
Qed.

(** C1, as the code has it: the click that leaves MENU at clock reading t0
    sets the last-spawn time to t0 - PIPE_FREQUENCY, so a pair is created
    at the first reading that exceeds t0, not one interval later; in any
    tick the last-spawn time either stays or, while playing with more than
    PIPE_FREQUENCY elapsed since it, becomes the tick's reading, so two
    spawns are more than the interval apart and need not lie at multiples
    of it. *)
Theorem C1_spawn_timing
  (A : Assets) (g : Game) (pre post : list Event) (t0 : Z) :
  state g = MENU ->
  forallb (fun e => match e with OTHER_EVENT => true | _ => false end) pre
    = true ->
  let g1 :=
    fst (Game.handle_events A g (pre ++ MOUSEBUTTONDOWN :: post) t0) in
  state g1 = PLAYING /\
  last_pipe_time g1 = t0 - Config.PIPE_FREQUENCY /\
  pipe_group g1 = pipe_group g /\
  (forall now e,
      length (pipe_group (Game._generate_pipes A g1 now e)) =
      if now >? t0 then (length (pipe_group g1) + 2)%nat
      else length (pipe_group g1)) /\
  (forall i,
      last_pipe_time (Game.update A g1 i) =
      if ticks i >? t0 then ticks i else t0 - Config.PIPE_FREQUENCY) /\
  (forall (h : Game) (i : Input),
      last_pipe_time (Game.update A h i) = last_pipe_time h \/
      (state h = PLAYING /\
       ticks i - last_pipe_time h > Config.PIPE_FREQUENCY /\
       last_pipe_time (Game.update A h i) = ticks i)).
Proof.
  intros Hs Hp g1.
  assert (g1 = Game.started A g t0) as E
      by (apply handle_events_first_click; assumption).
  assert (forall now, (now - (t0 - Config.PIPE_FREQUENCY)
                       >? Config.PIPE_FREQUENCY) = (now >? t0)) as Hgt.
  { intros now. rewrite !Z.gtb_ltb.
    destruct (Z.ltb_spec t0 now), (Z.ltb_spec Config.PIPE_FREQUENCY
                                     (now - (t0 - Config.PIPE_FREQUENCY)));
      try reflexivity; lia. }
  rewrite E. cbn [Game.started state last_pipe_time pipe_group].
  repeat split.
  - intros now e. rewrite generate_pipes_count.
    cbn [last_pipe_time pipe_group]. rewrite Hgt. reflexivity.
  - intros i. rewrite update_time. cbn [state last_pipe_time].
    rewrite Hgt. reflexivity.
  - intros h i. rewrite update_time. destruct (state h); auto.
    destruct (Z.gtb_spec (ticks i - last_pipe_time h) Config.PIPE_FREQUENCY);
      [right | left]; auto with zarith.
Qed.

Lemma C1_spawn_timing_witness :
  state (Game.__init__ demo_assets) = MENU /\
  state (fst (Game.handle_events demo_assets (Game.__init__ demo_assets)
                ([OTHER_EVENT] ++ MOUSEBUTTONDOWN :: []) 1000)) = PLAYING.
Proof.
  split; [reflexivity|].
  exact (proj1 (C1_spawn_timing demo_assets (Game.__init__ demo_assets)
                  [OTHER_EVENT] [] 1000 eq_refl eq_refl)).
Defined.

(** C1 as stated fails: the game starts at reading 1000; the next pass, at
    reading 1016, already creates the first pair, 16 ms and not 1500 ms
    after the start; at 16 ms a pass the second pair comes at reading 2520,
    which is 1520 ms after the start: no multiple of the interval. *)
Lemma C1_spawn_timing_counterexample :
  let start := [demo_input [MOUSEBUTTONDOWN] true 1000] in
  let g1 := Game.run demo_assets start in
  let g2 := Game.run demo_assets (start ++ [demo_input [] false 1016]) in
  let g3 := Game.run demo_assets (demo_session [39; 78]%nat 95) in
  state (Game.__init__ demo_assets) = MENU /\
  state g1 = PLAYING /\ pipe_group g1 = [] /\
  length (pipe_group g2) = 2%nat /\ last_pipe_time g2 = 1016 /\
  1016 - 1000 < Config.PIPE_FREQUENCY /\
  (1016 - 1000) mod Config.PIPE_FREQUENCY <> 0 /\
  state g3 = PLAYING /\
  length (pipe_group g3) = 4%nat /\ last_pipe_time g3 = 2520 /\
  (2520 - 1000) mod Config.PIPE_FREQUENCY <> 0.
Proof. vm_compute. repeat split; congruence. Qed.

(** ** The state machine *)

Lemma update_game_over_spec (A : Assets) (g : Game) (i : Input) :
  let g' := Game._update_game_over A g i in
  if snd (Button.update (restart_button g) (mouse_pos i) (mouse_pressed i))
  then state g' = MENU /\ pipe_group g' = [] /\
       last_pipe_time g' = last_pipe_time g /\
       velocity (wolf g') = 0%Q /\
       Rect.center (rect (wolf g')) = (100, Config.SCREEN_HEIGHT / 2)
  else state g' = state g /\ pipe_group g' = pipe_group g /\
       wolf g' = fst (Wolf.update A (wolf g) (state g) (mouse_pressed i)) /\
       last_pipe_time g' = last_pipe_time g /\ score g' = score g /\
       ground_scroll g' = ground_scroll g /\ pipe_passed g' = pipe_passed g.
Proof.
  cbv zeta. unfold Game._update_game_over.
  destruct (Wolf.update A (wolf g) (state g) (mouse_pressed i)) as [w j].
  cbn [Game.set_wolf restart_button fst].
  destruct (Button.update (restart_button g) (mouse_pos i) (mouse_pressed i))
    as [b clicked].
  destruct clicked; cbn [snd].
  - match goal with
    | |- context [Game._reset_game ?h] =>
        destruct (reset_game_spec h) as (H1 & _ & H3 & H4 & H5 & _)
    end.
    repeat split; assumption.
  - cbn. auto 10.
Qed.

(** C9: the only transitions are MENU to PLAYING, PLAYING to GAME_OVER and
    GAME_OVER to MENU.  [handle_events] changes the state only from MENU to
    PLAYING, and only when a MOUSEBUTTONDOWN is in the queue; [update]
    changes it only from PLAYING to GAME_OVER, exactly on a collision, and
    from GAME_OVER to MENU, exactly on a press of the restart button.  In
    MENU an update changes nothing at all.  In an update that stays in
    GAME_OVER the wolf keeps its velocity and its centre, the spawn clock
    and the score stay, and the pipe group is what it was: no pipe moved,
    none removed, none added.  The one update that leaves GAME_OVER, the
    restart, sets the velocity to 0 and hands MENU an empty pipe group. *)
Theorem C9_state_machine
  (A : Assets) (g : Game) (i : Input) (evs : list Event) (now : Z) :
  let g1 := fst (Game.handle_events A g evs now) in
  let g' := Game.update A g i in
  let b := Game.before_collisions A g i in
  let restart :=
    snd (Button.update (restart_button g) (mouse_pos i) (mouse_pressed i)) in
  match state g with
  | MENU =>
      g1 = g \/
      (In MOUSEBUTTONDOWN evs /\ state g1 = PLAYING /\
       wolf g1 = wolf g /\ pipe_group g1 = pipe_group g)
  | _ => g1 = g
  end /\
  match state g with
  | MENU => g' = g
  | PLAYING =>
      (state g' = PLAYING /\ ~ collides A b) \/
      (state g' = GAME_OVER /\ collides A b)
  | GAME_OVER =>
      velocity (wolf g') = (if restart then 0%Q else velocity (wolf g)) /\
      last_pipe_time g' = last_pipe_time g /\
      if restart
      then state g' = MENU /\ pipe_group g' = []
      else state g' = GAME_OVER /\ pipe_group g' = pipe_group g /\
           Rect.center (rect (wolf g')) = Rect.center (rect (wolf g)) /\
           score g' = score g
  end.
Proof.
  cbv zeta. split.
  - destruct (state g) eqn:E.
    + destruct (handle_events_menu A evs now g E) as [H | [I H]];
        [left; exact H | right]. rewrite H. auto.
    + apply handle_events_not_menu. congruence.
    + apply handle_events_not_menu. congruence.
  - unfold Game.update. destruct (state g) eqn:E.
    + reflexivity.
    + pose proof (update_playing_state A g i) as Hst. rewrite E in Hst.
      rewrite Hst.
      pose proof (collides_iff A (Game.before_collisions A g i)) as Hc.
      destruct (existsb _ _ || _).
      * right. split; [reflexivity | apply Hc; reflexivity].
      * left. split; [reflexivity|]. intros H. apply Hc in H. discriminate.
    + pose proof (update_game_over_spec A g i) as H. cbv zeta in H.
      rewrite E in H.
      destruct (snd (Button.update (restart_button g) (mouse_pos i)
                       (mouse_pressed i))) eqn:Eb.
      * destruct H as (H1 & H2 & H3 & H4 & _).
        repeat split; assumption.
      * destruct H as (H1 & H2 & H3 & H4 & H5 & _).
        cbn [Wolf.update fst] in H3. unfold Wolf._point_down in H3.
        destruct (set_image_keeps A (wolf g)
                    (Rotated (image_index (wolf g)) (-90 # 1)))
          as (Sv & _ & Sc).
        rewrite H3. repeat split; assumption.
Qed.

(** ** Scoring *)

Lemma update_score_score (g : Game) :
  score (Game._update_score g) = score g + if scores_now g then 1 else 0.
Proof.
  unfold Game._update_score, scores_now.
  destruct (min_centerx (pipe_group g)) as [[k fp]|]; [|cbn; lia].
  destruct (pipe_passed g); cbn [negb andb].
  - rewrite andb_false_r.
    destruct (Rect.centerx (rect (wolf g)) >? Rect.right (pipe_rect fp));
      [|cbn; lia].
    destruct (scored fp); cbn; lia.
  - rewrite andb_true_r.
    destruct (Z.ltb_spec (Rect.left (pipe_rect fp))
                         (Rect.centerx (rect (wolf g))));
      destruct (Z.ltb_spec (Rect.centerx (rect (wolf g)))
                           (Rect.right (pipe_rect fp)));
      cbn [andb].
    + destruct (Z.gtb_spec (Rect.centerx (rect (wolf g)))
                           (Rect.right (pipe_rect fp))); [lia|].
      cbn; lia.
    + cbn; lia.
    + cbn; lia.
    + cbn; lia.
Qed.

Lemma scores_now_before_check (A : Assets) (g : Game) :
  scores_now (Game._check_collisions A g) = scores_now g.
Proof.
  unfold scores_now.
  destruct (check_collisions_keeps A g) as (-> & -> & _ & -> & _).
  reflexivity.
Qed.

(** C10: the playing tick is the score update applied to whatever the
    collision check left, GAME_OVER included: the tick adds a point exactly
    when the scoring condition holds on the moved wolf and pipes, whether or
    not the check just ended the run.  In the session that ends in a pipe,
    the state before the last tick is PLAYING with score 0, and that tick
    both ends the run and takes the score to 1. *)
Theorem C10_score_on_final_tick (A : Assets) (g : Game) (i : Input) :
  let b := Game.before_collisions A g i in
  Game._update_playing A g i = Game._update_score (Game._check_collisions A b) /\
  state (Game._update_playing A g i) = state (Game._check_collisions A b) /\
  score (Game._update_playing A g i)
    = score g + (if scores_now b then 1 else 0) /\
  state demo_before_crash = PLAYING /\
  collides demo_assets
    (Game.before_collisions demo_assets demo_before_crash demo_crash_input) /\
  state (Game.update demo_assets demo_before_crash demo_crash_input)
    = GAME_OVER /\
  score (Game.update demo_assets demo_before_crash demo_crash_input)
    = score demo_before_crash + 1.
Proof.
  cbv zeta. split; [reflexivity|]. split; [|split].
  - unfold Game._update_playing. apply update_score_keeps.
  - unfold Game._update_playing.
    rewrite update_score_score, scores_now_before_check.
    destruct (check_collisions_keeps A (Game.before_collisions A g i))
      as (_ & _ & -> & _).
    destruct (before_collisions_keeps A g i) as (_ & _ & -> & _).
    reflexivity.
  - split; [vm_compute; reflexivity|].
    split; [|split; vm_compute; reflexivity].
    apply collides_iff. vm_compute. reflexivity.
Qed.

(** *** The first pipe of the group *)

Lemma min_from_keep (l : list Pipe) :
  forall b ib i,
    (forall q, In q l -> cx b <= cx q) -> min_from (ib, b) i l = (ib, b).
Proof.
  induction l as [|q l IH]; intros b ib i H; [reflexivity|].
  cbn [min_from snd].
  destruct (Z.ltb_spec (cx q) (cx b)) as [Hlt|Hge].
  - specialize (H q (or_introl eq_refl)). lia.
  - apply IH. intros q' Hq'. apply H. right. exact Hq'.
Qed.

Lemma min_from_found (l1 : list Pipe) :
  forall b ib i P l2,
    cx P < cx b ->
    (forall q, In q l1 -> cx P < cx q) ->
    (forall q, In q l2 -> cx P <= cx q) ->
    min_from (ib, b) i (l1 ++ P :: l2) = ((i + length l1)%nat, P).
Proof.
  induction l1 as [|q l1 IH]; intros b ib i P l2 Hb H1 H2.
  - cbn [app min_from snd length].
    destruct (Z.ltb_spec (cx P) (cx b)); [|lia].
    rewrite Nat.add_0_r. apply min_from_keep. exact H2.
  - cbn [app min_from snd length].
    assert (cx P < cx q) as Hq by (apply H1; left; reflexivity).
    assert (forall q', In q' l1 -> cx P < cx q') as H1'
        by (intros q' Hq'; apply H1; right; exact Hq').
    replace (i + S (length l1))%nat with (S i + length l1)%nat by lia.
    destruct (cx q <? cx b); apply IH; assumption.
Qed.

Lemma min_from_split (l : list Pipe) :
  forall b ib i j m,
    min_from (ib, b) i l = (j, m) ->
    (j = ib /\ m = b /\ forall q, In q l -> cx b <= cx q) \/
    (exists l1 l2,
        l = l1 ++ m :: l2 /\ j = (i + length l1)%nat /\ cx m < cx b /\
        (forall q, In q l1 -> cx m < cx q) /\
        (forall q, In q l2 -> cx m <= cx q)).
Proof.
  induction l as [|q l IH]; intros b ib i j m H.
  - cbn in H. injection H as <- <-. left. repeat split. intros q [].
  - cbn [min_from snd] in H.
    destruct (Z.ltb_spec (cx q) (cx b)) as [Hlt|Hge];
      apply IH in H;
      destruct H as [(-> & -> & Hall) | (l1 & l2 & -> & -> & Hm & H1 & H2)].
    + right. exists [], l. cbn [app length]. rewrite Nat.add_0_r.
      repeat split; auto. intros q' [].
    + right. exists (q :: l1), l2. cbn [app length].
      repeat split; auto; try lia.
      intros q' [<- | Hq']; auto.
    + left. repeat split. intros q' [<- | Hq']; auto.
    + right. exists (q :: l1), l2. cbn [app length].
      repeat split; auto; try lia.
      intros q' [<- | Hq']; auto. lia.
Qed.

(** [p] is the first pipe of [l], at position [k]: every pipe before it
    lies strictly further right, every pipe after it not further left. *)
Lemma min_centerx_split (l : list Pipe) (k : nat) (P : Pipe) :
  min_centerx l = Some (k, P) <->
  exists l1 l2,
    l = l1 ++ P :: l2 /\ k = length l1 /\
    (forall q, In q l1 -> cx P < cx q) /\
    (forall q, In q l2 -> cx P <= cx q).
Proof.
  split.
  - destruct l as [|q l]; [discriminate|]. cbn [min_centerx].
    intros H. injection H as H. apply min_from_split in H.
    destruct H as [(-> & -> & Hall) | (l1 & l2 & -> & -> & Hm & H1 & H2)].
    + exists [], l. repeat split; auto. intros q' [].
    + exists (q :: l1), l2. cbn [app length]. repeat split; auto.
      intros q' [<- | Hq']; auto.
  - intros (l1 & l2 & -> & -> & H1 & H2).
    destruct l1 as [|q l1]; cbn [app min_centerx length].
    + rewrite min_from_keep by exact H2. reflexivity.
    + rewrite min_from_found; auto.
      * intros; apply H1; left; reflexivity.
      * intros q' Hq'. apply H1. right. exact Hq'.
Qed.

Lemma set_scored_at_split (l1 l2 : list Pipe) (P : Pipe) :
  set_scored_at (length l1) (l1 ++ P :: l2) = l1 ++ Pipe.set_scored P :: l2.
Proof. induction l1 as [|q l1 IH]; cbn; congruence. Qed.

Lemma set_scored_at_rects (l : list Pipe) :
  forall k, map pipe_rect (set_scored_at k l) = map pipe_rect l.
Proof.
  induction l as [|q l IH]; intros [|k]; cbn; try reflexivity.
  rewrite IH. reflexivity.
Qed.

Lemma mark_pair_rects (c : Z) (l : list Pipe) :
  map pipe_rect (mark_pair c l) = map pipe_rect l.
Proof.
  unfold mark_pair. rewrite map_map. apply map_ext.
  intros p. destruct (Z.abs (cx p - c) <? 10); reflexivity.
Qed.

(** Every pipe less than 10 px from [c] is marked by [mark_pair c]. *)
Lemma mark_pair_marks (c : Z) (l : list Pipe) (p : Pipe) :
  In p (mark_pair c l) -> Z.abs (cx p - c) < 10 -> scored p = true.
Proof.
  unfold mark_pair. rewrite in_map_iff. intros (q & E & _) H.
  destruct (Z.ltb_spec (Z.abs (cx q - c)) 10); subst p.
  - reflexivity.
  - lia.
Qed.

Lemma update_score_rects (g : Game) :
  map pipe_rect (pipe_group (Game._update_score g))
  = map pipe_rect (pipe_group g).
Proof.
  unfold Game._update_score.
  destruct (min_centerx (pipe_group g)) as [[i fp]|]; [|reflexivity].
  repeat match goal with
         | |- context [if ?c then _ else _] => destruct c
         end; cbn [pipe_group]; try reflexivity.
  rewrite mark_pair_rects, set_scored_at_rects. reflexivity.
Qed.

(** *** Moving pipes *)

Lemma pipe_update_moved (p : Pipe) : fst (Pipe.update p) = moved p 1.
Proof. reflexivity. Qed.

Lemma moved_fields (p : Pipe) (n : Z) :
  cx (moved p n) = cx p - Config.SCROLL_SPEED * n /\
  Rect.left (pipe_rect (moved p n))
    = Rect.left (pipe_rect p) - Config.SCROLL_SPEED * n /\
  Rect.right (pipe_rect (moved p n))
    = Rect.right (pipe_rect p) - Config.SCROLL_SPEED * n /\
  rect_w (pipe_rect (moved p n)) = rect_w (pipe_rect p) /\
  scored (moved p n) = scored p.
Proof.
  unfold moved, Rect.centerx, Rect.left, Rect.right, Rect.set_x.
  cbn [pipe_rect scored rect_x rect_y rect_w rect_h].
  repeat split; lia.
Qed.

Lemma group_update_in (ps : list Pipe) (p : Pipe) :
  In p (Group_update ps) -> exists q, In q ps /\ p = moved q 1.
Proof.
  induction ps as [|q ps IH]; cbn [Group_update]; [intros []|].
  destruct (Pipe.update q) as [q' killed] eqn:E.
  assert (q' = moved q 1) as -> by (rewrite <- pipe_update_moved, E; reflexivity).
  destruct killed.
  - intros H. destruct (IH H) as (r & Hr & ->). exists r. split; [right|]; auto.
  - intros [<- | H].
    + exists q. split; [left|]; reflexivity.
    + destruct (IH H) as (r & Hr & ->). exists r. split; [right|]; auto.
Qed.

Lemma group_update_survive (ps : list Pipe) :
  (forall q, In q ps -> 0 <= Rect.right (pipe_rect (moved q 1))) ->
  Group_update ps = map (fun q => moved q 1) ps.
Proof.
  induction ps as [|q ps IH]; intros H; [reflexivity|].
  cbn [Group_update map].
  assert (Pipe.update q
          = (moved q 1, Rect.right (pipe_rect (moved q 1)) <? 0)) as ->
      by reflexivity.
  destruct (Z.ltb_spec (Rect.right (pipe_rect (moved q 1))) 0) as [Hlt|Hge].
  - specialize (H q (or_introl eq_refl)). lia.
  - f_equal. apply IH. intros r Hr. apply H. right. exact Hr.
Qed.

Lemma before_collisions_pipes (A : Assets) (g : Game) (i : Input) :
  let center := Config.SCREEN_HEIGHT / 2 + randint (-100) 100 (entropy i) in
  pipe_group (Game.before_collisions A g i) =
  Group_update (pipe_group g)
  ++ (if ticks i - last_pipe_time g >? Config.PIPE_FREQUENCY
      then [Pipe.__init__ A Config.SCREEN_WIDTH center 1;
            Pipe.__init__ A Config.SCREEN_WIDTH center (-1)]
      else []).
Proof.
  cbv zeta. unfold Game.before_collisions.
  destruct (Wolf.update A (wolf g) (state g) (mouse_pressed i)) as [w j].
  unfold Game._update_ground_scroll. cbn [pipe_group].
  rewrite generate_pipes_spec. cbv zeta.
  cbn [Game.set_pipe_group Game.set_wolf last_pipe_time pipe_group].
  destruct (ticks i - last_pipe_time g >? Config.PIPE_FREQUENCY).
  - reflexivity.
  - cbn [pipe_group]. rewrite app_nil_r. reflexivity.
Qed.

Lemma new_pipe_rect_ok (A : Assets) (y position : Z) :
  rect_ok A (pipe_rect (Pipe.__init__ A Config.SCREEN_WIDTH y position)).
Proof.
  unfold Pipe.__init__, rect_ok.
  destruct (position =? 1); cbn; split; lia.
Qed.

(** *** What every reachable state satisfies *)

Lemma apply_physics_centerx (w : Wolf) :
  Rect.centerx (rect (Wolf._apply_physics w)) = Rect.centerx (rect w).
Proof.
  unfold Wolf._apply_physics. cbn [rect].
  destruct (Rect.bottom (rect w) <? _); reflexivity.
Qed.

Lemma wolf_update_centerx (A : Assets) (w : Wolf) (s : GameState) (p : bool) :
  Rect.centerx (rect (fst (Wolf.update A w s p))) = Rect.centerx (rect w).
Proof.
  destruct s.
  - reflexivity.
  - destruct (update_playing_fields A w p) as (_ & _ & _ & Hc).
    apply (f_equal fst) in Hc. cbn [Rect.center fst] in Hc.
    rewrite Hc. apply apply_physics_centerx.
  - cbn [Wolf.update fst]. unfold Wolf._point_down.
    destruct (set_image_keeps A w (Rotated (image_index w) (-90 # 1)))
      as (_ & _ & Hc).
    apply (f_equal fst) in Hc. exact Hc.
Qed.

Lemma before_collisions_well_formed (A : Assets) (g : Game) (i : Input) :
  well_formed A g -> well_formed A (Game.before_collisions A g i).
Proof.
  intros [Hw Hp]. split.
  - destruct (before_collisions_keeps A g i) as (-> & _).
    rewrite wolf_update_centerx. exact Hw.
  - rewrite before_collisions_pipes. cbv zeta.
    rewrite map_app. apply Forall_app. split.
    + rewrite Forall_forall in *. intros r Hr.
      apply in_map_iff in Hr. destruct Hr as (p & <- & Hin).
      apply group_update_in in Hin. destruct Hin as (q & Hq & ->).
      assert (rect_ok A (pipe_rect q)) as [Hqw Hqx]
          by (apply Hp; apply in_map; exact Hq).
      destruct (moved_fields q 1) as (_ & Hl & _ & Hmw & _).
      unfold Rect.left in Hl. unfold rect_ok. rewrite Hmw, Hl.
      unfold Config.SCROLL_SPEED. split; lia.
    + destruct (ticks i - last_pipe_time g >? Config.PIPE_FREQUENCY);
        [|constructor].
      cbn [map]. repeat constructor; apply new_pipe_rect_ok.
Qed.

Lemma update_well_formed (A : Assets) (g : Game) (i : Input) :
  well_formed A g -> well_formed A (Game.update A g i).
Proof.
  intros H. unfold Game.update. destruct (state g) eqn:E.
  - exact H.
  - unfold Game._update_playing.
    apply (before_collisions_well_formed A g i) in H. destruct H as [Hw Hp].
    split.
    + destruct (update_score_keeps
                  (Game._check_collisions A (Game.before_collisions A g i)))
        as (-> & _).
      destruct (check_collisions_keeps A (Game.before_collisions A g i))
        as (-> & _).
      exact Hw.
    + rewrite update_score_rects.
      destruct (check_collisions_keeps A (Game.before_collisions A g i))
        as (_ & -> & _).
      exact Hp.
  - destruct H as [Hw Hp].
    pose proof (update_game_over_spec A g i) as H. cbv zeta in H.
    destruct (snd (Button.update (restart_button g) (mouse_pos i)
                     (mouse_pressed i))) eqn:Eb.
    + destruct H as (_ & H2 & _ & _ & Hc). split.
      * apply (f_equal fst) in Hc. exact Hc.
      * rewrite H2. constructor.
    + destruct H as (_ & H2 & H3 & _). split.
      * rewrite H3, wolf_update_centerx. exact Hw.
      * rewrite H2. exact Hp.
Qed.

Lemma run_from_well_formed (A : Assets) (inputs : list Input) :
  forall g, well_formed A g -> well_formed A (Game.run_from A g inputs).
Proof.
  induction inputs as [|i rest IH]; intros g H; [exact H|].
  cbn [Game.run_from]. unfold Game.tick.
  destruct (handle_events_wolf A g (events i) (event_ticks i))
    as (Hw & Hp & _).
  destruct (Game.handle_events A g (events i) (event_ticks i)) as [g1 running].
  cbn [fst] in Hw, Hp.
  assert (well_formed A (Game.update A g1 i)) as H1.
  { apply update_well_formed. destruct H as [Hc Hf].
    split; [rewrite Hw | rewrite Hp]; assumption. }
  destruct running; [apply IH|]; exact H1.
Qed.

Lemma run_well_formed (A : Assets) (inputs : list Input) :
  well_formed A (Game.run A inputs).
Proof.
  apply run_from_well_formed. split.
  - pose proof (initial_wolf_center A) as H.
    apply (f_equal fst) in H. exact H.
  - constructor.
Qed.

(** *** One playing tick, seen from the first pipe *)

Lemma tick_first_pipe (A : Assets) (h : Game) (i : Input) (k : nat) (P : Pipe) :
  well_formed A h ->
  min_centerx (pipe_group h) = Some (k, P) ->
  0 <= Rect.right (pipe_rect (moved P 1)) ->
  min_centerx (pipe_group (Game.before_collisions A h i))
  = Some (k, moved P 1).
Proof.
  intros [_ Hok] Hmin Hon.
  apply min_centerx_split in Hmin.
  destruct Hmin as (l1 & l2 & E & -> & H1 & H2).
  rewrite Forall_forall in Hok.
  assert (forall q, In q (pipe_group h) -> rect_ok A (pipe_rect q)) as Hq
      by (intros q Hin; apply Hok; apply in_map; exact Hin).
  assert (rect_ok A (pipe_rect P)) as [HPw HPx]
      by (apply Hq; rewrite E; apply in_or_app; right; left; reflexivity).
  assert (forall q, In q (pipe_group h) -> cx P <= cx q) as Hall.
  { intros q Hin. rewrite E in Hin. apply in_app_or in Hin.
    destruct Hin as [Hin | [<- | Hin]]; [apply H1 in Hin| |apply H2 in Hin];
      lia. }
  assert (forall q, cx (moved q 1) = cx q - 4) as Hcx
      by (intros q; destruct (moved_fields q 1) as (-> & _);
          unfold Config.SCROLL_SPEED; lia).
  rewrite before_collisions_pipes. cbv zeta.
  rewrite group_update_survive.
  - rewrite E, map_app. cbn [map]. rewrite <- app_assoc. cbn [app].
    apply min_centerx_split.
    eexists _, _. split; [reflexivity|].
    split; [rewrite length_map; reflexivity|]. split.
    + intros q' Hq'. apply in_map_iff in Hq'. destruct Hq' as (q & <- & Hin).
      rewrite !Hcx. apply H1 in Hin. lia.
    + intros q' Hq'. apply in_app_or in Hq'. destruct Hq' as [Hq' | Hq'].
      * apply in_map_iff in Hq'. destruct Hq' as (q & <- & Hin).
        rewrite !Hcx. apply H2 in Hin. lia.
      * rewrite Hcx.
        destruct (ticks i - last_pipe_time h >? Config.PIPE_FREQUENCY);
          [|destruct Hq'].
        assert (rect_ok A (pipe_rect q')) as [Hw Hx].
        { destruct Hq' as [<- | [<- | []]]; apply new_pipe_rect_ok. }
        assert (rect_x (pipe_rect q') = Config.SCREEN_WIDTH) as Hx'.
        { destruct Hq' as [<- | [<- | []]]; reflexivity. }
        unfold Rect.centerx. rewrite Hw, Hx', HPw. lia.
  - intros q Hin. pose proof (Hall q Hin) as Hle.
    destruct (Hq q Hin) as [Hw _].
    destruct (moved_fields q 1) as (_ & _ & -> & _).
    destruct (moved_fields P 1) as (_ & _ & HP & _). rewrite HP in Hon.
    unfold Rect.centerx in Hle. unfold Rect.right in *.
    rewrite Hw, HPw in *. lia.
Qed.

Lemma playing_tick (A : Assets) (h : Game) (i : Input) (k : nat) (P : Pipe) :
  well_formed A h ->
  state h = PLAYING ->
  min_centerx (pipe_group h) = Some (k, P) ->
  0 <= Rect.right (pipe_rect (moved P 1)) ->
  let c := Game._check_collisions A (Game.before_collisions A h i) in
  Game.update A h i = Game._update_score c /\
  min_centerx (pipe_group c) = Some (k, moved P 1) /\
  pipe_passed c = pipe_passed h /\ score c = score h /\
  Rect.centerx (rect (wolf c)) = 100.
Proof.
  intros Hwf Hs Hmin Hon. cbv zeta.
  destruct (check_collisions_keeps A (Game.before_collisions A h i))
    as (Ew & Ep & Es & Epp & _).
  destruct (before_collisions_keeps A h i) as (_ & _ & Es' & Epp').
  destruct (before_collisions_well_formed A h i Hwf) as [Hc _].
  repeat split.
  - unfold Game.update. rewrite Hs. reflexivity.
  - rewrite Ep. apply tick_first_pipe; assumption.
  - congruence.
  - congruence.
  - rewrite Ew. exact Hc.
Qed.

Lemma update_score_no_point (g : Game) :
  scores_now g = false ->
  score (Game._update_score g) = score g /\
  pipe_group (Game._update_score g) = pipe_group g /\
  (pipe_passed g = true ->
   (forall k P, min_centerx (pipe_group g) = Some (k, P) ->
                Rect.centerx (rect (wolf g)) <= Rect.right (pipe_rect P)) ->
   pipe_passed (Game._update_score g) = true).
Proof.
  intros H. pose proof (update_score_score g) as Hsc. rewrite H in Hsc.
  split; [lia|]. clear Hsc.
  unfold Game._update_score, scores_now in *.
  destruct (min_centerx (pipe_group g)) as [[k fp]|]; [|auto].
  split.
  - revert H.
    destruct (pipe_passed g), (scored fp);
      destruct (Z.gtb_spec (Rect.centerx (rect (wolf g)))
                           (Rect.right (pipe_rect fp)));
      destruct (Z.ltb_spec (Rect.left (pipe_rect fp))
                           (Rect.centerx (rect (wolf g))));
      destruct (Z.ltb_spec (Rect.centerx (rect (wolf g)))
                           (Rect.right (pipe_rect fp)));
      cbn; intros Hsn; try reflexivity; try discriminate Hsn; lia.
  - intros Hp Hle. specialize (Hle k fp eq_refl). rewrite Hp.
    cbn [negb]. rewrite andb_false_r. cbn [andb].
    destruct (Z.gtb_spec (Rect.centerx (rect (wolf g)))
                         (Rect.right (pipe_rect fp))); [lia|].
    reflexivity.
Qed.

Lemma update_score_point (g : Game) (k : nat) (P : Pipe) :
  min_centerx (pipe_group g) = Some (k, P) ->
  pipe_passed g = true ->
  Rect.right (pipe_rect P) < Rect.centerx (rect (wolf g)) ->
  scored P = false ->
  score (Game._update_score g) = score g + 1 /\
  pipe_passed (Game._update_score g) = false /\
  pipe_group (Game._update_score g)
  = mark_pair (cx P) (set_scored_at k (pipe_group g)).
Proof.
  intros Hmin Hp Hlt Hs. unfold Game._update_score.
  rewrite Hmin, Hp, Hs. cbn [negb]. rewrite andb_false_r. cbn [andb].
  destruct (Z.gtb_spec (Rect.centerx (rect (wolf g)))
                       (Rect.right (pipe_rect P))); [|lia].
  cbn. auto.
Qed.

(** *** Runs of playing ticks *)

Lemma moved_0 (p : Pipe) : moved p 0 = p.
Proof.
  destruct p as [f [x y w h] s]. unfold moved, Rect.set_x.
  cbn [pipe_rect flipped scored rect_x rect_y rect_w rect_h].
  f_equal. f_equal. lia.
Qed.

Lemma moved_add (p : Pipe) (a b : Z) : moved (moved p a) b = moved p (a + b).
Proof.
  unfold moved, Rect.set_x.
  cbn [pipe_rect flipped scored rect_x rect_y rect_w rect_h].
  f_equal. f_equal. lia.
Qed.

Lemma play_cons (A : Assets) (g : Game) (i : Input) (rest : list Input) :
  play A g (i :: rest) = play A (Game.update A g i) rest.
Proof. reflexivity. Qed.

Lemma play_app (A : Assets) (g : Game) (l1 l2 : list Input) :
  play A g (l1 ++ l2) = play A (play A g l1) l2.
Proof. unfold play. apply fold_left_app. Qed.

Lemma play_well_formed (A : Assets) (l : list Input) :
  forall g, well_formed A g -> well_formed A (play A g l).
Proof.
  induction l as [|i l IH]; intros g H; [exact H|].
  rewrite play_cons. apply IH. apply update_well_formed. exact H.
Qed.

(** While the wolf has not passed the right edge of the first pipe, that
    pipe stays the first one, the flag stays set and the score stays. *)
Lemma wait_ticks (A : Assets) (mid : list Input) :
  forall h k P,
    well_formed A h ->
    min_centerx (pipe_group h) = Some (k, P) ->
    pipe_passed h = true ->
    (forall j, (j < length mid)%nat ->
               state (play A h (firstn j mid)) = PLAYING) ->
    100 <= Rect.right (pipe_rect P)
           - Config.SCROLL_SPEED * Z.of_nat (length mid) ->
    min_centerx (pipe_group (play A h mid))
      = Some (k, moved P (Z.of_nat (length mid))) /\
    pipe_passed (play A h mid) = true /\
    score (play A h mid) = score h.
Proof.
  induction mid as [|i rest IH]; intros h k P Hwf Hmin Hpp Hst Hr.
  - cbn [play fold_left length Z.of_nat]. rewrite moved_0. auto.
  - cbn [length] in Hr. rewrite Nat2Z.inj_succ in Hr.
    unfold Config.SCROLL_SPEED in *.
    destruct (moved_fields P 1) as (_ & _ & HR & _ & _).
    unfold Config.SCROLL_SPEED in HR.
    assert (state h = PLAYING) as Hs by (apply (Hst 0%nat); cbn; lia).
    destruct (playing_tick A h i k P Hwf Hs Hmin) as (Eu & Hm & Hp & Hsc & Hx);
      [lia|].
    set (c := Game._check_collisions A (Game.before_collisions A h i)) in *.
    assert (scores_now c = false) as Hno.
    { unfold scores_now. rewrite Hm, Hx.
      destruct (Z.gtb_spec 100 (Rect.right (pipe_rect (moved P 1)))); [lia|].
      rewrite andb_false_r. reflexivity. }
    destruct (update_score_no_point c Hno) as (Hsc' & Hpg & Hpp').
    rewrite play_cons, Eu.
    destruct (IH (Game._update_score c) k (moved P 1)) as (R1 & R2 & R3).
    + rewrite <- Eu. apply update_well_formed. exact Hwf.
    + rewrite Hpg. exact Hm.
    + apply Hpp'; [congruence|].
      intros k' P' E. rewrite Hm in E. injection E as <- <-. lia.
    + intros j Hj. rewrite <- Eu, <- play_cons.
      apply (Hst (S j)). cbn [length]. lia.
    + rewrite HR. unfold Config.SCROLL_SPEED. lia.
    + rewrite R1, R2, R3, moved_add. cbn [length].
      rewrite Nat2Z.inj_succ. repeat split; [|lia].
      do 3 f_equal. lia.
Qed.

(** Once the first pipe is marked, the score stays for as long as that
    pipe is in the group. *)
Lemma scored_ticks (A : Assets) (more : list Input) :
  forall h k Q,
    well_formed A h ->
    min_centerx (pipe_group h) = Some (k, Q) ->
    scored Q = true ->
    (forall j, (j < length more)%nat ->
               state (play A h (firstn j more)) = PLAYING) ->
    0 <= Rect.right (pipe_rect Q)
         - Config.SCROLL_SPEED * Z.of_nat (length more) ->
    score (play A h more) = score h.
Proof.
  induction more as [|i rest IH]; intros h k Q Hwf Hmin Hsc Hst Hr;
    [reflexivity|].
  cbn [length] in Hr. rewrite Nat2Z.inj_succ in Hr.
  unfold Config.SCROLL_SPEED in *.
  destruct (moved_fields Q 1) as (_ & _ & HR & _ & HS).
  unfold Config.SCROLL_SPEED in HR.
  assert (state h = PLAYING) as Hs by (apply (Hst 0%nat); cbn; lia).
  destruct (playing_tick A h i k Q Hwf Hs Hmin) as (Eu & Hm & _ & Hsc0 & _);
    [lia|].
  set (c := Game._check_collisions A (Game.before_collisions A h i)) in *.
  assert (scores_now c = false) as Hno.
  { unfold scores_now. rewrite Hm, HS, Hsc. cbn [negb].
    apply andb_false_r. }
  destruct (update_score_no_point c Hno) as (Hsc' & Hpg & _).
  rewrite play_cons, Eu.
  rewrite (IH (Game._update_score c) k (moved Q 1)).
  - lia.
  - rewrite <- Eu. apply update_well_formed. exact Hwf.
  - rewrite Hpg. exact Hm.
  - congruence.
  - intros j Hj. rewrite <- Eu, <- play_cons.
    apply (Hst (S j)). cbn [length]. lia.
  - rewrite HR. unfold Config.SCROLL_SPEED. lia.
Qed.

Lemma mark_pair_first (c : Z) (l1 l2 : list Pipe) (P : Pipe) :
  (forall q, In q l1 -> cx P < cx q) ->
  (forall q, In q l2 -> cx P <= cx q) ->
  min_centerx (mark_pair c (l1 ++ Pipe.set_scored P :: l2))
  = Some (length l1, Pipe.set_scored P).
Proof.
  intros H1 H2. unfold mark_pair. rewrite map_app. cbn [map].
  assert (forall q,
             cx (if Z.abs (cx q - c) <? 10 then Pipe.set_scored q else q)
             = cx q) as Hc
      by (intros q; destruct (Z.abs (cx q - c) <? 10); reflexivity).
  assert ((if Z.abs (cx (Pipe.set_scored P) - c) <? 10
           then Pipe.set_scored (Pipe.set_scored P) else Pipe.set_scored P)
          = Pipe.set_scored P) as ->
      by (destruct (Z.abs (cx (Pipe.set_scored P) - c) <? 10); reflexivity).
  apply min_centerx_split. eexists _, _.
  split; [reflexivity|]. split; [rewrite length_map; reflexivity|].
  split; intros q' Hq'; apply in_map_iff in Hq';
    destruct Hq' as (q & <- & Hin); rewrite Hc;
    [apply H1 | apply H2]; exact Hin.
Qed.

(** The tick in which the wolf's centre has passed the right edge of the
    first, unmarked pipe, with the flag set. *)
Lemma hit_tick (A : Assets) (h : Game) (i : Input) (k : nat) (P : Pipe) :
  well_formed A h ->
  state h = PLAYING ->
  min_centerx (pipe_group h) = Some (k, P) ->
  pipe_passed h = true ->
  scored P = false ->
  100 <= Rect.right (pipe_rect P) ->
  Rect.right (pipe_rect P) - Config.SCROLL_SPEED < 100 ->
  let h' := Game.update A h i in
  score h' = score h + 1 /\
  pipe_passed h' = false /\
  min_centerx (pipe_group h') = Some (k, Pipe.set_scored (moved P 1)) /\
  (forall p, In p (pipe_group h') ->
             Z.abs (cx p - cx (moved P 1)) < 10 -> scored p = true).
Proof.
  intros Hwf Hs Hmin Hpp Hsc Hge Hlt. cbv zeta.
  unfold Config.SCROLL_SPEED in *.
  destruct (moved_fields P 1) as (_ & _ & HR & _ & HS).
  unfold Config.SCROLL_SPEED in HR.
  destruct (playing_tick A h i k P Hwf Hs Hmin) as (Eu & Hm & Hp & Hsc0 & Hx);
    [lia|].
  set (c := Game._check_collisions A (Game.before_collisions A h i)) in *.
  destruct (update_score_point c k (moved P 1) Hm) as (R1 & R2 & R3);
    try congruence; [lia|].
  rewrite Eu, R1, R2, R3.
  apply min_centerx_split in Hm.
  destruct Hm as (l1 & l2 & E & -> & H1 & H2).
  rewrite E, set_scored_at_split.
  repeat split.
  - lia.
  - apply mark_pair_first; assumption.
  - intros p Hin Hab. exact (mark_pair_marks _ _ p Hin Hab).
Qed.

(** C2 as stated fails when two pairs are 4 px apart (two passes of the loop
    more than the spawn interval apart create them): the wolf's x-centre,
    100, is strictly between the edges of the second pair after pass 192;
    pass 212 is the first after which it exceeds that pair's right edge,
    the game is playing, and the score stays at the 1 it got for the first
    pair one pass earlier, when both pairs were marked; the score is still
    1 when both pairs have left the screen. *)
Lemma C2_overlapping_pairs_counterexample :
  let at_pass n := Game.run demo_assets (demo_lag_session n) in
  let lefts g := map (fun p => Rect.left (pipe_rect p)) (firstn 4 (pipe_group g)) in
  let rights g := map (fun p => Rect.right (pipe_rect p)) (firstn 4 (pipe_group g)) in
  let marks g := map scored (firstn 4 (pipe_group g)) in
  Rect.centerx (rect (wolf (at_pass 192%nat))) = 100 /\
  lefts (at_pass 192%nat) = [92; 92; 96; 96] /\
  rights (at_pass 192%nat) = [172; 172; 176; 176] /\
  marks (at_pass 192%nat) = [false; false; false; false] /\
  state (at_pass 211%nat) = PLAYING /\
  Rect.centerx (rect (wolf (at_pass 211%nat))) = 100 /\
  rights (at_pass 211%nat) = [96; 96; 100; 100] /\
  score (at_pass 210%nat) = 0 /\ score (at_pass 211%nat) = 1 /\
  marks (at_pass 211%nat) = [true; true; true; true] /\
  state (at_pass 212%nat) = PLAYING /\
  Rect.centerx (rect (wolf (at_pass 212%nat))) = 100 /\
  rights (at_pass 212%nat) = [92; 92; 96; 96] /\
  score (at_pass 212%nat) = 1 /\
  state (at_pass 240%nat) = PLAYING /\
  lefts (at_pass 240%nat) = [280; 280; 656; 656] /\
  marks (at_pass 240%nat) = [false; false; false; false] /\
  score (at_pass 240%nat) = 1.
Proof. vm_compute. repeat split. Qed.


(** * More of the program *)

(** ** The event queue and the main loop *)

Lemma handle_events_cases (A : Assets) (g : Game) (evs : list Event) (now : Z) :
  fst (Game.handle_events A g evs now) = g \/
  (state g = MENU /\ In MOUSEBUTTONDOWN evs /\
   fst (Game.handle_events A g evs now) = Game.started A g now).
Proof.
  destruct (state g) eqn:E.
  - destruct (handle_events_menu A evs now g E) as [H | [I H]]; auto.
  - left. apply handle_events_not_menu. congruence.
  - left. apply handle_events_not_menu. congruence.
Qed.

Lemma handle_events_running (A : Assets) (evs : list Event) (now : Z) :
  forall g, snd (Game.handle_events A g evs now) = negb (existsb is_quit evs).
Proof.
  induction evs as [|e rest IH]; intros g; [reflexivity|].
  destruct e; cbn [Game.handle_events existsb is_quit orb]; auto.
  destruct (state g); apply IH.
Qed.

Lemma handle_events_until_quit (A : Assets) (post : list Event) (now : Z) :
  forall (pre : list Event) (g : Game),
    existsb is_quit pre = false ->
    fst (Game.handle_events A g (pre ++ QUIT :: post) now)
    = fst (Game.handle_events A g pre now).
Proof.
  induction pre as [|e pre IH]; intros g H; [reflexivity|].
  cbn [existsb] in H. apply orb_false_iff in H. destruct H as [He H].
  destruct e; [discriminate He| |]; cbn [app Game.handle_events].
  - destruct (state g); apply IH; exact H.
  - apply IH. exact H.
Qed.

(** X1: [handle_events] returns False exactly when the queue holds a QUIT,
    and it returns at the first QUIT: whatever is queued behind it, a click
    included, has no effect on the game. *)
Theorem X1_quit_stops_the_queue
  (A : Assets) (g : Game) (pre post : list Event) (now : Z) :
  existsb is_quit pre = false ->
  Game.handle_events A g (pre ++ QUIT :: post) now
  = (fst (Game.handle_events A g pre now), false) /\
  snd (Game.handle_events A g pre now) = true /\
  forall evs, snd (Game.handle_events A g evs now)
              = negb (existsb is_quit evs).
Proof.
  intros H. split; [|split].
  - rewrite (surjective_pairing (Game.handle_events A g _ now)).
    rewrite handle_events_until_quit by exact H.
    rewrite handle_events_running, existsb_app. cbn [existsb is_quit].
    rewrite orb_true_r. reflexivity.
  - rewrite handle_events_running, H. reflexivity.
  - intros evs. apply handle_events_running.
Qed.

Lemma X1_quit_stops_the_queue_witness :
  existsb is_quit [OTHER_EVENT] = false /\
  Game.handle_events demo_assets (Game.__init__ demo_assets)
                     ([OTHER_EVENT] ++ QUIT :: [MOUSEBUTTONDOWN]) 1000
  = (Game.__init__ demo_assets, false).
Proof.
  split; [reflexivity|].
  exact (proj1 (X1_quit_stops_the_queue demo_assets (Game.__init__ demo_assets)
                  [OTHER_EVENT] [MOUSEBUTTONDOWN] 1000 eq_refl)).
Defined.

Lemma tick_running (A : Assets) (g : Game) (i : Input) :
  snd (Game.tick A g i) = negb (quits i).
Proof.
  unfold Game.tick, quits.
  pose proof (handle_events_running A (events i) (event_ticks i) g) as H.
  destruct (Game.handle_events A g (events i) (event_ticks i)) as [g1 r].
  exact H.
Qed.

Lemma run_from_cons (A : Assets) (g : Game) (i : Input) (rest : list Input) :
  Game.run_from A g (i :: rest) =
  if quits i then fst (Game.tick A g i)
  else Game.run_from A (fst (Game.tick A g i)) rest.
Proof.
  cbn [Game.run_from]. pose proof (tick_running A g i) as H.
  destruct (Game.tick A g i) as [g' r]. cbn [fst snd] in *. subst r.
  destruct (quits i); reflexivity.
Qed.

Lemma run_from_app (A : Assets) (l1 l2 : list Input) :
  forall g, existsb quits l1 = false ->
            Game.run_from A g (l1 ++ l2)
            = Game.run_from A (Game.run_from A g l1) l2.
Proof.
  induction l1 as [|i l1 IH]; intros g H; [reflexivity|].
  cbn [existsb] in H. apply orb_false_iff in H. destruct H as [Hi H].
  cbn [app]. rewrite !run_from_cons, Hi. apply IH. exact H.
Qed.

(** X2: the loop of [run] reads its inputs pass by pass until a pass sees
    QUIT; that pass still does its update, and nothing after it is read.
    Up to there, running a session in two parts is running it whole. *)
Theorem X2_run_stops_after_quit
  (A : Assets) (g : Game) (l1 : list Input) (i : Input) (rest l2 : list Input) :
  existsb quits l1 = false ->
  quits i = true ->
  Game.run_from A g (l1 ++ i :: rest)
  = Game.update A (fst (Game.handle_events A (Game.run_from A g l1)
                          (events i) (event_ticks i))) i /\
  Game.run_from A g (l1 ++ l2) = Game.run_from A (Game.run_from A g l1) l2.
Proof.
  intros H1 Hq. split; [|apply run_from_app; exact H1].
  rewrite run_from_app by exact H1. rewrite run_from_cons, Hq.
  unfold Game.tick.
  destruct (Game.handle_events A (Game.run_from A g l1) (events i)
              (event_ticks i)) as [g1 r].
  reflexivity.
Qed.

Lemma X2_run_stops_after_quit_witness :
  existsb quits (demo_session [] 3) = false /\
  quits (mkInput [QUIT] 1100 false (0, 0) 1100 60) = true /\
  Game.run_from demo_assets (Game.__init__ demo_assets)
    (demo_session [] 3 ++ mkInput [QUIT] 1100 false (0, 0) 1100 60
                          :: demo_session [] 80)
  = Game.run_from demo_assets (Game.__init__ demo_assets)
      (demo_session [] 3 ++ [mkInput [QUIT] 1100 false (0, 0) 1100 60]).
Proof.
  split; [reflexivity|]. split; [reflexivity|].
  rewrite (proj1 (X2_run_stops_after_quit demo_assets (Game.__init__ demo_assets)
                    (demo_session [] 3)
                    (mkInput [QUIT] 1100 false (0, 0) 1100 60)
                    (demo_session [] 80) [] eq_refl eq_refl)).
  rewrite (proj1 (X2_run_stops_after_quit demo_assets (Game.__init__ demo_assets)
                    (demo_session [] 3)
                    (mkInput [QUIT] 1100 false (0, 0) 1100 60)
                    [] [] eq_refl eq_refl)).
  reflexivity.
Defined.

(** Every state a session reaches satisfies what the first state satisfies
    and both halves of a pass keep. *)
Lemma run_from_invariant (A : Assets) (I : Game -> Prop) :
  (forall g evs now, I g -> I (fst (Game.handle_events A g evs now))) ->
  (forall g i, I g -> I (Game.update A g i)) ->
  forall inputs g, I g -> I (Game.run_from A g inputs).
Proof.
  intros He Hu. induction inputs as [|i rest IH]; intros g H; [exact H|].
  rewrite run_from_cons.
  assert (I (fst (Game.tick A g i))) as H1.
  { unfold Game.tick.
    pose proof (He g (events i) (event_ticks i) H) as H1.
    destruct (Game.handle_events A g (events i) (event_ticks i)) as [g1 r].
    apply Hu. exact H1. }
  destruct (quits i); [|apply IH]; exact H1.
Qed.

(** A session ends in the first state or right after an update. *)
Lemma run_cases (A : Assets) (inputs : list Input) :
  Game.run A inputs = Game.__init__ A \/
  exists h i, Game.run A inputs = Game.update A h i.
Proof.
  unfold Game.run. generalize (Game.__init__ A) as g.
  induction inputs as [|i rest IH]; intros g; [left; reflexivity|].
  right. rewrite run_from_cons.
  assert (exists h j, fst (Game.tick A g i) = Game.update A h j) as Ht.
  { unfold Game.tick.
    destruct (Game.handle_events A g (events i) (event_ticks i)) as [g1 r].
    exists g1, i. reflexivity. }
  destruct (quits i); [exact Ht|].
  destruct (IH (fst (Game.tick A g i))) as [E | E]; [|exact E].
  rewrite E. exact Ht.
Qed.

(** ** What a playing tick does to the rest of the game *)

Lemma before_collisions_other (A : Assets) (g : Game) (i : Input) :
  ground_scroll (Game.before_collisions A g i)
    = (if Z.abs (ground_scroll g - Config.SCROLL_SPEED) >? 35 then 0
       else ground_scroll g - Config.SCROLL_SPEED) /\
  restart_button (Game.before_collisions A g i) = restart_button g /\
  audio_manager (Game.before_collisions A g i) = audio_manager g.
Proof.
  unfold Game.before_collisions.
  destruct (Wolf.update A (wolf g) (state g) (mouse_pressed i)) as [w j].
  unfold Game._update_ground_scroll, Game._generate_pipes.
  destruct (_ >? Config.PIPE_FREQUENCY); cbn; auto.
Qed.

Lemma check_collisions_other (A : Assets) (g : Game) :
  ground_scroll (Game._check_collisions A g) = ground_scroll g /\
  restart_button (Game._check_collisions A g) = restart_button g /\
  audio_manager (Game._check_collisions A g)
    = (if existsb (collide_mask A (wolf g)) (pipe_group g)
          || Game.out_of_bounds (wolf g)
       then AudioManager.stop_music_with_effect (audio_manager g)
       else audio_manager g).
Proof.
  unfold Game._check_collisions.
  destruct (existsb _ _); [cbn; auto|].
  destruct (Game.out_of_bounds _); cbn; auto.
Qed.

Lemma update_playing_other (A : Assets) (g : Game) (i : Input) :
  let b := Game.before_collisions A g i in
  ground_scroll (Game._update_playing A g i)
    = (if Z.abs (ground_scroll g - Config.SCROLL_SPEED) >? 35 then 0
       else ground_scroll g - Config.SCROLL_SPEED) /\
  restart_button (Game._update_playing A g i) = restart_button g /\
  audio_manager (Game._update_playing A g i)
    = (if existsb (collide_mask A (wolf b)) (pipe_group b)
          || Game.out_of_bounds (wolf b)
       then AudioManager.stop_music_with_effect (audio_manager g)
       else audio_manager g).
Proof.
  cbv zeta. unfold Game._update_playing.
  destruct (update_score_keeps
              (Game._check_collisions A (Game.before_collisions A g i)))
    as (_ & _ & _ & -> & -> & ->).
  destruct (check_collisions_other A (Game.before_collisions A g i))
    as (-> & -> & ->).
  destruct (before_collisions_other A g i) as (-> & -> & ->).
  auto.
Qed.

Lemma update_game_over_other (A : Assets) (g : Game) (i : Input) :
  let g' := Game._update_game_over A g i in
  let r := Button.update (restart_button g) (mouse_pos i) (mouse_pressed i) in
  restart_button g' = fst r /\
  audio_manager g' = (if snd r then mkAudio false false else audio_manager g) /\
  ground_scroll g' = (if snd r then 0 else ground_scroll g) /\
  score g' = (if snd r then 0 else score g) /\
  pipe_passed g' = (if snd r then false else pipe_passed g).
Proof.
  cbv zeta. unfold Game._update_game_over.
  destruct (Wolf.update A (wolf g) (state g) (mouse_pressed i)) as [w j].
  cbn [Game.set_wolf restart_button].
  destruct (Button.update (restart_button g) (mouse_pos i) (mouse_pressed i))
    as [b clicked].
  destruct clicked; cbn; auto.
Qed.

(** ** The ground scroll *)

Lemma scroll_step_ok (s : Z) :
  scroll_ok s ->
  scroll_ok (if Z.abs (s - Config.SCROLL_SPEED) >? 35 then 0
             else s - Config.SCROLL_SPEED).
Proof.
  unfold scroll_ok, Config.SCROLL_SPEED. intros [Hr Hm].
  destruct (Z.gtb_spec (Z.abs (s - 4)) 35); [split; [lia | reflexivity]|].
  split; [Z.to_euclidean_division_equations; lia|].
  replace (s - 4) with (s + (-1) * 4) by lia.
  rewrite Z.mod_add by lia. exact Hm.
Qed.

Lemma update_scroll_ok (A : Assets) (g : Game) (i : Input) :
  scroll_ok (ground_scroll g) -> scroll_ok (ground_scroll (Game.update A g i)).
Proof.
  intros H. unfold Game.update. destruct (state g).
  - exact H.
  - destruct (update_playing_other A g i) as (-> & _).
    apply scroll_step_ok. exact H.
  - destruct (update_game_over_other A g i) as (_ & _ & -> & _).
    destruct (snd _); [split; [lia | reflexivity] | exact H].
Qed.

Lemma handle_events_other (A : Assets) (g : Game) (evs : list Event) (now : Z) :
  ground_scroll (fst (Game.handle_events A g evs now)) = ground_scroll g /\
  restart_button (fst (Game.handle_events A g evs now)) = restart_button g /\
  pipe_passed (fst (Game.handle_events A g evs now)) = pipe_passed g.
Proof.
  destruct (handle_events_cases A g evs now) as [-> | (_ & _ & ->)]; auto.
Qed.

(** X3: in every state a session reaches the ground scroll is one of
    0, -4, ..., -32 (so its magnitude never exceeds the 35 of the wrap
    test), and nine scroll steps bring it back to where it was. *)
Theorem X3_ground_scroll_cycles (A : Assets) (inputs : list Input) :
  let g := Game.run A inputs in
  -32 <= ground_scroll g <= 0 /\
  ground_scroll g mod Config.SCROLL_SPEED = 0 /\
  ground_scroll (Nat.iter 9 Game._update_ground_scroll g) = ground_scroll g.
Proof.
  cbv zeta.
  assert (scroll_ok (ground_scroll (Game.run A inputs))) as [Hr Hm].
  { unfold Game.run.
    apply (run_from_invariant A (fun g => scroll_ok (ground_scroll g))).
    - intros g evs now H.
      destruct (handle_events_other A g evs now) as (-> & _). exact H.
    - intros g i. apply update_scroll_ok.
    - split; [cbn; lia | reflexivity]. }
  split; [exact Hr|]. split; [exact Hm|].
  assert (exists k, 0 <= k <= 8 /\ ground_scroll (Game.run A inputs) = -4 * k)
    as (k & Hk & E).
  { exists (- (ground_scroll (Game.run A inputs) / 4)).
    pose proof (Z.div_mod (ground_scroll (Game.run A inputs)) 4). lia. }
  destruct (Game.run A inputs) as [a s sc gs lt ps w rb pp].
  cbn [ground_scroll] in *. subst gs.
  assert (k = 0 \/ k = 1 \/ k = 2 \/ k = 3 \/ k = 4 \/ k = 5 \/ k = 6
          \/ k = 7 \/ k = 8) as Hc by lia.
  repeat (destruct Hc as [-> | Hc]; [reflexivity|]). subst k. reflexivity.
Qed.

(** ** The score *)

Lemma update_score_step (A : Assets) (g : Game) (i : Input) :
  score (Game.update A g i) =
  match state g with
  | MENU => score g
  | PLAYING =>
      score g + (if scores_now (Game.before_collisions A g i) then 1 else 0)
  | GAME_OVER =>
      if snd (Button.update (restart_button g) (mouse_pos i) (mouse_pressed i))
      then 0 else score g
  end.
Proof.
  unfold Game.update. destruct (state g).
  - reflexivity.
  - unfold Game._update_playing.
    rewrite update_score_score, scores_now_before_check.
    destruct (check_collisions_keeps A (Game.before_collisions A g i))
      as (_ & _ & -> & _).
    destruct (before_collisions_keeps A g i) as (_ & _ & -> & _).
    reflexivity.
  - apply update_game_over_other.
Qed.

(** X4: an update leaves the score, or adds exactly 1 to it (only while
    playing), or sets it to 0 (only on a restart, which leaves GAME_OVER for
    MENU); [handle_events] never changes it; and in every state a session
    reaches the score is at least 0. *)
Theorem X4_score_steps
  (A : Assets) (g : Game) (i : Input) (evs : list Event) (now : Z)
  (inputs : list Input) :
  (score (Game.update A g i) = score g \/
   (score (Game.update A g i) = score g + 1 /\ state g = PLAYING) \/
   (score (Game.update A g i) = 0 /\ state g = GAME_OVER /\
    state (Game.update A g i) = MENU)) /\
  score (fst (Game.handle_events A g evs now)) = score g /\
  0 <= score (Game.run A inputs).
Proof.
  split; [|split].
  - rewrite update_score_step. destruct (state g) eqn:E.
    + left. reflexivity.
    + destruct (scores_now _); [right; left; split; [reflexivity | reflexivity]
                               | left; lia].
    + pose proof (update_game_over_spec A g i) as H. cbv zeta in H.
      unfold Game.update. rewrite E.
      destruct (snd (Button.update _ _ _)).
      * right. right. destruct H as (H & _). auto.
      * left. reflexivity.
  - apply handle_events_wolf.
  - unfold Game.run.
    apply (run_from_invariant A (fun g => 0 <= score g)).
    + intros h e n H. destruct (handle_events_wolf A h e n) as (_ & _ & ->).
      exact H.
    + intros h j H. rewrite update_score_step.
      destruct (state h); [exact H | destruct (scores_now _); lia
                          | destruct (snd _); lia].
    + cbn. lia.
Qed.

(** ** Music *)

Lemma update_music_ok (A : Assets) (g : Game) (i : Input) :
  music_ok A g -> music_ok A (Game.update A g i).
Proof.
  intros [Hp Hm]. unfold music_ok, Game.update.
  destruct (state g) eqn:E.
  - rewrite E. auto.
  - rewrite update_playing_state.
    destruct (update_playing_other A g i) as (_ & _ & ->).
    rewrite E. unfold AudioManager.stop_music_with_effect.
    destruct (existsb _ _ || _).
    + destruct (music_playing (audio_manager g)) eqn:Em; cbn;
        [auto | rewrite Em; auto].
    + auto.
  - pose proof (update_game_over_spec A g i) as H. cbv zeta in H.
    destruct (update_game_over_other A g i) as (_ & -> & _).
    destruct (snd (Button.update _ _ _)).
    + destruct H as (-> & _). cbn. auto.
    + destruct H as (-> & _). rewrite E. auto.
Qed.

Lemma handle_events_music_ok (A : Assets) (g : Game) (evs : list Event) (now : Z) :
  music_ok A g -> music_ok A (fst (Game.handle_events A g evs now)).
Proof.
  intros [Hp Hm].
  destruct (handle_events_cases A g evs now) as [-> | (E & _ & ->)];
    [split; assumption|].
  unfold music_ok. cbn [Game.started audio_manager state is_playing].
  rewrite E in Hm. cbn in Hm.
  unfold AudioManager.start_music. rewrite Hp, Hm. cbn.
  destruct (music_loaded A); cbn; auto.
Qed.

(** X5: in every state a session reaches the music is never paused, and it
    is flagged as playing exactly when the state is PLAYING and a music file
    was loaded: the start click starts it, the collision that ends the run
    stops it. *)
Theorem X5_music_follows_the_state (A : Assets) (inputs : list Input) :
  let g := Game.run A inputs in
  music_paused (audio_manager g) = false /\
  music_playing (audio_manager g) = is_playing (state g) && music_loaded A.
Proof.
  cbv zeta. unfold Game.run.
  apply (run_from_invariant A (music_ok A)).
  - intros g evs now. apply handle_events_music_ok.
  - intros g i. apply update_music_ok.
  - split; reflexivity.
Qed.

Lemma audio_call_ok (A : Assets) (a : AudioManager) (c : AudioCall) :
  implb (music_paused a) (music_playing a) = true ->
  implb (music_paused (audio_call A a c)) (music_playing (audio_call A a c))
  = true.
Proof.
  destruct a as [pl pa], c; cbn;
    unfold AudioManager.start_music, AudioManager.stop_music_with_effect,
    AudioManager.pause_music; cbn;
    destruct pl, pa, (music_loaded A); cbn; auto.
Qed.

(** X6: whatever sequence of start, stop and pause calls is made on a fresh
    audio manager, it is never paused without playing; [start_music] always
    leaves it unpaused; a pause followed by a start gives back a playing,
    unpaused manager; and stopping leaves it not playing. *)
Theorem X6_audio_flags (A : Assets) (cs : list AudioCall) (a : AudioManager) :
  implb (music_paused (audio_calls A cs)) (music_playing (audio_calls A cs))
  = true /\
  music_paused (AudioManager.start_music A a) = false /\
  music_playing (AudioManager.stop_music_with_effect a) = false /\
  (let p := audio_calls A cs in
   if music_playing p
   then AudioManager.start_music A (AudioManager.pause_music p)
        = mkAudio true false
   else AudioManager.pause_music p = p).
Proof.
  split; [|split; [|split]].
  - unfold audio_calls. rewrite <- (rev_involutive cs).
    induction (rev cs) as [|c l IH]; [reflexivity|].
    cbn [rev]. rewrite fold_left_app. cbn [fold_left].
    apply audio_call_ok. exact IH.
  - destruct a as [pl pa]. unfold AudioManager.start_music. cbn.
    destruct pl, pa, (music_loaded A); reflexivity.
  - destruct a as [pl pa]. unfold AudioManager.stop_music_with_effect. cbn.
    destruct pl; reflexivity.
  - cbv zeta. destruct (audio_calls A cs) as [pl pa].
    unfold AudioManager.start_music, AudioManager.pause_music. cbn.
    destruct pl; reflexivity.
Qed.

(** ** The menu *)

Lemma reset_at_rest (g : Game) : at_rest (wolf (Game._reset_game g)).
Proof.
  destruct (reset_game_spec g)
    as (_ & _ & _ & H4 & H5 & H6 & H7 & H8 & _).
  repeat split; assumption.
Qed.

Lemma update_menu_ok (A : Assets) (g : Game) (i : Input) :
  menu_ok g -> menu_ok (Game.update A g i).
Proof.
  intros H. unfold menu_ok, Game.update. destruct (state g) eqn:E.
  - intros _. apply H. exact E.
  - rewrite update_playing_state, E.
    destruct (existsb _ _ || _); discriminate.
  - unfold Game._update_game_over.
    destruct (Wolf.update A (wolf g) (state g) (mouse_pressed i)) as [w j].
    cbn [Game.set_wolf restart_button].
    destruct (Button.update (restart_button g) (mouse_pos i) (mouse_pressed i))
      as [b clicked].
    destruct clicked.
    + intros _.
      match goal with
      | |- context [Game._reset_game ?h] =>
          pose proof (reset_at_rest h) as Hr
      end.
      cbn [Game._reset_game score pipe_group pipe_passed ground_scroll].
      repeat split; try reflexivity; apply Hr.
    + cbn. rewrite E. discriminate.
Qed.

Lemma run_menu_ok (A : Assets) (inputs : list Input) :
  menu_ok (Game.run A inputs).
Proof.
  unfold Game.run. apply (run_from_invariant A menu_ok).
  - intros g evs now H.
    destruct (handle_events_cases A g evs now) as [-> | (_ & _ & ->)];
      [exact H|].
    intros E. discriminate E.
  - intros g i. apply update_menu_ok.
  - intros _. repeat split. apply initial_wolf_center.
Qed.

(** X7: whenever a session is in MENU (at its start, or after a restart),
    the score is 0, there is no pipe, the scoring flag and the ground scroll
    are cleared, and the wolf is at rest: velocity 0, input flag and
    animation cleared, centred on (100, 468). *)
Theorem X7_menu_is_a_fresh_game (A : Assets) (inputs : list Input) :
  let g := Game.run A inputs in
  state g = MENU ->
  score g = 0 /\ pipe_group g = [] /\ pipe_passed g = false /\
  ground_scroll g = 0 /\
  velocity (wolf g) = 0%Q /\ is_clicked (wolf g) = false /\
  image_index (wolf g) = 0%nat /\ animation_counter (wolf g) = 0 /\
  Rect.center (rect (wolf g)) = (100, Config.SCREEN_HEIGHT / 2).
Proof.
  cbv zeta. intros Hs.
  destruct (run_menu_ok A inputs Hs)
    as (H1 & H2 & H3 & H4 & H5 & H6 & H7 & H8 & H9).
  repeat split; assumption.
Qed.

Lemma X7_menu_is_a_fresh_game_witness :
  state (Game.run demo_assets (demo_session [] 80 ++ [demo_restart_click]))
    = MENU /\
  pipe_group (Game.run demo_assets (demo_session [] 80 ++ [demo_restart_click]))
    = [].
Proof.
  split; [reflexivity|].
  exact (proj1 (proj2 (X7_menu_is_a_fresh_game demo_assets
                         (demo_session [] 80 ++ [demo_restart_click])
                         eq_refl))).
Defined.

(** X8: the click that starts the game is also the first flap.  From the
    MENU of a session, a pass whose queue brings a MOUSEBUTTONDOWN before
    any QUIT, with the left button down, ends with the wolf's velocity at
    the jump impulse and its input flag set, the state no longer MENU, and
    the wolf, if its bottom edge was above the ground line, still centred
    on (100, 468). *)
Theorem X8_start_click_flaps
  (A : Assets) (inputs : list Input) (i : Input) (pre post : list Event) :
  let g := Game.run A inputs in
  let g' := fst (Game.tick A g i) in
  state g = MENU ->
  events i = pre ++ MOUSEBUTTONDOWN :: post ->
  forallb (fun e => match e with OTHER_EVENT => true | _ => false end) pre
    = true ->
  mouse_pressed i = true ->
  velocity (wolf g') = Config.JUMP_STRENGTH /\
  is_clicked (wolf g') = true /\
  state g' <> MENU /\
  last_pipe_time g' = (if ticks i >? event_ticks i then ticks i
                       else event_ticks i - Config.PIPE_FREQUENCY) /\
  (Rect.bottom (rect (wolf g)) < Config.SCREEN_HEIGHT - Config.GROUND_HEIGHT ->
   Rect.center (rect (wolf g')) = (100, Config.SCREEN_HEIGHT / 2)).
Proof.
  intros g g' Hs He Hp Hm.
  destruct (run_menu_ok A inputs Hs)
    as (_ & _ & _ & _ & Hv & Hc & _ & _ & Hce).
  fold g in Hv, Hc, Hce.
  assert (g' = Game.update A (Game.started A g (event_ticks i)) i) as Eg.
  { unfold g', Game.tick. rewrite He.
    pose proof (handle_events_first_click A post (event_ticks i) pre g Hs Hp)
      as H.
    destruct (Game.handle_events A g (pre ++ MOUSEBUTTONDOWN :: post)
                (event_ticks i)) as [g1 r].
    cbn [fst] in *. subst g1. reflexivity. }
  set (s := Game.started A g (event_ticks i)) in *.
  assert (g' = Game._update_playing A s i) as Eu by (rewrite Eg; reflexivity).
  destruct (update_playing_fields A (wolf g) (mouse_pressed i))
    as (_ & Hcl & Hve & Hcen).
  rewrite Hm, Hc in *. cbn [andb negb] in Hve.
  assert (wolf g' = fst (Wolf.update A (wolf g) PLAYING true)) as Ew
      by (rewrite Eu, update_playing_wolf; subst s; cbn [Game.started wolf state];
          rewrite Hm; reflexivity).
  rewrite Ew. repeat split.
  - exact Hve.
  - exact Hcl.
  - rewrite Eu, update_playing_state. subst s. cbn [Game.started state].
    destruct (existsb _ _ || _); discriminate.
  - rewrite Eg, update_time. subst s. cbn [Game.started state last_pipe_time].
    assert ((ticks i - (event_ticks i - Config.PIPE_FREQUENCY)
             >? Config.PIPE_FREQUENCY) = (ticks i >? event_ticks i)) as ->.
    { rewrite !Z.gtb_ltb.
      destruct (Z.ltb_spec (event_ticks i) (ticks i)),
               (Z.ltb_spec Config.PIPE_FREQUENCY
                  (ticks i - (event_ticks i - Config.PIPE_FREQUENCY)));
        try reflexivity; lia. }
    reflexivity.
  - intros Hb. rewrite Hcen, <- Hce.
    unfold Wolf._apply_physics. cbn [rect]. rewrite Hv.
    destruct (Z.ltb_spec (Rect.bottom (rect (wolf g)))
                (Config.SCREEN_HEIGHT - Config.GROUND_HEIGHT)); [|lia].
    change (py_int (py_min (float_add 0 Config.GRAVITY) Config.MAX_FALL_SPEED))
      with 0.
    unfold Rect.center, Rect.centerx, Rect.centery, Rect.set_y.
    cbn [rect_x rect_y rect_w rect_h]. f_equal. lia.
Qed.

Lemma X8_start_click_flaps_witness :
  state (Game.run demo_assets []) = MENU /\
  velocity (wolf (fst (Game.tick demo_assets (Game.run demo_assets [])
                         (demo_input [MOUSEBUTTONDOWN] true 1000))))
  = Config.JUMP_STRENGTH.
Proof.
  split; [reflexivity|].
  exact (proj1 (X8_start_click_flaps demo_assets []
                  (demo_input [MOUSEBUTTONDOWN] true 1000) [] []
                  eq_refl eq_refl eq_refl eq_refl)).
Defined.

(** ** Between two passes of a running game *)

Lemma set_scored_at_looks (l : list Pipe) :
  forall k, map (fun p => (flipped p, pipe_rect p)) (set_scored_at k l)
            = map (fun p => (flipped p, pipe_rect p)) l.
Proof.
  induction l as [|q l IH]; intros [|k]; cbn; try reflexivity.
  rewrite IH. reflexivity.
Qed.

Lemma mark_pair_looks (c : Z) (l : list Pipe) :
  map (fun p => (flipped p, pipe_rect p)) (mark_pair c l)
  = map (fun p => (flipped p, pipe_rect p)) l.
Proof.
  unfold mark_pair. rewrite map_map. apply map_ext.
  intros p. destruct (Z.abs (cx p - c) <? 10); reflexivity.
Qed.

(** The score update changes no pipe's image or place. *)
Lemma update_score_looks (g : Game) :
  map (fun p => (flipped p, pipe_rect p)) (pipe_group (Game._update_score g))
  = map (fun p => (flipped p, pipe_rect p)) (pipe_group g).
Proof.
  unfold Game._update_score.
  destruct (min_centerx (pipe_group g)) as [[i fp]|]; [|reflexivity].
  repeat match goal with
         | |- context [if ?c then _ else _] => destruct c
         end; cbn [pipe_group]; try reflexivity.
  rewrite mark_pair_looks, set_scored_at_looks. reflexivity.
Qed.

(** X9: between two passes of a game that is PLAYING the wolf is safe: its
    top edge is on the screen, its bottom edge is strictly above the ground
    line, and its mask overlaps no pipe of the group. *)
Theorem X9_playing_means_safe (A : Assets) (inputs : list Input) :
  let g := Game.run A inputs in
  state g = PLAYING ->
  0 <= Rect.top (rect (wolf g)) /\
  Rect.bottom (rect (wolf g)) < Config.SCREEN_HEIGHT - Config.GROUND_HEIGHT /\
  forall p, In p (pipe_group g) -> collide_mask A (wolf g) p = false.
Proof.
  cbv zeta. intros Hs.
  destruct (run_cases A inputs) as [E | (h & i & E)];
    rewrite E in *; [discriminate Hs|].
  unfold Game.update in *. destruct (state h) eqn:Eh.
  - congruence.
  - rewrite update_playing_state, Eh in Hs.
    set (b := Game.before_collisions A h i) in *.
    destruct (existsb (collide_mask A (wolf b)) (pipe_group b)
              || Game.out_of_bounds (wolf b)) eqn:Ec; [discriminate Hs|].
    apply orb_false_iff in Ec. destruct Ec as [Ee Eo].
    assert (wolf (Game._update_playing A h i) = wolf b) as Ew
        by (rewrite update_playing_wolf; symmetry;
            apply before_collisions_keeps).
    rewrite Ew.
    assert (~ (Rect.top (rect (wolf b)) < 0 \/
               Rect.bottom (rect (wolf b))
               >= Config.SCREEN_HEIGHT - Config.GROUND_HEIGHT)) as Hb
        by (rewrite <- out_of_bounds_iff; congruence).
    split; [lia|]. split; [lia|].
    intros p Hin.
    assert (In (flipped p, pipe_rect p)
               (map (fun q => (flipped q, pipe_rect q)) (pipe_group b))) as Hq.
    { unfold Game._update_playing in Hin. fold b in Hin.
      rewrite <- (proj1 (proj2 (check_collisions_keeps A b))).
      rewrite <- update_score_looks.
      apply (in_map (fun q => (flipped q, pipe_rect q))). exact Hin. }
    apply in_map_iff in Hq. destruct Hq as (q & Eq & Hq).
    injection Eq as Ef Er.
    unfold collide_mask. rewrite <- Ef, <- Er.
    destruct (mask_overlap A (image (wolf b)) (rect (wolf b)) (flipped q)
                (pipe_rect q)) eqn:Em; [|reflexivity].
    assert (existsb (collide_mask A (wolf b)) (pipe_group b) = true) as Hx
        by (apply existsb_exists; exists q; split; [exact Hq | exact Em]).
    congruence.
  - pose proof (update_game_over_spec A h i) as H. cbv zeta in H.
    destruct (snd (Button.update _ _ _)); destruct H as (H & _); congruence.
Qed.

Lemma X9_playing_means_safe_witness :
  state (Game.run demo_assets demo_pass_history) = PLAYING /\
  0 <= Rect.top (rect (wolf (Game.run demo_assets demo_pass_history))).
Proof.
  split; [reflexivity|].
  exact (proj1 (X9_playing_means_safe demo_assets demo_pass_history eq_refl)).
Defined.

(** ** The wolf's image *)

Lemma set_image_fits (A : Assets) (w : Wolf) (i : Image) :
  fits_image A (Wolf.set_image A w i) /\ image (Wolf.set_image A w i) = i.
Proof.
  unfold fits_image, Wolf.set_image, Rect.set_center, Rect.of_size.
  cbn [rect image rect_w rect_h]. split; [|reflexivity].
  destruct (image_size A i); reflexivity.
Qed.

Lemma wolf_update_fits (A : Assets) (w : Wolf) (s : GameState) (p : bool) :
  fits_image A w -> fits_image A (fst (Wolf.update A w s p)).
Proof.
  intros H. destruct s; cbn [Wolf.update fst].
  - exact H.
  - destruct (Wolf._handle_input (Wolf._apply_physics w) p) as [w1 j].
    cbn [fst]. apply set_image_fits.
  - apply set_image_fits.
Qed.

Lemma update_fits (A : Assets) (g : Game) (i : Input) :
  fits_image A (wolf g) -> fits_image A (wolf (Game.update A g i)).
Proof.
  intros H. unfold Game.update. destruct (state g) eqn:E.
  - exact H.
  - rewrite update_playing_wolf. apply wolf_update_fits. exact H.
  - unfold Game._update_game_over.
    pose proof (wolf_update_fits A (wolf g) (state g) (mouse_pressed i) H) as Hw.
    destruct (Wolf.update A (wolf g) (state g) (mouse_pressed i)) as [w j].
    cbn [fst] in Hw. cbn [Game.set_wolf restart_button].
    destruct (Button.update (restart_button g) (mouse_pos i) (mouse_pressed i))
      as [b clicked].
    destruct clicked; [|exact Hw].
    unfold fits_image in *. cbn. exact Hw.
Qed.

(** X10: in every state a session reaches, the wolf's centre is on x = 100
    (nothing ever moves it sideways; rotating the sprite re-centres it) and
    its rect has exactly the size of its current image. *)
Theorem X10_wolf_rect_follows_image (A : Assets) (inputs : list Input) :
  let w := wolf (Game.run A inputs) in
  Rect.centerx (rect w) = 100 /\
  (rect_w (rect w), rect_h (rect w)) = image_size A (image w).
Proof.
  cbv zeta. split; [apply run_well_formed|].
  unfold Game.run.
  apply (run_from_invariant A (fun g => fits_image A (wolf g))).
  - intros g evs now H.
    destruct (handle_events_wolf A g evs now) as (-> & _). exact H.
  - intros g i. apply update_fits.
  - unfold fits_image. cbn. destruct (frame_size A 0%nat); reflexivity.
Qed.

Lemma angle_in_range (v : Q) :
  let a := py_max (-90 # 1) (py_min (45 # 1) (float_mul v (-2 # 1))) in
  (-90 # 1 <= a)%Q /\ (a <= 45 # 1)%Q /\
  ((Config.JUMP_STRENGTH <= v)%Q -> (v <= Config.MAX_FALL_SPEED)%Q ->
   (a == (-2 # 1) * v)%Q /\ (-16 # 1 <= a)%Q /\ (a <= 20 # 1)%Q).
Proof.
  cbv zeta. unfold py_max, py_min, float_mul.
  split; [apply Q.le_max_l|]. split.
  - apply Q.max_lub; [discriminate | apply Q.le_min_l].
  - intros Hl Hu. unfold Config.JUMP_STRENGTH, Config.MAX_FALL_SPEED in *.
    assert (Qred (v * (-2 # 1)) == (-2 # 1) * v)%Q as E
        by (rewrite Qred_correct; ring).
    assert (-16 # 1 <= (-2 # 1) * v)%Q as H1.
    { destruct v as [n d]. unfold Qle, Qmult in *.
      cbn [Qnum Qden Pos.mul] in *. lia. }
    assert ((-2 # 1) * v <= 20 # 1)%Q as H2.
    { destruct v as [n d]. unfold Qle, Qmult in *.
      cbn [Qnum Qden Pos.mul] in *. lia. }
    assert (Qmax (-90 # 1) (Qmin (45 # 1) (Qred (v * (-2 # 1))))
            == (-2 # 1) * v)%Q as Ea.
    { rewrite Q.max_r.
      - rewrite Q.min_r; [exact E|]. rewrite E.
        apply Qle_trans with (20 # 1)%Q; [exact H2 | discriminate].
      - rewrite Q.min_r; rewrite E.
        + apply Qle_trans with (-16 # 1)%Q; [discriminate | exact H1].
        + apply Qle_trans with (20 # 1)%Q; [exact H2 | discriminate]. }
    split; [exact Ea|]. rewrite Ea. split; assumption.
Qed.

(** X11: after a playing update the wolf's image is the current animation
    frame rotated by an angle of -90 to 45 degrees; for the velocities a
    session can reach that angle is exactly -2 times the velocity the update
    leaves, between -16 and 20 degrees, so neither clamp is ever active.
    After an update in GAME_OVER the image is the frame rotated by -90. *)
Theorem X11_rotation_angle (A : Assets) (inputs : list Input) (w : Wolf) (p : bool) :
  (exists a,
      image (fst (Wolf.update A w PLAYING p))
      = Rotated (image_index (fst (Wolf.update A w PLAYING p))) a /\
      (-90 # 1 <= a)%Q /\ (a <= 45 # 1)%Q) /\
  (let r := fst (Wolf.update A (wolf (Game.run A inputs)) PLAYING p) in
   exists a,
     image r = Rotated (image_index r) a /\
     (a == (-2 # 1) * velocity r)%Q /\ (-16 # 1 <= a)%Q /\ (a <= 20 # 1)%Q) /\
  image (fst (Wolf.update A w GAME_OVER p))
  = Rotated (image_index w) (-90 # 1).
Proof.
  assert (forall u,
             let r := fst (Wolf.update A u PLAYING p) in
             image r = Rotated (image_index r)
                         (py_max (-90 # 1)
                            (py_min (45 # 1)
                               (float_mul (velocity r) (-2 # 1))))) as Hi.
  { intros u. cbv zeta. cbn [Wolf.update].
    destruct (Wolf._handle_input (Wolf._apply_physics u) p) as [w1 j].
    cbn [fst]. unfold Wolf._rotate_sprite, Wolf.set_image.
    cbn [image image_index velocity]. reflexivity. }
  split; [|split].
  - eexists. split; [apply Hi|].
    destruct (angle_in_range
                (velocity (fst (Wolf.update A w PLAYING p)))) as (H1 & H2 & _).
    split; assumption.
  - cbv zeta. eexists. split; [apply Hi|].
    assert (velocity_in_range (wolf (Game.run A inputs))) as Hr
        by (apply run_from_in_range; split; discriminate).
    apply (wolf_update_in_range A _ PLAYING p) in Hr. destruct Hr as [Hl Hu].
    destruct (angle_in_range
                (velocity (fst (Wolf.update A (wolf (Game.run A inputs))
                                  PLAYING p)))) as (_ & _ & H).
    apply H; assumption.
  - reflexivity.
Qed.

(** ** The animation *)

Lemma handle_input_anim (w : Wolf) (p : bool) :
  anim_state (fst (Wolf._handle_input w p)) = anim_state w.
Proof.
  unfold Wolf._handle_input. destruct p, (is_clicked w); reflexivity.
Qed.

Lemma wolf_update_anim (A : Assets) (w : Wolf) (s : GameState) (p : bool) :
  anim_state (fst (Wolf.update A w s p)) =
  match s with PLAYING => anim_step (anim_state w) | _ => anim_state w end.
Proof.
  destruct s; cbn [Wolf.update fst]; try reflexivity.
  pose proof (handle_input_anim (Wolf._apply_physics w) p) as H.
  destruct (Wolf._handle_input (Wolf._apply_physics w) p) as [w1 j].
  cbn [fst] in *.
  unfold Wolf._rotate_sprite, Wolf.set_image, anim_state in *.
  cbn [animation_counter image_index].
  unfold Wolf._animate, anim_step. injection H as -> ->.
  cbn [fst snd Wolf._apply_physics animation_counter image_index].
  destruct (animation_counter w + 1 >? Config.FLAP_COOLDOWN); reflexivity.
Qed.

Lemma anim_step_ok (c : Z) (k : nat) :
  0 <= c <= Config.FLAP_COOLDOWN -> (k < Wolf.n_images)%nat ->
  0 <= fst (anim_step (c, k)) <= Config.FLAP_COOLDOWN /\
  (snd (anim_step (c, k)) < Wolf.n_images)%nat.
Proof.
  unfold anim_step, Config.FLAP_COOLDOWN, Wolf.n_images. cbn [fst snd].
  intros Hc Hk. destruct (Z.gtb_spec (c + 1) 5); cbn [fst snd].
  - split; [lia|]. apply Nat.mod_upper_bound. discriminate.
  - split; [lia | exact Hk].
Qed.

Lemma wolf_ticks_anim (A : Assets) (presses : list bool) :
  forall w, anim_state (fst (wolf_ticks A w presses))
            = Nat.iter (length presses) anim_step (anim_state w).
Proof.
  induction presses as [|p rest IH]; intros w; [reflexivity|].
  cbn [wolf_ticks length].
  pose proof (wolf_update_anim A w PLAYING p) as H.
  destruct (Wolf.update A w PLAYING p) as [w1 j]. cbn [fst] in H.
  specialize (IH w1). destruct (wolf_ticks A w1 rest) as [w2 js].
  cbn [fst] in *. rewrite IH, H. symmetry. apply Nat.iter_succ_r.
Qed.

Lemma update_anim_ok (A : Assets) (g : Game) (i : Input) :
  anim_ok (wolf g) -> anim_ok (wolf (Game.update A g i)).
Proof.
  intros H. unfold Game.update. destruct (state g) eqn:E.
  - exact H.
  - rewrite update_playing_wolf.
    pose proof (wolf_update_anim A (wolf g) (state g) (mouse_pressed i)) as Ha.
    rewrite E in *. destruct H as [Hc Hk].
    pose proof (anim_step_ok _ _ Hc Hk) as Hs.
    unfold anim_ok. unfold anim_state in Ha at 1 2.
    rewrite <- Ha in Hs. exact Hs.
  - unfold Game._update_game_over.
    pose proof (wolf_update_anim A (wolf g) (state g) (mouse_pressed i)) as Ha.
    rewrite E in *.
    destruct (Wolf.update A (wolf g) GAME_OVER (mouse_pressed i)) as [w j].
    cbn [fst] in Ha. cbn [Game.set_wolf restart_button].
    destruct (Button.update (restart_button g) (mouse_pos i) (mouse_pressed i))
      as [b clicked].
    destruct clicked.
    + unfold anim_ok, Config.FLAP_COOLDOWN, Wolf.n_images. cbn. lia.
    + unfold anim_ok, anim_state in *. cbn [Game.set_restart_button
        Game.set_wolf wolf].
      injection Ha as -> ->. exact H.
Qed.

(** X12: in every state a session reaches the animation counter is between
    0 and FLAP_COOLDOWN and the frame index is below 3; from such a state,
    six playing updates in a row, whatever the button does, leave the
    counter where it was and move the animation one frame on, cyclically:
    each frame is shown for six ticks. *)
Theorem X12_animation_cycle
  (A : Assets) (inputs : list Input) (p1 p2 p3 p4 p5 p6 : bool) :
  let w := wolf (Game.run A inputs) in
  let w' := fst (wolf_ticks A w [p1; p2; p3; p4; p5; p6]) in
  0 <= animation_counter w <= Config.FLAP_COOLDOWN /\
  (image_index w < 3)%nat /\
  animation_counter w' = animation_counter w /\
  image_index w' = Nat.modulo (image_index w + 1) 3.
Proof.
  cbv zeta.
  assert (anim_ok (wolf (Game.run A inputs))) as [Hc Hk].
  { unfold Game.run.
    apply (run_from_invariant A (fun g => anim_ok (wolf g))).
    - intros g evs now H.
      destruct (handle_events_wolf A g evs now) as (-> & _). exact H.
    - intros g i. apply update_anim_ok.
    - unfold anim_ok, Config.FLAP_COOLDOWN, Wolf.n_images. cbn. lia. }
  split; [exact Hc|]. split; [exact Hk|].
  pose proof (wolf_ticks_anim A [p1; p2; p3; p4; p5; p6]
                (wolf (Game.run A inputs))) as H.
  unfold anim_state in H. cbn [length] in H.
  unfold Config.FLAP_COOLDOWN in Hc.
  set (c := animation_counter (wolf (Game.run A inputs))) in *.
  set (k := image_index (wolf (Game.run A inputs))) in *.
  assert (Nat.iter 6 anim_step (c, k) = (c, Nat.modulo (k + 1) 3)) as E.
  { assert (c = 0 \/ c = 1 \/ c = 2 \/ c = 3 \/ c = 4 \/ c = 5) as Hcase by lia.
    clearbody c k.
    repeat (destruct Hcase as [-> | Hcase]; [reflexivity|]).
    subst c. reflexivity. }
  rewrite E in H.
  split; [exact (f_equal fst H) | exact (f_equal snd H)].
Qed.

(** ** Falling *)

Lemma wolf_ticks_released (A : Assets) (n : nat) :
  forall w, fst (wolf_ticks A w (repeat false (S n)))
            = fst (wolf_ticks A (fst (Wolf.update A w PLAYING false))
                              (repeat false n)).
Proof.
  intros w. cbn [repeat wolf_ticks].
  destruct (Wolf.update A w PLAYING false) as [w1 j]. cbn [fst].
  destruct (wolf_ticks A w1 (repeat false n)) as [w2 js]. reflexivity.
Qed.

Lemma min_add_clamped (a m c : Q) :
  (0 <= c)%Q -> (Qmin (Qmin a m + c) m == Qmin (a + c) m)%Q.
Proof.
  intros Hc. destruct (Qlt_le_dec m a) as [Hlt | Hle].
  - assert (m <= a)%Q as Hma by (apply Qlt_le_weak; exact Hlt).
    rewrite (Q.min_r a m Hma).
    rewrite Q.min_r.
    + rewrite Q.min_r; [reflexivity|].
      apply Qle_trans with (a + 0)%Q; [rewrite Qplus_0_r; exact Hma|].
      apply Qplus_le_compat; [apply Qle_refl | exact Hc].
    + apply Qle_trans with (m + 0)%Q; [rewrite Qplus_0_r; apply Qle_refl|].
      apply Qplus_le_compat; [apply Qle_refl | exact Hc].
  - rewrite (Q.min_l a m Hle). reflexivity.
Qed.

Lemma released_velocity (A : Assets) (n : nat) :
  forall w,
    (velocity w <= Config.MAX_FALL_SPEED)%Q ->
    (velocity (fst (wolf_ticks A w (repeat false n)))
     == Qmin (velocity w + inject_Z (Z.of_nat n) * Config.GRAVITY)
             Config.MAX_FALL_SPEED)%Q.
Proof.
  induction n as [|n IH]; intros w Hw.
  - cbn [repeat wolf_ticks fst Z.of_nat].
    rewrite Qmult_0_l, Qplus_0_r. symmetry. apply Q.min_l. exact Hw.
  - rewrite wolf_ticks_released.
    destruct (update_playing_fields A w false) as (_ & _ & Hv & _).
    cbn [andb] in Hv. rewrite apply_physics_velocity in Hv.
    rewrite IH by (rewrite Hv; apply Q.le_min_r).
    rewrite Hv. unfold py_min. rewrite float_add_eq.
    rewrite min_add_clamped.
    + apply Q.min_compat; [|reflexivity].
      rewrite Nat2Z.inj_succ. unfold Z.succ. rewrite inject_Z_plus. ring.
    + unfold Config.GRAVITY.
      apply Qmult_le_0_compat; [|discriminate].
      change 0%Q with (inject_Z 0). rewrite <- Zle_Qle. lia.
Qed.

(** X13: with the button up, gravity adds 0.5 to the velocity each tick
    until the fall limit: after n such playing updates the velocity is
    min(v + n/2, MAX_FALL_SPEED), for any start velocity v at most the
    limit.  From any state a session reaches, 36 such ticks bring the wolf
    to the limit. *)
Theorem X13_gravity_accumulates
  (A : Assets) (w : Wolf) (n : nat) (inputs : list Input) :
  (velocity w <= Config.MAX_FALL_SPEED)%Q ->
  (velocity (fst (wolf_ticks A w (repeat false n)))
   == Qmin (velocity w + inject_Z (Z.of_nat n) * Config.GRAVITY)
           Config.MAX_FALL_SPEED)%Q /\
  (velocity (fst (wolf_ticks A (wolf (Game.run A inputs)) (repeat false 36)))
   == Config.MAX_FALL_SPEED)%Q.
Proof.
  intros Hw. split; [apply released_velocity; exact Hw|].
  assert (velocity_in_range (wolf (Game.run A inputs))) as [Hl Hu]
      by (apply run_from_in_range; split; discriminate).
  rewrite released_velocity by exact Hu.
  apply Q.min_r.
  unfold Config.JUMP_STRENGTH, Config.MAX_FALL_SPEED, Config.GRAVITY in *.
  destruct (velocity (wolf (Game.run A inputs))) as [a d].
  unfold Qle, Qplus, Qmult, inject_Z in *.
  cbn [Qnum Qden Z.of_nat Pos.of_succ_nat Pos.succ Pos.mul Z.mul] in *. lia.
Qed.

Lemma X13_gravity_accumulates_witness :
  (velocity (Wolf.__init__ demo_assets 100 468) <= Config.MAX_FALL_SPEED)%Q /\
  (velocity (fst (wolf_ticks demo_assets (Wolf.__init__ demo_assets 100 468)
                             (repeat false 5)))
   == Qmin (velocity (Wolf.__init__ demo_assets 100 468)
            + inject_Z (Z.of_nat 5) * Config.GRAVITY)
           Config.MAX_FALL_SPEED)%Q.
Proof.
  assert (velocity (Wolf.__init__ demo_assets 100 468)
          <= Config.MAX_FALL_SPEED)%Q as H by discriminate.
  split; [exact H|].
  exact (proj1 (X13_gravity_accumulates demo_assets
                  (Wolf.__init__ demo_assets 100 468) 5 [] H)).
Defined.

(** ** The restart button *)

Lemma button_update_spec (b : Button) (pos : Z * Z) (pressed : bool) :
  let inside := Rect.collidepoint (button_rect b) pos in
  snd (Button.update b pos pressed) = inside && pressed && negb (is_pressed b) /\
  is_pressed (fst (Button.update b pos pressed))
    = (if inside then pressed else is_pressed b) /\
  button_rect (fst (Button.update b pos pressed)) = button_rect b.
Proof.
  cbv zeta. unfold Button.update.
  destruct (Rect.collidepoint (button_rect b) pos), pressed,
    (is_pressed b) eqn:E; cbn; auto.
Qed.

Lemma button_ticks_inside (pos : Z * Z) (presses : list bool) :
  forall b,
    Rect.collidepoint (button_rect b) pos = true ->
    snd (button_ticks b (map (fun p => (pos, p)) presses))
    = rising_edges (is_pressed b) presses.
Proof.
  induction presses as [|p rest IH]; intros b Hin; [reflexivity|].
  cbn [map button_ticks rising_edges].
  destruct (button_update_spec b pos p) as (Hs & Hp & Hr).
  rewrite Hin in Hs, Hp. cbn [andb] in Hs.
  destruct (Button.update b pos p) as [b1 c]. cbn [fst snd] in *.
  specialize (IH b1). rewrite Hr in IH. specialize (IH Hin).
  destruct (button_ticks b1 (map (fun p0 => (pos, p0)) rest)) as [b2 cs].
  cbn [snd] in *. rewrite Hs, IH, Hp. reflexivity.
Qed.

(** X14: the button reports a click exactly when the pointer is inside it,
    the mouse button is down and the button's flag is clear.  With the
    pointer inside, the flag becomes the sample, so over any sequence of
    samples the clicks are the rising edges of the mouse button and a held
    press clicks once; with the pointer outside, the call changes nothing
    and reports no click. *)
Theorem X14_button_clicks
  (b : Button) (pos out : Z * Z) (pressed : bool) (presses : list bool) (n : nat) :
  Rect.collidepoint (button_rect b) pos = true ->
  Rect.collidepoint (button_rect b) out = false ->
  snd (Button.update b pos pressed) = pressed && negb (is_pressed b) /\
  is_pressed (fst (Button.update b pos pressed)) = pressed /\
  snd (button_ticks b (map (fun p => (pos, p)) presses))
    = rising_edges (is_pressed b) presses /\
  snd (button_ticks (fst (Button.update b pos false))
         (map (fun p => (pos, p)) (repeat true (S n))))
    = true :: repeat false n /\
  Button.update b out pressed = (b, false).
Proof.
  intros Hin Hout.
  destruct (button_update_spec b pos pressed) as (Hs & Hp & _).
  rewrite Hin in Hs, Hp. cbn [andb] in Hs.
  split; [exact Hs|]. split; [exact Hp|].
  split; [apply button_ticks_inside; exact Hin|]. split.
  - destruct (button_update_spec b pos false) as (_ & Hp0 & Hr0).
    rewrite Hin in Hp0.
    rewrite button_ticks_inside by (rewrite Hr0; exact Hin).
    rewrite Hp0. cbn [repeat rising_edges]. rewrite rising_edges_held.
    reflexivity.
  - unfold Button.update. rewrite Hout. reflexivity.
Qed.

Lemma X14_button_clicks_witness :
  Rect.collidepoint (button_rect (restart_button (Game.__init__ demo_assets)))
                    (400, 380) = true /\
  Rect.collidepoint (button_rect (restart_button (Game.__init__ demo_assets)))
                    (0, 0) = false /\
  snd (button_ticks (restart_button (Game.__init__ demo_assets))
         (map (fun p => ((400, 380), p)) [true; true; false; true]))
  = rising_edges false [true; true; false; true].
Proof.
  split; [reflexivity|]. split; [reflexivity|].
  exact (proj1 (proj2 (proj2
    (X14_button_clicks (restart_button (Game.__init__ demo_assets))
       (400, 380) (0, 0) true [true; true; false; true] 0
       eq_refl eq_refl)))).
Defined.

Lemma update_restart_button (A : Assets) (g : Game) (i : Input) :
  restart_button (Game.update A g i) =
  match state g with
  | GAME_OVER =>
      fst (Button.update (restart_button g) (mouse_pos i) (mouse_pressed i))
  | _ => restart_button g
  end.
Proof.
  unfold Game.update. destruct (state g).
  - reflexivity.
  - apply update_playing_other.
  - apply update_game_over_other.
Qed.

(** With the flag set and no sample that has the pointer on the button with
    the mouse up, the flag stays set and MENU is not entered. *)
Lemma latched_update (A : Assets) (g : Game) (i : Input) :
  is_pressed (restart_button g) = true ->
  Rect.collidepoint (button_rect (restart_button g)) (mouse_pos i)
  && negb (mouse_pressed i) = false ->
  is_pressed (restart_button (Game.update A g i)) = true /\
  button_rect (restart_button (Game.update A g i))
    = button_rect (restart_button g) /\
  (state g <> MENU -> state (Game.update A g i) <> MENU).
Proof.
  intros Hl Hs. rewrite update_restart_button.
  destruct (button_update_spec (restart_button g) (mouse_pos i)
              (mouse_pressed i)) as (Hc & Hp & Hr).
  rewrite Hl in Hc. cbn [negb] in Hc. rewrite andb_false_r in Hc.
  unfold Game.update. destruct (state g) eqn:E.
  - repeat split; auto.
  - repeat split; auto. intros _.
    rewrite update_playing_state, E.
    destruct (existsb _ _ || _); discriminate.
  - rewrite Hp, Hr. repeat split.
    + destruct (Rect.collidepoint _ _); [|exact Hl].
      destruct (mouse_pressed i); [reflexivity | discriminate Hs].
    + intros _. pose proof (update_game_over_spec A g i) as H.
      cbv zeta in H. rewrite Hc in H. destruct H as (-> & _).
      rewrite E. discriminate.
Qed.

Lemma latched_run (A : Assets) (more : list Input) :
  forall g,
    is_pressed (restart_button g) = true ->
    forallb (fun i =>
               negb (Rect.collidepoint (button_rect (restart_button g))
                                       (mouse_pos i)
                     && negb (mouse_pressed i))) more = true ->
    is_pressed (restart_button (Game.run_from A g more)) = true /\
    (state g = GAME_OVER -> state (Game.run_from A g more) = GAME_OVER).
Proof.
  induction more as [|i rest IH]; intros g Hl Hs; [auto|].
  cbn [forallb] in Hs. apply andb_true_iff in Hs. destruct Hs as [Hi Hs].
  apply negb_true_iff in Hi.
  rewrite run_from_cons.
  assert (fst (Game.tick A g i)
          = Game.update A (fst (Game.handle_events A g (events i)
                                  (event_ticks i))) i) as Et.
  { unfold Game.tick.
    destruct (Game.handle_events A g (events i) (event_ticks i)) as [g1 r].
    reflexivity. }
  set (g1 := fst (Game.handle_events A g (events i) (event_ticks i))) in *.
  destruct (handle_events_other A g (events i) (event_ticks i))
    as (_ & Hb & _).
  fold g1 in Hb.
  destruct (latched_update A g1 i) as (L1 & L2 & L3);
    [rewrite Hb; exact Hl | rewrite Hb; exact Hi|].
  assert (state g = GAME_OVER -> state (fst (Game.tick A g i)) = GAME_OVER)
    as Hg.
  { intros E. rewrite Et.
    assert (g1 = g) as Eg
        by (apply handle_events_not_menu; congruence).
    rewrite Eg in *. pose proof (update_game_over_spec A g i) as H.
    cbv zeta in H.
    destruct (button_update_spec (restart_button g) (mouse_pos i)
                (mouse_pressed i)) as (Hc & _).
    rewrite Hl in Hc. cbn [negb] in Hc. rewrite andb_false_r in Hc.
    rewrite Hc in H. unfold Game.update. rewrite E.
    destruct H as (-> & _). exact E. }
  destruct (quits i).
  - rewrite Et. split; [exact L1 | rewrite <- Et; exact Hg].
  - rewrite Et in *. destruct (IH (Game.update A g1 i)) as (R1 & R2).
    + exact L1.
    + rewrite L2, Hb. exact Hs.
    + split; [exact R1|]. intros E. apply R2. apply Hg. exact E.
Qed.

(** X15: a restart leaves the restart button's flag set, and only an update
    in GAME_OVER ever touches the button.  So after a restart the button is
    dead: through any later passes in none of which the pointer is on the
    button with the mouse up, the flag stays set, and a game that is over
    stays over however often the button is pressed. *)
Theorem X15_restart_button_latches
  (A : Assets) (g : Game) (i : Input) (more : list Input) (h : Game) :
  (state g = GAME_OVER ->
   state (Game.update A g i) = MENU ->
   is_pressed (restart_button (Game.update A g i)) = true) /\
  (state g <> GAME_OVER ->
   restart_button (Game.update A g i) = restart_button g) /\
  (is_pressed (restart_button h) = true ->
   forallb (fun j =>
              negb (Rect.collidepoint (button_rect (restart_button h))
                                      (mouse_pos j)
                    && negb (mouse_pressed j))) more = true ->
   is_pressed (restart_button (Game.run_from A h more)) = true /\
   (state h = GAME_OVER -> state (Game.run_from A h more) = GAME_OVER)).
Proof.
  split; [|split].
  - intros E Hm. rewrite update_restart_button, E.
    pose proof (update_game_over_spec A g i) as H. cbv zeta in H.
    destruct (button_update_spec (restart_button g) (mouse_pos i)
                (mouse_pressed i)) as (Hc & Hp & _).
    unfold Game.update in Hm. rewrite E in Hm.
    destruct (snd (Button.update _ _ _)) eqn:Es.
    + rewrite Hp. symmetry in Hc.
      apply andb_true_iff in Hc. destruct Hc as [Hc _].
      apply andb_true_iff in Hc. destruct Hc as [-> ->]. reflexivity.
    + destruct H as (H & _). rewrite H, E in Hm. discriminate.
  - intros E. rewrite update_restart_button.
    destruct (state g); congruence.
  - apply latched_run.
Qed.

Lemma X15_restart_button_latches_witness :
  let restarted :=
    Game.update demo_assets demo_game_over demo_restart_click in
  let lost_again := Game.run_from demo_assets restarted (demo_session [] 80) in
  state demo_game_over = GAME_OVER /\
  state restarted = MENU /\
  is_pressed (restart_button restarted) = true /\
  state lost_again = GAME_OVER /\
  state (Game.run_from demo_assets lost_again
           [demo_restart_click; demo_restart_click]) = GAME_OVER.
Proof.
  cbv zeta. split; [reflexivity|]. split; [reflexivity|].
  pose proof (proj1 (X15_restart_button_latches demo_assets demo_game_over
                       demo_restart_click [] demo_game_over)
                eq_refl eq_refl) as H1.
  split; [exact H1|]. split; [reflexivity|].
  destruct (proj2 (proj2 (X15_restart_button_latches demo_assets demo_game_over
                            demo_restart_click
                            [demo_restart_click; demo_restart_click]
                            (Game.run_from demo_assets
                               (Game.update demo_assets demo_game_over
                                  demo_restart_click)
                               (demo_session [] 80))))
              eq_refl eq_refl) as (_ & H2).
  apply H2. reflexivity.
Defined.

(** ** The pipes of the group *)

Lemma group_update_filter (ps : list Pipe) :
  Group_update ps =
  filter (fun p => 0 <=? Rect.right (pipe_rect p))
         (map (fun q => moved q 1) ps).
Proof.
  induction ps as [|q ps IH]; [reflexivity|].
  cbn [Group_update map filter].
  assert (Pipe.update q
          = (moved q 1, Rect.right (pipe_rect (moved q 1)) <? 0)) as ->
      by reflexivity.
  rewrite IH.
  destruct (Z.ltb_spec (Rect.right (pipe_rect (moved q 1))) 0),
           (Z.leb_spec 0 (Rect.right (pipe_rect (moved q 1))));
    try reflexivity; lia.
Qed.

Lemma filter_moved_step (m : Z) (ps : list Pipe) :
  filter (fun p => 0 <=? Rect.right (pipe_rect p))
         (map (fun q => moved q 1)
              (filter (fun p => 0 <=? Rect.right (pipe_rect p))
                      (map (fun q => moved q m) ps)))
  = filter (fun p => 0 <=? Rect.right (pipe_rect p))
           (map (fun q => moved q (m + 1)) ps).
Proof.
  induction ps as [|q ps IH]; [reflexivity|].
  cbn [map filter].
  destruct (moved_fields q m) as (_ & _ & Hm & _).
  destruct (moved_fields q (m + 1)) as (_ & _ & Hm1 & _).
  unfold Config.SCROLL_SPEED in *.
  destruct (Z.leb_spec 0 (Rect.right (pipe_rect (moved q m)))) as [H | H].
  - cbn [map filter]. rewrite moved_add, IH. reflexivity.
  - rewrite IH.
    destruct (Z.leb_spec 0 (Rect.right (pipe_rect (moved q (m + 1)))));
      [lia | reflexivity].
Qed.

Lemma iter_group_update (n : nat) :
  forall ps,
    Nat.iter (S n) Group_update ps =
    filter (fun p => 0 <=? Rect.right (pipe_rect p))
           (map (fun q => moved q (Z.of_nat (S n))) ps).
Proof.
  induction n as [|n IH]; intros ps.
  - apply group_update_filter.
  - change (Nat.iter (S (S n)) Group_update ps)
      with (Group_update (Nat.iter (S n) Group_update ps)).
    rewrite IH, group_update_filter, filter_moved_step.
    replace (Z.of_nat (S n) + 1) with (Z.of_nat (S (S n))) by lia.
    reflexivity.
Qed.

(** X16: [Group.update] keeps the order of the pipes, moves each one 4 px
    to the left and removes exactly those whose right edge is then left of
    0 (a right edge at 0 stays).  A removed pipe never comes back, so n
    updates in a row are one move by 4n px followed by that one test: a
    pipe is still in the group exactly when its right edge minus 4n is at
    least 0. *)
Theorem X16_pipes_leave_on_the_left (ps : list Pipe) (n : nat) (p : Pipe) :
  Group_update ps
  = filter (fun q => 0 <=? Rect.right (pipe_rect q))
           (map (fun q => moved q 1) ps) /\
  Nat.iter (S n) Group_update ps
  = filter (fun q => 0 <=? Rect.right (pipe_rect q))
           (map (fun q => moved q (Z.of_nat (S n))) ps) /\
  Nat.iter (S n) Group_update [p]
  = (if Rect.right (pipe_rect p)
        - Config.SCROLL_SPEED * Z.of_nat (S n) <? 0
     then [] else [moved p (Z.of_nat (S n))]).
Proof.
  split; [apply group_update_filter|]. split; [apply iter_group_update|].
  rewrite iter_group_update. cbn [map filter].
  destruct (moved_fields p (Z.of_nat (S n))) as (_ & _ & -> & _).
  destruct (Z.leb_spec 0 (Rect.right (pipe_rect p)
                          - Config.SCROLL_SPEED * Z.of_nat (S n))),
           (Z.ltb_spec (Rect.right (pipe_rect p)
                        - Config.SCROLL_SPEED * Z.of_nat (S n)) 0);
    try reflexivity; lia.
Qed.

(** *** Pairs *)

Lemma paired_ind (P : list Pipe -> Prop) :
  P [] ->
  (forall t b rest, pair_ok t b -> paired rest -> P rest -> P (t :: b :: rest)) ->
  forall l, paired l -> P l.
Proof.
  intros H0 Hs l.
  assert ((paired l -> P l) /\ (forall x, paired (x :: l) -> P (x :: l)))
    as [H _]; [|exact H].
  induction l as [|y l [IH1 IH2]].
  - split; [intros; exact H0 | intros x []].
  - split; [apply IH2|].
    intros x [Hp Hr]. apply Hs; auto.
Qed.

Lemma paired_app (l l' : list Pipe) :
  paired l -> paired l' -> paired (l ++ l').
Proof.
  intros H H'. induction H using paired_ind; [exact H'|].
  cbn [app paired]. split; assumption.
Qed.

Lemma paired_even (l : list Pipe) : paired l -> Nat.even (length l) = true.
Proof.
  intros H. induction H using paired_ind; [reflexivity|].
  cbn [length Nat.even]. assumption.
Qed.

Lemma pair_ok_cx (t b : Pipe) : pair_ok t b -> cx t = cx b.
Proof.
  intros (_ & _ & Hx & Hw & _). unfold Rect.centerx. rewrite Hx, Hw.
  reflexivity.
Qed.

Lemma pair_ok_moved (t b : Pipe) :
  pair_ok t b ->
  pair_ok (moved t 1) (moved b 1) /\
  Rect.right (pipe_rect (moved t 1)) = Rect.right (pipe_rect (moved b 1)).
Proof.
  intros (Hf & Hg & Hx & Hw & Hgap & Hs).
  unfold pair_ok, moved, Rect.right, Rect.top, Rect.bottom, Rect.set_x in *.
  cbn [pipe_rect flipped scored rect_x rect_y rect_w rect_h].
  repeat split; try assumption; lia.
Qed.

Lemma group_update_paired (l : list Pipe) :
  paired l -> paired (Group_update l).
Proof.
  intros H. induction H as [|t b rest Hp Hr IH] using paired_ind;
    [exact I|].
  rewrite group_update_filter in *. cbn [map filter].
  destruct (pair_ok_moved t b Hp) as (Hm & <-).
  destruct (0 <=? Rect.right (pipe_rect (moved t 1))); [|exact IH].
  cbn [paired]. split; assumption.
Qed.

Lemma mark_pair_paired (c : Z) (l : list Pipe) :
  paired l -> paired (mark_pair c l).
Proof.
  intros H. induction H as [|t b rest Hp Hr IH] using paired_ind;
    [exact I|].
  unfold mark_pair in *. cbn [map paired]. split; [|exact IH].
  rewrite <- (pair_ok_cx t b Hp).
  destruct Hp as (Hf & Hg & Hx & Hw & Hgap & Hs).
  destruct (Z.abs (cx t - c) <? 10); unfold pair_ok; cbn; auto 10.
Qed.

(** Marking the first pipe by hand before the loop changes nothing: the
    loop marks it anyway. *)
Lemma mark_pair_absorbs (l : list Pipe) (k : nat) (P : Pipe) :
  min_centerx l = Some (k, P) ->
  mark_pair (cx P) (set_scored_at k l) = mark_pair (cx P) l.
Proof.
  intros H. apply min_centerx_split in H.
  destruct H as (l1 & l2 & -> & -> & _ & _).
  rewrite set_scored_at_split. unfold mark_pair. rewrite !map_app.
  cbn [map]. f_equal. f_equal.
  change (cx (Pipe.set_scored P)) with (cx P).
  replace (cx P - cx P) with 0 by lia. reflexivity.
Qed.

Lemma update_score_pipes (g : Game) :
  pipe_group (Game._update_score g) = pipe_group g \/
  exists k fp,
    min_centerx (pipe_group g) = Some (k, fp) /\
    pipe_group (Game._update_score g) = mark_pair (cx fp) (pipe_group g).
Proof.
  unfold Game._update_score.
  destruct (min_centerx (pipe_group g)) as [[k fp]|] eqn:E; [|left; reflexivity].
  repeat match goal with
         | |- context [if ?c then _ else _] => destruct c
         end; cbn [pipe_group]; try (left; reflexivity).
  right. exists k, fp. split; [reflexivity|].
  apply mark_pair_absorbs. exact E.
Qed.

Lemma new_pair_ok (A : Assets) (x y : Z) :
  pair_ok (Pipe.__init__ A x y 1) (Pipe.__init__ A x y (-1)).
Proof.
  rewrite pipe_init_top, pipe_init_bottom.
  unfold pair_ok, Rect.top, Rect.bottom, Rect.of_size_bottomleft,
    Rect.of_size_topleft.
  cbn [pipe_rect flipped scored rect_x rect_y rect_w rect_h fst snd].
  change (Config.PIPE_GAP / 2) with 75. change Config.PIPE_GAP with 150.
  repeat split; lia.
Qed.

Lemma update_paired (A : Assets) (g : Game) (i : Input) :
  paired (pipe_group g) -> paired (pipe_group (Game.update A g i)).
Proof.
  intros H. unfold Game.update. destruct (state g) eqn:E.
  - exact H.
  - unfold Game._update_playing.
    set (b := Game.before_collisions A g i).
    assert (paired (pipe_group (Game._check_collisions A b))) as Hb.
    { rewrite (proj1 (proj2 (check_collisions_keeps A b))).
      unfold b. rewrite before_collisions_pipes. cbv zeta.
      apply paired_app; [apply group_update_paired; exact H|].
      destruct (_ >? Config.PIPE_FREQUENCY); [|exact I].
      cbn [paired]. split; [apply new_pair_ok | exact I]. }
    destruct (update_score_pipes (Game._check_collisions A b))
      as [-> | (k & fp & _ & ->)]; [exact Hb|].
    apply mark_pair_paired. exact Hb.
  - pose proof (update_game_over_spec A g i) as Hs. cbv zeta in Hs.
    destruct (snd (Button.update _ _ _)).
    + destruct Hs as (_ & -> & _). exact I.
    + destruct Hs as (_ & -> & _). exact H.
Qed.

(** X17: in every state a session reaches the pipes of the group come in
    pairs, one after the other: a flipped pipe followed by a plain one with
    the same x and width, the opening between them exactly PIPE_GAP high,
    and both marked scored or neither; so the group always holds an even
    number of pipes, and a pair enters, is marked and leaves together. *)
Theorem X17_pipes_stay_paired (A : Assets) (inputs : list Input) :
  paired (pipe_group (Game.run A inputs)) /\
  Nat.even (length (pipe_group (Game.run A inputs))) = true.
Proof.
  assert (paired (pipe_group (Game.run A inputs))) as H.
  { unfold Game.run.
    apply (run_from_invariant A (fun g => paired (pipe_group g))).
    - intros g evs now H.
      destruct (handle_events_wolf A g evs now) as (_ & -> & _). exact H.
    - intros g i. apply update_paired.
    - exact I. }
  split; [exact H | apply paired_even; exact H].
Qed.

(** *** On the screen, oldest first *)

Lemma on_screen_rects (l l' : list Pipe) :
  map pipe_rect l = map pipe_rect l' ->
  Forall on_screen l' -> Forall on_screen l.
Proof.
  intros E H. rewrite Forall_forall in *. intros p Hp.
  assert (In (pipe_rect p) (map pipe_rect l')) as Hr
      by (rewrite <- E; apply in_map; exact Hp).
  apply in_map_iff in Hr. destruct Hr as (q & Eq & Hq).
  specialize (H q Hq). unfold on_screen in *. rewrite <- Eq. exact H.
Qed.

Lemma group_update_on_screen (ps : list Pipe) :
  Forall on_screen ps -> Forall on_screen (Group_update ps).
Proof.
  intros H. rewrite group_update_filter. rewrite Forall_forall in *.
  intros p Hp. apply filter_In in Hp. destruct Hp as [Hp Hok].
  apply in_map_iff in Hp. destruct Hp as (q & <- & Hq).
  apply Z.leb_le in Hok. destruct (H q Hq) as [_ Hl].
  destruct (moved_fields q 1) as (_ & Hm & _).
  unfold on_screen. rewrite Hm. unfold Config.SCROLL_SPEED. split; [exact Hok | lia].
Qed.

Lemma update_on_screen (A : Assets) (g : Game) (i : Input) :
  0 <= fst (pipe_size A) ->
  Forall on_screen (pipe_group g) ->
  Forall on_screen (pipe_group (Game.update A g i)).
Proof.
  intros Hw H. unfold Game.update. destruct (state g) eqn:E.
  - exact H.
  - unfold Game._update_playing.
    set (b := Game.before_collisions A g i).
    apply (on_screen_rects _ (pipe_group b)).
    + rewrite update_score_rects.
      rewrite (proj1 (proj2 (check_collisions_keeps A b))). reflexivity.
    + unfold b. rewrite before_collisions_pipes. cbv zeta.
      apply Forall_app. split; [apply group_update_on_screen; exact H|].
      destruct (_ >? Config.PIPE_FREQUENCY); [|constructor].
      rewrite pipe_init_top, pipe_init_bottom.
      repeat constructor;
        unfold Rect.right, Rect.left, Rect.of_size_bottomleft,
          Rect.of_size_topleft, Config.SCREEN_WIDTH;
        cbn [pipe_rect rect_x rect_w fst snd]; lia.
  - pose proof (update_game_over_spec A g i) as Hs. cbv zeta in Hs.
    destruct (snd (Button.update _ _ _)).
    + destruct Hs as (_ & -> & _). constructor.
    + destruct Hs as (_ & -> & _). exact H.
Qed.

(** X18: with a pipe image of non-negative width, every pipe of the group,
    in every state a session reaches, has its right edge at 0 or more and
    its left edge at SCREEN_WIDTH or less: pipes that have left the screen
    are not kept, and none is ever placed beyond the spawn position. *)
Theorem X18_pipes_on_screen (A : Assets) (inputs : list Input) (p : Pipe) :
  0 <= fst (pipe_size A) ->
  In p (pipe_group (Game.run A inputs)) ->
  0 <= Rect.right (pipe_rect p) /\
  Rect.left (pipe_rect p) <= Config.SCREEN_WIDTH.
Proof.
  intros Hw Hin.
  assert (Forall on_screen (pipe_group (Game.run A inputs))) as H.
  { unfold Game.run.
    apply (run_from_invariant A (fun g => Forall on_screen (pipe_group g))).
    - intros g evs now H.
      destruct (handle_events_wolf A g evs now) as (_ & -> & _). exact H.
    - intros g i. apply update_on_screen. exact Hw.
    - constructor. }
  rewrite Forall_forall in H. exact (H p Hin).
Qed.

Lemma X18_pipes_on_screen_witness :
  0 <= fst (pipe_size demo_assets) /\
  In demo_first_pipe
     (pipe_group (Game.run demo_assets
                    (demo_pass_history ++ [demo_pass_tick 0]))) /\
  0 <= Rect.right (pipe_rect demo_first_pipe).
Proof.
  assert (0 <= fst (pipe_size demo_assets)) as Hw by (cbn; lia).
  assert (In demo_first_pipe
            (pipe_group (Game.run demo_assets
                           (demo_pass_history ++ [demo_pass_tick 0])))) as Hin
      by (vm_compute; left; reflexivity).
  split; [exact Hw|]. split; [exact Hin|].
  exact (proj1 (X18_pipes_on_screen demo_assets
                  (demo_pass_history ++ [demo_pass_tick 0])
                  demo_first_pipe Hw Hin)).
Defined.

Lemma ascending_sub (x : Z) (f : Pipe -> bool) (l : list Pipe) :
  Forall (Z.le x) (lefts l) -> Forall (Z.le x) (lefts (filter f l)).
Proof.
  unfold lefts. rewrite !Forall_forall. intros H y Hy.
  apply in_map_iff in Hy. destruct Hy as (q & <- & Hq).
  apply filter_In in Hq. apply H.
  apply (in_map (fun p => Rect.left (pipe_rect p))). apply Hq.
Qed.

Lemma ascending_filter (f : Pipe -> bool) (l : list Pipe) :
  ascending (lefts l) -> ascending (lefts (filter f l)).
Proof.
  induction l as [|q l IH]; [auto|].
  cbn [lefts map ascending filter]. intros [Hq Hl].
  destruct (f q); [|apply IH; exact Hl].
  cbn [lefts map ascending]. split; [|apply IH; exact Hl].
  apply (ascending_sub _ f l Hq).
Qed.

Lemma ascending_moved (l : list Pipe) :
  ascending (lefts l) -> ascending (lefts (map (fun q => moved q 1) l)).
Proof.
  induction l as [|q l IH]; [auto|].
  cbn [lefts map ascending]. intros [Hq Hl]. split; [|apply IH; exact Hl].
  unfold lefts in *. rewrite Forall_forall in *. intros y Hy.
  rewrite map_map in Hy. apply in_map_iff in Hy. destruct Hy as (r & <- & Hr).
  assert (Rect.left (pipe_rect q) <= Rect.left (pipe_rect r)) as Hle
      by (apply Hq; apply (in_map (fun p => Rect.left (pipe_rect p))); exact Hr).
  destruct (moved_fields q 1) as (_ & -> & _).
  destruct (moved_fields r 1) as (_ & -> & _). lia.
Qed.

Lemma ascending_app (xs ys : list Z) (m : Z) :
  ascending xs -> Forall (fun x => x <= m) xs ->
  ascending ys -> Forall (Z.le m) ys ->
  ascending (xs ++ ys).
Proof.
  intros Hx Hb Hy Hm. induction xs as [|x xs IH]; [exact Hy|].
  cbn [app ascending] in *. destruct Hx as [Hx1 Hx2].
  inversion Hb as [|? ? Hxm Hb']; subst.
  split; [|apply IH; assumption].
  apply Forall_app. split; [exact Hx1|].
  rewrite Forall_forall in *. intros y Hy'. specialize (Hm y Hy'). lia.
Qed.

Lemma lefts_of_rects (l l' : list Pipe) :
  map pipe_rect l = map pipe_rect l' -> lefts l = lefts l'.
Proof.
  intros E. unfold lefts.
  rewrite <- (map_map pipe_rect Rect.left l).
  rewrite <- (map_map pipe_rect Rect.left l'). rewrite E. reflexivity.
Qed.

Lemma update_ascending (A : Assets) (g : Game) (i : Input) :
  well_formed A g ->
  ascending (lefts (pipe_group g)) ->
  ascending (lefts (pipe_group (Game.update A g i))).
Proof.
  intros Hwf H. unfold Game.update. destruct (state g) eqn:E.
  - exact H.
  - unfold Game._update_playing.
    set (b := Game.before_collisions A g i).
    rewrite (lefts_of_rects _ (pipe_group b)).
    2:{ rewrite update_score_rects.
        rewrite (proj1 (proj2 (check_collisions_keeps A b))). reflexivity. }
    unfold b. rewrite before_collisions_pipes. cbv zeta.
    unfold lefts at 1. rewrite map_app.
    apply (ascending_app _ _ Config.SCREEN_WIDTH).
    + rewrite group_update_filter.
      apply ascending_filter, ascending_moved. exact H.
    + destruct Hwf as [_ Hok]. rewrite Forall_forall in *.
      intros x Hx. apply in_map_iff in Hx. destruct Hx as (p & <- & Hp).
      apply group_update_in in Hp. destruct Hp as (q & Hq & ->).
      assert (rect_ok A (pipe_rect q)) as [_ Hqx]
          by (apply Hok; apply in_map; exact Hq).
      destruct (moved_fields q 1) as (_ & -> & _).
      unfold Rect.left, Config.SCROLL_SPEED. lia.
    + destruct (_ >? Config.PIPE_FREQUENCY); [|exact I].
      rewrite pipe_init_top, pipe_init_bottom.
      cbn. repeat split; repeat constructor; lia.
    + destruct (_ >? Config.PIPE_FREQUENCY); [|constructor].
      rewrite pipe_init_top, pipe_init_bottom.
      cbn. repeat constructor; lia.
  - pose proof (update_game_over_spec A g i) as Hs. cbv zeta in Hs.
    destruct (snd (Button.update _ _ _)).
    + destruct Hs as (_ & -> & _). exact I.
    + destruct Hs as (_ & -> & _). exact H.
Qed.

Lemma first_is_head (A : Assets) (l : list Pipe) :
  Forall (rect_ok A) (map pipe_rect l) ->
  ascending (lefts l) ->
  min_centerx l = match l with [] => None | p :: _ => Some (0%nat, p) end.
Proof.
  intros Hok H. destruct l as [|p rest]; [reflexivity|].
  cbn [min_centerx]. rewrite min_from_keep; [reflexivity|].
  cbn [lefts map ascending] in H. destruct H as [Hp _].
  rewrite Forall_forall in Hp, Hok.
  intros q Hq.
  assert (Rect.left (pipe_rect p) <= Rect.left (pipe_rect q)) as Hle
      by (apply Hp; apply (in_map (fun r => Rect.left (pipe_rect r))); exact Hq).
  assert (rect_ok A (pipe_rect p)) as [Hpw _]
      by (apply Hok; left; reflexivity).
  assert (rect_ok A (pipe_rect q)) as [Hqw _]
      by (apply Hok; right; apply in_map; exact Hq).
  unfold Rect.centerx, Rect.left in *. rewrite Hpw, Hqw. lia.
Qed.

(** X19: in every state a session reaches the group lists its pipes from
    left to right, oldest first; so the pipe that [_update_score] picks with
    [min] is always the one at the head of the group, the top pipe of the
    leftmost pair. *)
Theorem X19_first_pipe_is_the_head (A : Assets) (inputs : list Input) :
  let ps := pipe_group (Game.run A inputs) in
  ascending (lefts ps) /\
  min_centerx ps = match ps with [] => None | p :: _ => Some (0%nat, p) end.
Proof.
  cbv zeta.
  assert (well_formed A (Game.run A inputs) /\
          ascending (lefts (pipe_group (Game.run A inputs)))) as [Hwf H].
  { unfold Game.run.
    apply (run_from_invariant A
             (fun g => well_formed A g /\ ascending (lefts (pipe_group g)))).
    - intros g evs now [H1 H2].
      destruct (handle_events_wolf A g evs now) as (Hw & Hp & _).
      split; [|rewrite Hp; exact H2].
      destruct H1 as [Hc Hf]. split; [rewrite Hw | rewrite Hp]; assumption.
    - intros g i [H1 H2].
      split; [apply update_well_formed | apply update_ascending]; assumption.
    - split; [|exact I]. split; [|constructor].
      pose proof (initial_wolf_center A) as Hc.
      apply (f_equal fst) in Hc. exact Hc. }
  split; [exact H|].
  apply (first_is_head A); [apply Hwf | exact H].
Qed.

(** *** The scoring flag *)

Lemma before_collisions_ascending (A : Assets) (g : Game) (i : Input) :
  well_formed A g ->
  ascending (lefts (pipe_group g)) ->
  ascending (lefts (pipe_group (Game.before_collisions A g i))).
Proof.
  intros Hwf H. rewrite before_collisions_pipes. cbv zeta.
  unfold lefts at 1. rewrite map_app.
  apply (ascending_app _ _ Config.SCREEN_WIDTH).
  - rewrite group_update_filter.
    apply ascending_filter, ascending_moved. exact H.
  - destruct Hwf as [_ Hok]. rewrite Forall_forall in *.
    intros x Hx. apply in_map_iff in Hx. destruct Hx as (p & <- & Hp).
    apply group_update_in in Hp. destruct Hp as (q & Hq & ->).
    assert (rect_ok A (pipe_rect q)) as [_ Hqx]
        by (apply Hok; apply in_map; exact Hq).
    destruct (moved_fields q 1) as (_ & -> & _).
    unfold Rect.left, Config.SCROLL_SPEED. lia.
  - destruct (_ >? Config.PIPE_FREQUENCY); [|exact I].
    rewrite pipe_init_top, pipe_init_bottom.
    cbn. repeat split; repeat constructor; lia.
  - destruct (_ >? Config.PIPE_FREQUENCY); [|constructor].
    rewrite pipe_init_top, pipe_init_bottom.
    cbn. repeat constructor; lia.
Qed.

(** The head of the group after the pipes have moved, when the old head
    stays on the screen. *)
Lemma before_collisions_head (A : Assets) (g : Game) (i : Input) (p : Pipe)
      (rest : list Pipe) :
  pipe_group g = p :: rest ->
  0 <= Rect.right (pipe_rect (moved p 1)) ->
  exists rest', pipe_group (Game.before_collisions A g i) = moved p 1 :: rest'.
Proof.
  intros E H. rewrite before_collisions_pipes, E, group_update_filter.
  cbv zeta. cbn [map filter].
  destruct (Z.leb_spec 0 (Rect.right (pipe_rect (moved p 1)))); [|lia].
  eexists. cbn [app]. reflexivity.
Qed.

Lemma update_score_flag (g : Game) (p : Pipe) (rest : list Pipe) :
  Rect.centerx (rect (wolf g)) = 100 ->
  pipe_group g = p :: rest ->
  min_centerx (pipe_group g) = Some (0%nat, p) ->
  (pipe_passed g = true -> Rect.left (pipe_rect p) < 100) ->
  flag_ok (Game._update_score g).
Proof.
  intros Hx E Hmin Hl.
  pose proof (update_score_rects g) as Hr. rewrite E in Hr.
  assert (forall q rest',
             pipe_group (Game._update_score g) = q :: rest' ->
             pipe_rect q = pipe_rect p) as Hhead.
  { intros q rest' Eq. rewrite Eq in Hr. cbn [map] in Hr.
    injection Hr as Hr _. exact Hr. }
  assert (exists q rest', pipe_group (Game._update_score g) = q :: rest')
    as (q0 & rest0 & E0).
  { destruct (pipe_group (Game._update_score g)) as [|q r];
      [discriminate Hr | eauto]. }
  assert (pipe_passed (Game._update_score g) =
          (pipe_passed g
           || (Rect.left (pipe_rect p) <? 100) && (100 <? Rect.right (pipe_rect p)))
          && negb (100 >? Rect.right (pipe_rect p))) as Ef.
  { unfold Game._update_score. rewrite Hmin, Hx.
    destruct (pipe_passed g),
      (Z.ltb_spec (Rect.left (pipe_rect p)) 100),
      (Z.ltb_spec 100 (Rect.right (pipe_rect p))),
      (Z.gtb_spec 100 (Rect.right (pipe_rect p))),
      (scored p); cbn; try reflexivity; lia. }
  split.
  - intros Hp. exists q0, rest0. split; [exact E0|].
    rewrite (Hhead q0 rest0 E0). rewrite Hp in Ef. symmetry in Ef.
    apply andb_true_iff in Ef. destruct Ef as [E1 E2].
    apply negb_true_iff in E2.
    destruct (Z.gtb_spec 100 (Rect.right (pipe_rect p))); [discriminate|].
    split; [|lia].
    apply orb_true_iff in E1. destruct E1 as [E1 | E1]; [auto|].
    apply andb_true_iff in E1. destruct E1 as [E1 _].
    apply Z.ltb_lt in E1. exact E1.
  - intros q rest' Eq [H1 H2]. rewrite (Hhead q rest' Eq) in H1, H2.
    rewrite Ef.
    destruct (Z.ltb_spec (Rect.left (pipe_rect p)) 100); [|lia].
    destruct (Z.ltb_spec 100 (Rect.right (pipe_rect p))); [|lia].
    destruct (Z.gtb_spec 100 (Rect.right (pipe_rect p))); [lia|].
    destruct (pipe_passed g); reflexivity.
Qed.

Lemma update_flag_ok (A : Assets) (g : Game) (i : Input) :
  well_formed A g ->
  ascending (lefts (pipe_group g)) ->
  flag_ok g -> flag_ok (Game.update A g i).
Proof.
  intros Hwf Hasc [F1 F2]. unfold Game.update. destruct (state g) eqn:E.
  - split; assumption.
  - unfold Game._update_playing.
    set (b := Game.before_collisions A g i).
    destruct (check_collisions_keeps A b) as (Ew & Ep & _ & Epp & _).
    destruct (before_collisions_keeps A g i) as (_ & _ & _ & Epp').
    fold b in Epp'.
    pose proof (before_collisions_well_formed A g i Hwf) as [Hx Hok].
    fold b in Hx, Hok.
    pose proof (before_collisions_ascending A g i Hwf Hasc) as Hb.
    fold b in Hb.
    pose proof (first_is_head A (pipe_group b) Hok Hb) as Hmin.
    destruct (pipe_group b) as [|p rest] eqn:Eb.
    + assert (pipe_passed g = false) as Hf.
      { destruct (pipe_passed g) eqn:Hp; [|reflexivity]. exfalso.
        destruct (F1 eq_refl) as (p & rest & Eg & Hl & Hr).
        destruct (moved_fields p 1) as (_ & _ & HR & _).
        unfold Config.SCROLL_SPEED in HR.
        destruct (before_collisions_head A g i p rest Eg) as (r' & Er); [lia|].
        fold b in Er. congruence. }
      assert (Game._update_score (Game._check_collisions A b)
              = Game._check_collisions A b) as ->.
      { unfold Game._update_score. rewrite Ep. reflexivity. }
      split.
      * rewrite Epp, Epp', Hf. discriminate.
      * intros p rest Eg. rewrite Ep in Eg. discriminate Eg.
    + apply (update_score_flag _ p rest).
      * rewrite Ew. exact Hx.
      * exact Ep.
      * rewrite Ep. exact Hmin.
      * rewrite Epp, Epp'. intros Hp.
        destruct (F1 Hp) as (p0 & rest0 & Eg & Hl & Hr).
        destruct (moved_fields p0 1) as (_ & HL & HR & _).
        unfold Config.SCROLL_SPEED in HL, HR.
        destruct (before_collisions_head A g i p0 rest0 Eg) as (r' & Er);
          [lia|].
        fold b in Er. rewrite Eb in Er. injection Er as -> _.
        rewrite HL. lia.
  - pose proof (update_game_over_spec A g i) as Hs. cbv zeta in Hs.
    destruct (update_game_over_other A g i) as (_ & _ & _ & _ & Hpp).
    destruct (snd (Button.update _ _ _)).
    + destruct Hs as (_ & Hp & _). split.
      * rewrite Hpp. discriminate.
      * intros p rest Eg. rewrite Hp in Eg. discriminate Eg.
    + destruct Hs as (_ & Hp & _). split.
      * rewrite Hpp, Hp. exact F1.
      * rewrite Hpp, Hp. exact F2.
Qed.

(** X20: the one flag [_update_score] shares between all pairs says where
    the wolf is relative to the head of the group.  In every state a session
    reaches, if the flag is set the group is not empty and the wolf's centre
    (x = 100) is right of the head pipe's left edge and not right of its
    right edge; and whenever the centre is strictly between the head pipe's
    edges the flag is set. *)
Theorem X20_flag_tracks_the_head (A : Assets) (inputs : list Input) :
  let g := Game.run A inputs in
  (pipe_passed g = true ->
   exists p rest,
     pipe_group g = p :: rest /\
     Rect.left (pipe_rect p) < Rect.centerx (rect (wolf g))
       <= Rect.right (pipe_rect p)) /\
  (forall p rest,
      pipe_group g = p :: rest ->
      Rect.left (pipe_rect p) < Rect.centerx (rect (wolf g))
        < Rect.right (pipe_rect p) ->
      pipe_passed g = true).
Proof.
  cbv zeta.
  assert (well_formed A (Game.run A inputs) /\
          ascending (lefts (pipe_group (Game.run A inputs))) /\
          flag_ok (Game.run A inputs)) as (Hwf & _ & F1 & F2).
  { unfold Game.run.
    apply (run_from_invariant A
             (fun g => well_formed A g /\ ascending (lefts (pipe_group g))
                       /\ flag_ok g)).
    - intros g evs now (H1 & H2 & H3).
      destruct (handle_events_wolf A g evs now) as (Hw & Hp & _).
      destruct (handle_events_other A g evs now) as (_ & _ & Hpp).
      split; [|split].
      + destruct H1 as [Hc Hf]. split; [rewrite Hw | rewrite Hp]; assumption.
      + rewrite Hp. exact H2.
      + unfold flag_ok. rewrite Hp, Hpp. exact H3.
    - intros g i (H1 & H2 & H3).
      split; [apply update_well_formed|split;
              [apply update_ascending | apply update_flag_ok]]; assumption.
    - split; [|split].
      + split; [|constructor].
        pose proof (initial_wolf_center A) as Hc.
        apply (f_equal fst) in Hc. exact Hc.
      + exact I.
      + split; [discriminate | intros p rest E; discriminate E]. }
  destruct Hwf as [Hx _]. rewrite Hx. split; assumption.
Qed.

Lemma X20_flag_tracks_the_head_witness :
  let g := Game.run demo_assets (demo_pass_history ++ [demo_pass_tick 0]) in
  pipe_passed g = true /\
  exists p rest,
    pipe_group g = p :: rest /\
    Rect.left (pipe_rect p) < Rect.centerx (rect (wolf g))
      <= Rect.right (pipe_rect p).
Proof.
  cbv zeta. split; [reflexivity|].
  exact (proj1 (X20_flag_tracks_the_head demo_assets
                  (demo_pass_history ++ [demo_pass_tick 0])) eq_refl).
Defined.

(** * Scoring, pair by pair *)

(** ** A session, pass by pass *)

Lemma firstn_plus (X : Type) (m k : nat) :
  forall l : list X, firstn (m + k) l = firstn m l ++ firstn k (skipn m l).
Proof.
  induction m as [|m IH]; intros l; [reflexivity|].
  destruct l as [|x l]; cbn [Nat.add firstn skipn app].
  - rewrite firstn_nil. reflexivity.
  - rewrite IH. reflexivity.
Qed.

Lemma quits_parts (inputs : list Input) (j : nat) :
  existsb quits inputs = false ->
  existsb quits (firstn j inputs) = false /\
  existsb quits (skipn j inputs) = false.
Proof.
  intros H. rewrite <- (firstn_skipn j inputs), existsb_app in H.
  apply orb_false_iff in H. exact H.
Qed.

Lemma tick_playing (A : Assets) (h : Game) (i : Input) :
  state h = PLAYING -> fst (Game.tick A h i) = Game.update A h i.
Proof.
  intros Hs. unfold Game.tick.
  pose proof (handle_events_not_menu A (events i) (event_ticks i) h) as He.
  destruct (Game.handle_events A h (events i) (event_ticks i)) as [g1 r].
  cbn [fst] in *. rewrite He by congruence. reflexivity.
Qed.

(** While the game is PLAYING and nobody quits, the loop of [run] is one
    [update] per pass. *)
Lemma run_from_play (A : Assets) (l : list Input) :
  forall h,
    existsb quits l = false ->
    (forall j, (j < length l)%nat ->
               state (Game.run_from A h (firstn j l)) = PLAYING) ->
    Game.run_from A h l = play A h l.
Proof.
  induction l as [|i l IH]; intros h Hq Hst; [reflexivity|].
  cbn [existsb] in Hq. apply orb_false_iff in Hq. destruct Hq as [Hi Hq].
  assert (state h = PLAYING) as Hs by (apply (Hst 0%nat); cbn; lia).
  rewrite run_from_cons, Hi, (tick_playing A h i Hs), play_cons.
  apply IH; [exact Hq|].
  intros j Hj. specialize (Hst (S j)). cbn [firstn length] in Hst.
  rewrite run_from_cons, Hi, (tick_playing A h i Hs) in Hst.
  apply Hst. lia.
Qed.

Lemma session_play (A : Assets) (inputs : list Input) (a k : nat) :
  existsb quits inputs = false ->
  (a + k <= length inputs)%nat ->
  (forall j, (a <= j < a + k)%nat ->
             state (Game.run A (firstn j inputs)) = PLAYING) ->
  exists mid,
    length mid = k /\
    forall j, (j <= k)%nat ->
              Game.run A (firstn (a + j) inputs)
              = play A (Game.run A (firstn a inputs)) (firstn j mid).
Proof.
  intros Hq Hlen Hst. exists (firstn k (skipn a inputs)). split.
  - rewrite length_firstn, length_skipn. lia.
  - intros j Hj. rewrite firstn_firstn. replace (Nat.min j k) with j by lia.
    destruct (quits_parts inputs a Hq) as [Hqa Hqs].
    rewrite firstn_plus. unfold Game.run. rewrite run_from_app by exact Hqa.
    apply run_from_play.
    + apply (quits_parts (skipn a inputs) j Hqs).
    + intros j' Hj'. rewrite length_firstn in Hj'.
      rewrite firstn_firstn. replace (Nat.min j' j) with j' by lia.
      rewrite <- run_from_app by exact Hqa. rewrite <- firstn_plus.
      apply Hst. lia.
Qed.

Lemma run_from_snoc (A : Assets) (l : list Input) (i : Input) :
  forall g,
    Game.run_from A g (l ++ [i]) =
    if existsb quits l then Game.run_from A g l
    else fst (Game.tick A (Game.run_from A g l) i).
Proof.
  induction l as [|i0 l IH]; intros g.
  - cbn [app existsb]. rewrite run_from_cons. cbn [Game.run_from].
    destruct (quits i); reflexivity.
  - cbn [app existsb]. rewrite !run_from_cons.
    destruct (quits i0); cbn [orb]; [reflexivity|]. apply IH.
Qed.

(** One more pass of a session: nothing (the inputs have run out, or the
    loop has ended), or one more [tick]. *)
Lemma run_next (A : Assets) (inputs : list Input) (j : nat) :
  Game.run A (firstn (S j) inputs) = Game.run A (firstn j inputs) \/
  exists i, Game.run A (firstn (S j) inputs)
            = fst (Game.tick A (Game.run A (firstn j inputs)) i).
Proof.
  replace (S j) with (j + 1)%nat by lia. rewrite firstn_plus.
  destruct (skipn j inputs) as [|i rest]; cbn [firstn].
  - rewrite app_nil_r. left. reflexivity.
  - unfold Game.run. rewrite run_from_snoc.
    destruct (existsb quits (firstn j inputs)); [left | right; exists i];
      reflexivity.
Qed.

(** ** What every state of a session satisfies *)

Lemma run_order (A : Assets) (inputs : list Input) :
  well_formed A (Game.run A inputs) /\
  ascending (lefts (pipe_group (Game.run A inputs))) /\
  flag_ok (Game.run A inputs).
Proof.
  unfold Game.run.
  apply (run_from_invariant A
           (fun g => well_formed A g /\ ascending (lefts (pipe_group g))
                     /\ flag_ok g)).
  - intros g evs now (H1 & H2 & H3).
    destruct (handle_events_wolf A g evs now) as (Hw & Hp & _).
    destruct (handle_events_other A g evs now) as (_ & _ & Hpp).
    split; [|split].
    + destruct H1 as [Hc Hf]. split; [rewrite Hw | rewrite Hp]; assumption.
    + rewrite Hp. exact H2.
    + unfold flag_ok. rewrite Hp, Hpp. exact H3.
  - intros g i (H1 & H2 & H3).
    split; [apply update_well_formed|split;
            [apply update_ascending | apply update_flag_ok]]; assumption.
  - split; [|split].
    + split; [|constructor].
      pose proof (initial_wolf_center A) as Hc.
      apply (f_equal fst) in Hc. exact Hc.
    + exact I.
    + split; [discriminate | intros p rest E; discriminate E].
Qed.

Lemma run_on_screen (A : Assets) (inputs : list Input) :
  0 <= fst (pipe_size A) ->
  Forall on_screen (pipe_group (Game.run A inputs)).
Proof.
  intros Hw. unfold Game.run.
  apply (run_from_invariant A (fun g => Forall on_screen (pipe_group g))).
  - intros g evs now H.
    destruct (handle_events_wolf A g evs now) as (_ & -> & _). exact H.
  - intros g i. apply update_on_screen. exact Hw.
  - constructor.
Qed.

(** ** Spacing *)

Lemma spacedb_spaced (ps : list Pipe) : spacedb ps = true -> spaced ps.
Proof.
  unfold spacedb, spaced. intros H p q Hp Hq.
  rewrite forallb_forall in H. specialize (H p Hp).
  rewrite forallb_forall in H. specialize (H q Hq).
  apply orb_true_iff in H. destruct H as [H | H].
  - left. apply Z.eqb_eq. exact H.
  - right. apply Z.ltb_lt. exact H.
Qed.

Lemma spaced_rects (l l' : list Pipe) :
  map pipe_rect l = map pipe_rect l' -> spaced l' -> spaced l.
Proof.
  intros E H p q Hp Hq.
  assert (forall r, In r l -> exists r', In r' l' /\ pipe_rect r' = pipe_rect r)
    as Hex.
  { intros r Hr.
    assert (In (pipe_rect r) (map pipe_rect l')) as Hr'
        by (rewrite <- E; apply in_map; exact Hr).
    apply in_map_iff in Hr'. destruct Hr' as (r' & Er & Hin). eauto. }
  destruct (Hex p Hp) as (p' & Hp' & <-).
  destruct (Hex q Hq) as (q' & Hq' & <-).
  apply H; assumption.
Qed.

(** ** No pipe is marked ahead of the wolf *)

Lemma update_score_marks (g : Game) :
  pipe_group (Game._update_score g) = pipe_group g \/
  exists k fp,
    min_centerx (pipe_group g) = Some (k, fp) /\
    Rect.right (pipe_rect fp) < Rect.centerx (rect (wolf g)) /\
    pipe_group (Game._update_score g) = mark_pair (cx fp) (pipe_group g).
Proof.
  destruct (update_score_pipes g) as [H | (k & fp & Hmin & Hp)];
    [left; exact H|].
  destruct (Z.gtb_spec (Rect.centerx (rect (wolf g)))
                       (Rect.right (pipe_rect fp))) as [Hgt | Hle].
  - right. exists k, fp. auto.
  - left. unfold Game._update_score. rewrite Hmin. cbv zeta.
    destruct (Z.gtb_spec (Rect.centerx (rect (wolf g)))
                         (Rect.right (pipe_rect fp))); [lia|].
    rewrite andb_false_r. reflexivity.
Qed.

Lemma update_unscored_ahead (A : Assets) (g : Game) (i : Input) :
  well_formed A g ->
  spaced (pipe_group (Game.update A g i)) ->
  unscored_ahead g -> unscored_ahead (Game.update A g i).
Proof.
  intros Hwf Hsp H. unfold Game.update in *. destruct (state g) eqn:E.
  - exact H.
  - unfold Game._update_playing in *.
    set (b := Game.before_collisions A g i) in *.
    destruct (check_collisions_keeps A b) as (Ew & Ep & _).
    set (c := Game._check_collisions A b) in *.
    pose proof (before_collisions_well_formed A g i Hwf) as [Hx Hok].
    fold b in Hx, Hok. rewrite <- Ew in Hx. rewrite <- Ep in Hok.
    assert (unscored_ahead c) as Hc.
    { intros p Hp Hs. rewrite Ep in Hp. unfold b in Hp.
      rewrite before_collisions_pipes in Hp. cbv zeta in Hp.
      apply in_app_or in Hp. destruct Hp as [Hp | Hp].
      - apply group_update_in in Hp. destruct Hp as (q & Hq & ->).
        destruct (moved_fields q 1) as (_ & _ & HR & _ & HS).
        rewrite HS in Hs. specialize (H q Hq Hs).
        rewrite HR. unfold Config.SCROLL_SPEED. lia.
      - destruct (_ >? Config.PIPE_FREQUENCY); [|destruct Hp].
        rewrite pipe_init_top, pipe_init_bottom in Hp.
        destruct Hp as [<- | [<- | []]]; discriminate Hs. }
    assert (spaced (pipe_group c)) as Hspc
        by (apply (spaced_rects _ _ (eq_sym (update_score_rects c)) Hsp)).
    unfold unscored_ahead at 1.
    destruct (update_score_marks c) as [-> | (k & fp & Hmin & Hlt & ->)];
      [exact Hc|].
    intros p' Hp' Hs'. unfold mark_pair in Hp'. apply in_map_iff in Hp'.
    destruct Hp' as (p & <- & Hp).
    destruct (Z.ltb_spec (Z.abs (cx p - cx fp)) 10) as [Hnear | Hfar];
      [|apply Hc; assumption].
    change (Rect.right (pipe_rect (Pipe.set_scored p)))
      with (Rect.right (pipe_rect p)).
    assert (In fp (pipe_group c)) as Hfp.
    { apply min_centerx_split in Hmin.
      destruct Hmin as (l1 & l2 & -> & _). apply in_or_app. right. left.
      reflexivity. }
    rewrite Forall_forall in Hok.
    assert (rect_ok A (pipe_rect p)) as [Hpw _]
        by (apply Hok; apply in_map; exact Hp).
    assert (rect_ok A (pipe_rect fp)) as [Hfw _]
        by (apply Hok; apply in_map; exact Hfp).
    specialize (Hspc p fp Hp Hfp).
    unfold Rect.centerx, Rect.left, Rect.right in *.
    rewrite Hpw, Hfw in *. lia.
  - pose proof (update_game_over_spec A g i) as Hs. cbv zeta in Hs.
    unfold unscored_ahead.
    destruct (snd (Button.update _ _ _)).
    + destruct Hs as (_ & -> & _). intros p [].
    + destruct Hs as (_ & -> & _). exact H.
Qed.

Lemma tick_unscored_ahead (A : Assets) (g : Game) (i : Input) :
  well_formed A g ->
  spaced (pipe_group (fst (Game.tick A g i))) ->
  unscored_ahead g -> unscored_ahead (fst (Game.tick A g i)).
Proof.
  unfold Game.tick.
  destruct (handle_events_wolf A g (events i) (event_ticks i))
    as (Hw & Hp & _).
  destruct (Game.handle_events A g (events i) (event_ticks i)) as [g1 r].
  cbn [fst] in *. intros [Hc Hf] Hsp H.
  apply update_unscored_ahead.
  - split; [rewrite Hw | rewrite Hp]; assumption.
  - exact Hsp.
  - unfold unscored_ahead. rewrite Hp. exact H.
Qed.

(** In a session whose groups are spaced up to pass [n], no pipe is marked
    ahead of the wolf up to pass [n]. *)
Lemma session_unscored_ahead (A : Assets) (inputs : list Input) (n : nat) :
  (forall j, (j <= n)%nat ->
             spaced (pipe_group (Game.run A (firstn j inputs)))) ->
  forall j, (j <= n)%nat -> unscored_ahead (Game.run A (firstn j inputs)).
Proof.
  intros Hsp. induction j as [|j IH]; intros Hj.
  - intros p [].
  - destruct (run_next A inputs j) as [E | (i & E)]; rewrite E.
    + apply IH. lia.
    + apply tick_unscored_ahead.
      * apply run_well_formed.
      * rewrite <- E. apply Hsp. exact Hj.
      * apply IH. lia.
Qed.

(** ** Following a pipe *)

Lemma update_tracks (A : Assets) (h : Game) (i : Input) (P : Pipe) :
  state h = PLAYING ->
  In (pipe_rect P) (map pipe_rect (pipe_group h)) ->
  0 <= Rect.right (pipe_rect (moved P 1)) ->
  In (pipe_rect (moved P 1)) (map pipe_rect (pipe_group (Game.update A h i))).
Proof.
  intros Hs Hin Hon. unfold Game.update. rewrite Hs.
  unfold Game._update_playing. rewrite update_score_rects.
  rewrite (proj1 (proj2 (check_collisions_keeps A _))).
  rewrite before_collisions_pipes. cbv zeta.
  rewrite map_app. apply in_or_app. left.
  apply in_map_iff in Hin. destruct Hin as (q & Eq & Hq).
  assert (moved q 1 = mkPipe (flipped q) (pipe_rect (moved P 1)) (scored q))
    as Em by (unfold moved; rewrite Eq; reflexivity).
  apply in_map_iff. exists (moved q 1). split; [rewrite Em; reflexivity|].
  rewrite group_update_filter. apply filter_In. split.
  - apply (in_map (fun p => moved p 1)). exact Hq.
  - rewrite Em. cbn [pipe_rect]. apply Z.leb_le. exact Hon.
Qed.

Lemma play_tracks (A : Assets) (l : list Input) :
  forall h P,
    In (pipe_rect P) (map pipe_rect (pipe_group h)) ->
    (forall j, (j < length l)%nat ->
               state (play A h (firstn j l)) = PLAYING) ->
    0 <= Rect.right (pipe_rect P)
         - Config.SCROLL_SPEED * Z.of_nat (length l) ->
    In (pipe_rect (moved P (Z.of_nat (length l))))
       (map pipe_rect (pipe_group (play A h l))).
Proof.
  induction l as [|i l IH]; intros h P Hin Hst Hon.
  - cbn [length Z.of_nat play fold_left]. rewrite moved_0. exact Hin.
  - cbn [length] in *. rewrite Nat2Z.inj_succ in *.
    unfold Config.SCROLL_SPEED in *.
    destruct (moved_fields P 1) as (_ & _ & HR & _).
    unfold Config.SCROLL_SPEED in HR.
    assert (state h = PLAYING) as Hs by (apply (Hst 0%nat); lia).
    rewrite play_cons.
    replace (Z.succ (Z.of_nat (length l))) with (1 + Z.of_nat (length l))
      by lia.
    rewrite <- moved_add. apply IH.
    + apply update_tracks; [exact Hs | exact Hin | lia].
    + intros j Hj. rewrite <- play_cons. apply (Hst (S j)). lia.
    + rewrite HR. unfold Config.SCROLL_SPEED. lia.
Qed.

(** In a spaced group a pipe whose right edge is at 104 or less has no
    pair before it: the head of the group, which is the pipe that
    [_update_score] reads, is level with it. *)
Lemma head_of_spaced (A : Assets) (g : Game) (P : Pipe) :
  well_formed A g ->
  ascending (lefts (pipe_group g)) ->
  Forall on_screen (pipe_group g) ->
  spaced (pipe_group g) ->
  In (pipe_rect P) (map pipe_rect (pipe_group g)) ->
  Rect.right (pipe_rect P) <= 104 ->
  exists T rest,
    pipe_group g = T :: rest /\
    min_centerx (pipe_group g) = Some (0%nat, T) /\
    rect_x (pipe_rect T) = rect_x (pipe_rect P) /\
    rect_w (pipe_rect T) = rect_w (pipe_rect P).
Proof.
  intros [_ Hok] Hasc Hscr Hsp Hin Hr.
  pose proof (first_is_head A (pipe_group g) Hok Hasc) as Hmin.
  apply in_map_iff in Hin. destruct Hin as (q & Eq & Hq).
  destruct (pipe_group g) as [|T rest] eqn:E; [destruct Hq|].
  exists T, rest. split; [reflexivity|]. split; [exact Hmin|].
  assert (In T (T :: rest)) as HT by (left; reflexivity).
  rewrite Forall_forall in Hok, Hscr.
  assert (rect_ok A (pipe_rect T)) as [HTw _]
      by (apply Hok; apply in_map; exact HT).
  assert (rect_ok A (pipe_rect q)) as [Hqw _]
      by (apply Hok; apply in_map; exact Hq).
  destruct (Hscr T HT) as [HT0 _].
  assert (Rect.left (pipe_rect T) <= Rect.left (pipe_rect q)) as Hle.
  { cbn [lefts map ascending] in Hasc. destruct Hasc as [Hh _].
    rewrite Forall_forall in Hh. destruct Hq as [<- | Hq]; [lia|].
    apply Hh. apply (in_map (fun p => Rect.left (pipe_rect p))). exact Hq. }
  specialize (Hsp T q HT Hq). rewrite <- Eq.
  unfold Rect.left, Rect.right in *. rewrite <- Eq in Hr.
  split; lia.
Qed.

(** ** Pacing gives spacing *)

Lemma spawn_clock_events (A : Assets) (t : Z) (g : Game) (evs : list Event)
      (now : Z) :
  spawn_clock_ok t g ->
  spawn_clock_ok t (fst (Game.handle_events A g evs now)).
Proof.
  intros H.
  destruct (handle_events_cases A g evs now) as [-> | (Hs & _ & ->)];
    [exact H|].
  destruct H as (_ & _ & H3 & _). specialize (H3 Hs).
  unfold spawn_clock_ok, Game.started. cbn [pipe_group state]. rewrite H3.
  split; [intros p q []|]. split; [intros p []|].
  split; [reflexivity | intros _ p []].
Qed.

Lemma spawn_clock_rects (t : Z) (g g' : Game) :
  map pipe_rect (pipe_group g') = map pipe_rect (pipe_group g) ->
  last_pipe_time g' = last_pipe_time g ->
  state g' <> MENU ->
  spaced (pipe_group g) ->
  (forall p, In p (pipe_group g) ->
             Rect.left (pipe_rect p) <= Config.SCREEN_WIDTH /\
             4 * (t - last_pipe_time g)
             <= 57 * (Config.SCREEN_WIDTH - Rect.left (pipe_rect p))) ->
  spawn_clock_ok t g'.
Proof.
  intros Er Et Hs Hsp Hb.
  assert (forall p, In p (pipe_group g') ->
            exists q, In q (pipe_group g) /\ pipe_rect q = pipe_rect p) as Hex.
  { intros p Hp.
    assert (In (pipe_rect p) (map pipe_rect (pipe_group g))) as Hr
        by (rewrite <- Er; apply in_map; exact Hp).
    apply in_map_iff in Hr. destruct Hr as (q & Eq & Hq). eauto. }
  split; [exact (spaced_rects _ _ Er Hsp)|]. split; [|split].
  - intros p Hp. destruct (Hex p Hp) as (q & Hq & <-). apply (Hb q Hq).
  - intros E. contradiction.
  - intros _ p Hp. destruct (Hex p Hp) as (q & Hq & <-).
    rewrite Et. apply (Hb q Hq).
Qed.

Lemma spawn_clock_update (A : Assets) (t : Z) (g : Game) (i : Input) :
  spawn_clock_ok t g -> ticks i - t <= 57 ->
  spawn_clock_ok (ticks i) (Game.update A g i).
Proof.
  intros (H1 & H2 & H3 & H4) Hdt. unfold Game.update.
  destruct (state g) eqn:E.
  - split; [exact H1|]. split; [exact H2|].
    split; [intros _; apply H3; reflexivity|].
    rewrite E. discriminate.
  - specialize (H4 eq_refl). unfold Game._update_playing.
    set (b := Game.before_collisions A g i).
    destruct (check_collisions_keeps A b) as (_ & Ep & _ & _ & Et).
    destruct (update_score_keeps (Game._check_collisions A b))
      as (_ & Es & Et' & _).
    apply (spawn_clock_rects _ b).
    + rewrite update_score_rects, Ep. reflexivity.
    + congruence.
    + rewrite Es, check_collisions_state.
      destruct (before_collisions_keeps A g i) as (_ & Eb & _).
      fold b in Eb. rewrite Eb, E.
      destruct (existsb _ _ || _); discriminate.
    + pose proof (before_collisions_pipes A g i) as Eg. cbv zeta in Eg.
      fold b in Eg. rewrite Eg. clear Eg.
      intros p q Hp Hq.
      apply in_app_or in Hp. apply in_app_or in Hq.
      destruct (Z.gtb_spec (ticks i - last_pipe_time g) Config.PIPE_FREQUENCY)
        as [Hc | Hc];
        unfold Config.PIPE_FREQUENCY, Config.SCREEN_WIDTH in *;
        destruct Hp as [Hp | Hp], Hq as [Hq | Hq];
        try (apply group_update_in in Hp; destruct Hp as (p0 & Hp0 & ->);
             destruct (moved_fields p0 1) as (_ & -> & _);
             pose proof (H4 p0 Hp0));
        try (apply group_update_in in Hq; destruct Hq as (q0 & Hq0 & ->);
             destruct (moved_fields q0 1) as (_ & -> & _);
             pose proof (H4 q0 Hq0));
        try (destruct Hp as [<- | [<- | []]]);
        try (destruct Hq as [<- | [<- | []]]);
        try contradiction;
        try (pose proof (H1 p0 q0 Hp0 Hq0));
        rewrite ?pipe_init_top, ?pipe_init_bottom;
        unfold Rect.left, Rect.of_size_bottomleft, Rect.of_size_topleft,
          Config.SCROLL_SPEED in *;
        cbn [pipe_rect rect_x fst]; lia.
    + pose proof (before_collisions_pipes A g i) as Eg. cbv zeta in Eg.
      fold b in Eg. rewrite Eg. clear Eg.
      pose proof (before_collisions_time A g i) as Eb. fold b in Eb.
      rewrite Eb. clear Eb.
      intros p Hp. apply in_app_or in Hp.
      destruct (Z.gtb_spec (ticks i - last_pipe_time g) Config.PIPE_FREQUENCY)
        as [Hc | Hc];
        unfold Config.PIPE_FREQUENCY, Config.SCREEN_WIDTH in *;
        destruct Hp as [Hp | Hp];
        try (apply group_update_in in Hp; destruct Hp as (p0 & Hp0 & ->);
             destruct (moved_fields p0 1) as (_ & -> & _);
             pose proof (H4 p0 Hp0); pose proof (H2 p0 Hp0));
        try (destruct Hp as [<- | [<- | []]]);
        try contradiction;
        rewrite ?pipe_init_top, ?pipe_init_bottom;
        unfold Rect.left, Rect.of_size_bottomleft, Rect.of_size_topleft,
          Config.SCROLL_SPEED in *;
        cbn [pipe_rect rect_x fst]; lia.
  - pose proof (update_game_over_spec A g i) as Hs. cbv zeta in Hs.
    rewrite E in Hs.
    destruct (snd (Button.update _ _ _)).
    + destruct Hs as (Hst & Hp & _). unfold spawn_clock_ok.
      rewrite Hst, Hp.
      split; [intros p q []|]. split; [intros p []|].
      split; [reflexivity | discriminate].
    + destruct Hs as (Hst & Hp & _). unfold spawn_clock_ok.
      rewrite Hst, Hp.
      split; [exact H1|]. split; [exact H2|].
      split; discriminate.
Qed.

Lemma run_from_paced (A : Assets) (inputs : list Input) :
  forall g t,
    spawn_clock_ok t g -> paced_from t inputs ->
    exists t', spawn_clock_ok t' (Game.run_from A g inputs).
Proof.
  induction inputs as [|i rest IH]; intros g t H Hp; [exists t; exact H|].
  destruct Hp as [Hdt Hp]. rewrite run_from_cons.
  assert (spawn_clock_ok (ticks i) (fst (Game.tick A g i))) as H1.
  { unfold Game.tick.
    pose proof (spawn_clock_events A t g (events i) (event_ticks i) H) as He.
    destruct (Game.handle_events A g (events i) (event_ticks i)) as [g1 r].
    apply (spawn_clock_update A t); assumption. }
  destruct (quits i); [exists (ticks i); exact H1|].
  apply (IH _ (ticks i)); assumption.
Qed.

Lemma paced_from_firstn (inputs : list Input) :
  forall t j, paced_from t inputs -> paced_from t (firstn j inputs).
Proof.
  induction inputs as [|i rest IH]; intros t [|j] H; try exact I.
  destruct H as [Hdt H]. split; [exact Hdt | apply IH; exact H].
Qed.

(** In a session whose clock readings are at most 57 ms apart from one
    pass to the next, the pipes of the group are level or more than 104 px
    apart after every pass: a pair is at least 27 passes, 108 px, behind
    the pair before it. *)
Lemma paced_session_spaced (A : Assets) (inputs : list Input) (j : nat) :
  paced inputs ->
  spaced (pipe_group (Game.run A (firstn j inputs))).
Proof.
  intros H.
  assert (exists t, paced_from t (firstn j inputs)) as (t & Hp).
  { destruct inputs as [|i rest]; [exists 0; destruct j; exact I|].
    exists (ticks i). apply paced_from_firstn.
    split; [lia | exact H]. }
  destruct (run_from_paced A (firstn j inputs) (Game.__init__ A) t)
    as (t' & Hs & _); [|exact Hp | exact Hs].
  split; [intros p q []|]. split; [intros p []|].
  split; [reflexivity | discriminate].
Qed.

(** At 58 ms a pass the bound is missed by one pass: a pair is due every
    26 passes, 104 px behind the pair before it, and with the 80 px pipe
    no pair but the first adds a point.  After pass 220 the wolf's x-centre,
    100, is strictly between the edges of the second pair while the first
    pair, already marked, is still the head of the group; the first pair
    leaves the group in pass 239, when the second pair's right edge is at
    100; pass 240 is the first after which the x-centre exceeds that edge,
    the game is playing, and the score stays at 1, as it does while the
    wolf goes on through the pairs that follow. *)
Lemma pairs_104_px_apart_example :
  let at_pass n := Game.run demo_assets (firstn n (demo_slow_session 340)) in
  let edges g :=
    map (fun p => (Rect.left (pipe_rect p), Rect.right (pipe_rect p)))
        (firstn 4 (pipe_group g)) in
  let marks g := map scored (firstn 4 (pipe_group g)) in
  Rect.centerx (rect (wolf (at_pass 220%nat))) = 100 /\
  edges (at_pass 220%nat) = [(-8, 72); (-8, 72); (96, 176); (96, 176)] /\
  marks (at_pass 220%nat) = [true; true; false; false] /\
  score (at_pass 220%nat) = 1 /\
  state (at_pass 239%nat) = PLAYING /\
  edges (at_pass 239%nat) = [(20, 100); (20, 100); (124, 204); (124, 204)] /\
  state (at_pass 240%nat) = PLAYING /\
  edges (at_pass 240%nat) = [(16, 96); (16, 96); (120, 200); (120, 200)] /\
  marks (at_pass 240%nat) = [false; false; false; false] /\
  score (at_pass 240%nat) = 1 /\
  state (at_pass 340%nat) = PLAYING /\
  score (at_pass 340%nat) = 1.
Proof. vm_compute. repeat split. Qed.

(** ** Every pair scores once *)

(** C2, for sessions whose pairs keep their distance.  Take a session in
    which nobody quits and in which, after every pass, any two pipes of the
    group are level or more than 104 px apart (by [paced_session_spaced],
    every session whose passes are at most 57 ms apart is one).  Let [P] be
    any pipe of the group after pass [m], top or bottom, of the first pair
    or of a later one, with the game PLAYING and the wolf's x-centre
    strictly between [P]'s edges; let pass [m + n + 1] be the first after
    which the x-centre exceeds [P]'s right edge, which moves 4 px left per
    pass; and let the game be PLAYING before each of these passes and of
    the [r] passes that follow, during which the pipe is still in the
    group.  Then [P] is not marked; after each of these passes the wolf's
    x-centre is where it was and the group holds [P] moved 4 px per pass;
    pass [m + n + 1] adds exactly 1 to the score and leaves marked every
    pipe whose x-centre is less than 10 px from [P]'s; and the score stays
    through the [r] passes that follow. *)
Theorem C2_scoring_exactly_once
  (A : Assets) (inputs : list Input) (m n r : nat) (P : Pipe) :
  let at_pass j := Game.run A (firstn j inputs) in
  let wolf_x := Rect.centerx (rect (wolf (at_pass m))) in
  let hit := (m + n + 1)%nat in
  existsb quits inputs = false ->
  (hit + r <= length inputs)%nat ->
  (forall j, (j <= hit + r)%nat -> spaced (pipe_group (at_pass j))) ->
  (forall j, (m <= j < hit + r)%nat -> state (at_pass j) = PLAYING) ->
  In P (pipe_group (at_pass m)) ->
  Rect.left (pipe_rect P) < wolf_x < Rect.right (pipe_rect P) ->
  wolf_x <= Rect.right (pipe_rect P) - Config.SCROLL_SPEED * Z.of_nat n ->
  Rect.right (pipe_rect P) - Config.SCROLL_SPEED * (Z.of_nat n + 1) < wolf_x ->
  0 <= Rect.right (pipe_rect P) - Config.SCROLL_SPEED * Z.of_nat (n + 1 + r) ->
  scored P = false /\
  (forall j, (j <= n + 1 + r)%nat ->
             Rect.centerx (rect (wolf (at_pass (m + j)%nat))) = wolf_x /\
             In (pipe_rect (moved P (Z.of_nat j)))
                (map pipe_rect (pipe_group (at_pass (m + j)%nat)))) /\
  score (at_pass hit) = score (at_pass (m + n)%nat) + 1 /\
  (forall p, In p (pipe_group (at_pass hit)) ->
             Z.abs (cx p - cx (moved P (Z.of_nat n + 1))) < 10 ->
             scored p = true) /\
  (forall j, (hit <= j <= hit + r)%nat ->
             score (at_pass j) = score (at_pass hit)).
Proof.
  intros at_pass wolf_x hit Hq Hlen Hsp Hst Hin Hbt Hle Hlt Hon.
  subst wolf_x hit at_pass. cbv beta in *.
  assert (forall j, Rect.centerx (rect (wolf (Game.run A (firstn j inputs))))
                    = 100) as Hx
      by (intros j; apply (run_well_formed A (firstn j inputs))).
  rewrite (Hx m) in *. unfold Config.SCROLL_SPEED in *.
  assert (rect_w (pipe_rect P) = fst (pipe_size A)) as HPw.
  { destruct (run_well_formed A (firstn m inputs)) as [_ Hok].
    rewrite Forall_forall in Hok.
    apply (Hok (pipe_rect P)). apply in_map. exact Hin. }
  assert (0 <= fst (pipe_size A)) as Hw
      by (unfold Rect.left, Rect.right in Hbt; lia).
  pose proof (session_unscored_ahead A inputs (m + n + 1 + r) Hsp) as Hun.
  assert (scored P = false) as HPs.
  { destruct (scored P) eqn:E; [|reflexivity]. exfalso.
    assert (m <= m + n + 1 + r)%nat as Hm by lia.
    pose proof (Hun m Hm P Hin E). lia. }
  (* where the pipe is after each pass *)
  destruct (session_play A inputs m (n + 1 + r) Hq) as (mid & Hmlen & Hmid);
    [lia | intros j Hj; apply Hst; lia |].
  assert (forall j, (j <= n + 1 + r)%nat ->
            In (pipe_rect (moved P (Z.of_nat j)))
               (map pipe_rect
                    (pipe_group (Game.run A (firstn (m + j) inputs)))))
    as Htr.
  { intros j Hj. rewrite (Hmid j Hj).
    assert (length (firstn j mid) = j) as Hl by (rewrite length_firstn; lia).
    replace (Z.of_nat j) with (Z.of_nat (length (firstn j mid)))
      by (rewrite Hl; reflexivity).
    apply play_tracks.
    - apply in_map. exact Hin.
    - intros j' Hj'. rewrite Hl in Hj'. rewrite firstn_firstn.
      replace (Nat.min j' j) with j' by lia.
      rewrite <- (Hmid j') by lia. apply Hst. lia.
    - rewrite Hl. unfold Config.SCROLL_SPEED. lia. }
  (* the last pass after which the wolf is strictly between the edges *)
  assert (exists n0 d : nat,
             n = (n0 + d)%nat /\ (d <= 1)%nat /\
             100 < Rect.right (pipe_rect P) - 4 * Z.of_nat n0 <= 104)
    as (n0 & d & En & Hd & Hr0).
  { destruct (Z.eq_dec (Rect.right (pipe_rect P) - 4 * Z.of_nat n) 100)
      as [E | E].
    - destruct n as [|n']; [lia|]. exists n', 1%nat. lia.
    - exists n, 0%nat. lia. }
  subst n.
  destruct (run_order A (firstn (m + n0) inputs)) as (Hwfa & Hasca & Hfla).
  pose proof (run_on_screen A (firstn (m + n0) inputs) Hw) as Hscra.
  destruct (moved_fields P (Z.of_nat n0)) as (HC0 & HL0 & HR0 & _).
  unfold Config.SCROLL_SPEED in HC0, HL0, HR0.
  destruct (head_of_spaced A (Game.run A (firstn (m + n0) inputs))
              (moved P (Z.of_nat n0)) Hwfa Hasca Hscra)
    as (T & rest & ET & HminT & HTx & HTw);
    [apply Hsp; lia | apply Htr; lia | lia |].
  assert (Rect.right (pipe_rect T)
          = Rect.right (pipe_rect P) - 4 * Z.of_nat n0) as HTR
      by (unfold Rect.right in HR0 |- *; rewrite HTx, HTw; exact HR0).
  assert (Rect.left (pipe_rect T)
          = Rect.left (pipe_rect P) - 4 * Z.of_nat n0) as HTL
      by (unfold Rect.left in HL0 |- *; rewrite HTx; exact HL0).
  assert (cx T = cx P - 4 * Z.of_nat n0) as HTC
      by (unfold Rect.centerx in HC0 |- *; rewrite HTx, HTw; exact HC0).
  assert (pipe_passed (Game.run A (firstn (m + n0) inputs)) = true) as Hfa.
  { destruct Hfla as [_ F2]. apply (F2 T rest ET). lia. }
  assert (scored T = false) as HTs.
  { destruct (scored T) eqn:E; [|reflexivity]. exfalso.
    assert (In T (pipe_group (Game.run A (firstn (m + n0) inputs)))) as HinT
        by (rewrite ET; left; reflexivity).
    assert (m + n0 <= m + (n0 + d) + 1 + r)%nat as Hm by lia.
    pose proof (Hun (m + n0)%nat Hm T HinT E). lia. }
  (* at most one more pass before the right edge is reached *)
  destruct (session_play A inputs (m + n0) d Hq) as (midd & Hdlen & Hmidd);
    [lia | intros j Hj; apply Hst; lia |].
  pose proof (Hmidd d (le_n d)) as Ed.
  replace (firstn d midd) with midd in Ed
    by (symmetry; apply firstn_all2; lia).
  destruct (wait_ticks A midd (Game.run A (firstn (m + n0) inputs)) 0%nat T
              Hwfa HminT Hfa) as (W1 & W2 & W3).
  { intros j Hj. rewrite <- (Hmidd j) by lia. apply Hst. lia. }
  { rewrite Hdlen. unfold Config.SCROLL_SPEED. lia. }
  rewrite <- Ed in W1, W2, W3. rewrite Hdlen in W1.
  replace (m + n0 + d)%nat with (m + (n0 + d))%nat in * by lia.
  destruct (moved_fields T (Z.of_nat d)) as (HC1 & _ & HR1 & _ & HS1).
  unfold Config.SCROLL_SPEED in HC1, HR1.
  (* the pass that scores *)
  destruct (session_play A inputs (m + (n0 + d)) 1 Hq)
    as (mid1 & H1len & Hmid1);
    [lia | intros j Hj; apply Hst; lia |].
  destruct mid1 as [|i1 [|i2 mid1]]; try discriminate H1len.
  pose proof (Hmid1 1%nat (le_n 1)) as E1.
  cbn [firstn play fold_left] in E1.
  destruct (hit_tick A (Game.run A (firstn (m + (n0 + d)) inputs)) i1 0%nat
              (moved T (Z.of_nat d))) as (F1 & F2 & F3 & F4).
  { apply run_well_formed. }
  { apply Hst. lia. }
  { exact W1. }
  { exact W2. }
  { congruence. }
  { rewrite HR1. lia. }
  { rewrite HR1. unfold Config.SCROLL_SPEED. lia. }
  rewrite <- E1 in F1, F3, F4.
  destruct (moved_fields (moved T (Z.of_nat d)) 1) as (HC2 & _ & HR2 & _).
  unfold Config.SCROLL_SPEED in HC2, HR2.
  destruct (moved_fields P (Z.of_nat (n0 + d) + 1)) as (HCP & _).
  unfold Config.SCROLL_SPEED in HCP.
  (* the passes after it *)
  destruct (session_play A inputs (m + (n0 + d) + 1) r Hq)
    as (midr & Hrlen & Hmidr);
    [lia | intros j Hj; apply Hst; lia |].
  split; [exact HPs|]. split.
  { intros j Hj. split; [apply Hx | apply Htr; exact Hj]. }
  split; [exact F1|]. split.
  { intros p Hp Hab. apply (F4 p Hp). lia. }
  intros j Hj.
  replace j with (m + (n0 + d) + 1 + (j - (m + (n0 + d) + 1)))%nat by lia.
  set (jj := (j - (m + (n0 + d) + 1))%nat).
  assert (jj <= r)%nat as Hjj by (unfold jj; lia).
  rewrite (Hmidr jj Hjj).
  assert (length (firstn jj midr) = jj) as Hl by (rewrite length_firstn; lia).
  apply (scored_ticks A (firstn jj midr) _ 0%nat
           (Pipe.set_scored (moved (moved T (Z.of_nat d)) 1))).
  - apply run_well_formed.
  - exact F3.
  - reflexivity.
  - intros j' Hj'. rewrite Hl in Hj'. rewrite firstn_firstn.
    replace (Nat.min j' jj) with j' by lia.
    rewrite <- (Hmidr j') by lia. apply Hst. lia.
  - rewrite Hl.
    change (Rect.right (pipe_rect (Pipe.set_scored
                                     (moved (moved T (Z.of_nat d)) 1))))
      with (Rect.right (pipe_rect (moved (moved T (Z.of_nat d)) 1))).
    rewrite HR2, HR1. unfold Config.SCROLL_SPEED. lia.
Qed.

Lemma C2_scoring_exactly_once_witness :
  let at_pass j := Game.run demo_assets (firstn j demo_two_session) in
  In demo_second_pipe (pipe_group (at_pass 288%nat)) /\
  score (at_pass 307%nat) = 1 /\
  score (at_pass 308%nat) = score (at_pass 307%nat) + 1 /\
  score (at_pass 313%nat) = score (at_pass 308%nat).
Proof.
  cbv zeta.
  assert (existsb quits demo_two_session = false) as Hq
      by (vm_compute; reflexivity).
  assert (288 + 19 + 1 + 5 <= length demo_two_session)%nat as Hlen
      by (apply Nat.leb_le; vm_compute; reflexivity).
  assert (forall j, (j <= 288 + 19 + 1 + 5)%nat ->
            spaced (pipe_group (Game.run demo_assets
                                  (firstn j demo_two_session)))) as Hsp.
  { assert (forallb
              (fun j => spacedb (pipe_group
                                   (Game.run demo_assets
                                      (firstn j demo_two_session))))
              (seq 0 314) = true) as Hb by (vm_compute; reflexivity).
    intros j Hj. apply spacedb_spaced.
    rewrite forallb_forall in Hb. apply Hb. apply in_seq. lia. }
  assert (forall j, (288 <= j < 288 + 19 + 1 + 5)%nat ->
            state (Game.run demo_assets (firstn j demo_two_session))
            = PLAYING) as Hst.
  { assert (forallb
              (fun j => is_playing
                          (state (Game.run demo_assets
                                    (firstn j demo_two_session))))
              (seq 288 25) = true) as Hb by (vm_compute; reflexivity).
    intros j Hj. rewrite forallb_forall in Hb.
    assert (In j (seq 288 25)) as Hin by (apply in_seq; lia).
    specialize (Hb j Hin).
    destruct (state (Game.run demo_assets (firstn j demo_two_session)));
      [discriminate Hb | reflexivity | discriminate Hb]. }
  assert (In demo_second_pipe
            (pipe_group (Game.run demo_assets (firstn 288 demo_two_session))))
    as Hin by (vm_compute; right; left; reflexivity).
  split; [exact Hin|]. split; [vm_compute; reflexivity|].
  destruct (C2_scoring_exactly_once demo_assets demo_two_session
              288 19 5 demo_second_pipe Hq Hlen Hsp Hst Hin)
    as (_ & _ & H3 & _ & H5).
  - vm_compute. split; reflexivity.
  - vm_compute. discriminate.
  - vm_compute. reflexivity.
  - vm_compute. discriminate.
  - split; [exact H3|]. apply H5. lia.
Defined.

